(** * YANFF flow graph: a shallow embedding of the packet-processing runtime

    The development follows the Go sources of the [flow] and [packet]
    packages.  Machine integers are integers of [Z] with the wrap-around of
    their width written out; Go slices are lists read and written by index,
    with an out-of-range access reported as a failure; the process-wide
    variables of package [flow] are the fields of one explicit state record
    threaded through the builder calls. *)

From Stdlib Require Import ZArith List Bool Lia String.
From stdpp Require Import base option list gmap strings.

Local Open Scope Z_scope.

(** ** Machine integers *)

Definition wrap (w : Z) (x : Z) : Z := x mod 2 ^ w.

Definition wrap8 : Z -> Z := wrap 8.
Definition wrap16 : Z -> Z := wrap 16.
Definition wrap32 : Z -> Z := wrap 32.
(** Go's [uint] and [int] are 64 bits wide on the platforms DPDK runs on. *)
Definition wrap64 : Z -> Z := wrap 64.

(** The values of an unsigned integer type of width [w]. *)
Definition is_uint (w x : Z) : Prop := 0 <= x < 2 ^ w.

(** ** Package packet: byte swaps and packet addresses *)

Module Packet.

(** [func SwapBytesUint16(x uint16) uint16 { return x<<8 | x>>8 }] *)
Definition SwapBytesUint16 (x : Z) : Z :=
  Z.lor (wrap16 (Z.shiftl x 8)) (Z.shiftr x 8).

(** [func SwapBytesUint32(x uint32) uint32], the four masked shifts. *)
Definition SwapBytesUint32 (x : Z) : Z :=
  Z.lor
    (Z.lor
       (Z.lor (wrap32 (Z.shiftl (Z.land x 0x000000ff) 24))
              (wrap32 (Z.shiftl (Z.land x 0x0000ff00) 8)))
       (Z.shiftr (Z.land x 0x00ff0000) 8))
    (Z.shiftr (Z.land x 0xff000000) 24).

(** [ExtractPacketAddr]: the packet structure sits right after the mbuf
    header, whose size is the package variable [mbufStructSize].  [ToPacket]
    is a cast, so a [*Packet] is the address itself. *)
Definition ExtractPacketAddr (mbufStructSize IN : Z) : Z := wrap64 (IN + mbufStructSize).

Definition ExtractPacket (mbufStructSize IN : Z) : Z := ExtractPacketAddr mbufStructSize IN.

End Packet.

(** ** Package low: rings, mempools, direct stop *)

Module Low.

(** An mbuf handle is a [uintptr]. *)
Abbreviation Handle := Z.

(** A [*low.Queue] and a [*low.Mempool] are pointers; each is identified by
    the order of its creation, which is its index in the heap of the state. *)
Abbreviation Queue := nat.
Abbreviation Mempool := nat.

(** Modelled from the spec: the ring of package low, whose source is not
    part of the files at hand.  A bounded FIFO of handles of fixed capacity;
    burst enqueue and dequeue move as many handles as fit, or as are there,
    report the count moved, and never wait. *)
Record Ring : Type := mkRing {
  name : Z;             (* the numeral [generateRingName] printed *)
  capacity : nat;
  items : list Handle
}.

Definition CreateQueue (name : Z) (count : Z) : Ring :=
  mkRing name (Z.to_nat count) [].

Definition EnqueueBurst (r : Ring) (buffer : list Handle) (count : nat) : Ring * nat :=
  let moved := Nat.min count (capacity r - length (items r)) in
  (mkRing (name r) (capacity r) (items r ++ take moved buffer), moved).

(** The handles dequeued overwrite the first entries of [buffer]. *)
Definition DequeueBurst (r : Ring) (buffer : list Handle) (count : nat)
  : Ring * list Handle * nat :=
  let moved := Nat.min count (length (items r)) in
  (mkRing (name r) (capacity r) (drop moved (items r)),
   take moved (items r) ++ drop moved buffer, moved).

(** [GetQueueCount] returns a [uint32]. *)
Definition GetQueueCount (r : Ring) : Z := wrap32 (Z.of_nat (length (items r))).


(** What the DPDK layer decides: the number of ports bound to it, the size
    of the mbuf header and the buffers of each mempool it creates. *)
Record Dpdk : Type := mkDpdk {
  GetPortsNumber : Z;
  mbufStructSize : Z;
  poolBuffers : nat -> list Handle
}.

End Low.

(** ** Package flow *)

Module Flow.

Import Low.

(** User memory: the packet buffers and the user contexts, everything a
    user-defined function may read and write. *)
Definition Memory : Type := Z -> Z.

(** A [*packet.Packet] is an address. *)
Definition GenerateFunction : Type := Z -> Memory -> Memory.
Definition VectorGenerateFunction : Type := list Z -> Z -> Memory -> Memory.
Definition HandleFunction : Type := Z -> Memory -> Memory.
Definition VectorHandleFunction : Type := list Z -> Z -> Memory -> Memory.
Definition SeparateFunction : Type := Z -> Memory -> bool * Memory.
(** The vector form writes its answers into the mask it is handed; it
    returns the mask as it left it. *)
Definition VectorSeparateFunction : Type :=
  list Z -> list bool -> Z -> Memory -> list bool * Memory.
Definition SplitFunction : Type := Z -> Memory -> Z * Memory.

(** The dynamic type of a function passed as [interface{}]. *)
Inductive UserFunction : Type :=
| FuncPacket (f : Z -> Memory -> Memory)
| FuncVector (f : list Z -> Z -> Memory -> Memory)
| FuncPacketBool (f : SeparateFunction)
| FuncVectorBool (f : VectorSeparateFunction)
| FuncOther.

Inductive StageParameters : Type :=
| receiveParameters (out : Queue) (queue : Z) (port : Z)
| generateParameters (out : Queue) (targetSpeed : Z)
    (generateFunction : option GenerateFunction)
    (vectorGenerateFunction : option VectorGenerateFunction) (mempool : Mempool)
| sendParameters (in_ : Queue) (queue : Z) (port : Z)
| partitionParameters (in_ outFirst outSecond : Queue) (N M : Z)
| separateParameters (in_ outTrue outFalse : Queue)
    (separateFunction : option SeparateFunction)
    (vectorSeparateFunction : option VectorSeparateFunction)
| splitParameters (in_ : Queue) (outs : list Queue)
    (splitFunction : option SplitFunction) (flowNumber : nat)
| handleParameters (in_ out : Queue)
    (handleFunction : option HandleFunction)
    (vectorHandleFunction : option VectorHandleFunction)
| writeParameters (in_ : Queue) (filename : string)
| readParameters (out : Queue) (filename : string) (mempool : Mempool) (repcount : Z).

(** The body and the check a flow function is registered with. *)
Inductive StageFunction : Type :=
| body_receive | body_generateOne | body_generatePerf | body_send
| body_partition | body_separate | body_split | body_handle | body_write
| body_read.

Inductive CheckFunction : Type :=
| check_generate | check_separate | check_split | check_handle.

(** Modelled from the spec: the stage descriptor of package scheduler
    (name, numeric id, kind, the parameters with the ring references, the
    body and, for a clonable stage, the should-clone predicate). *)
Record FlowFunction : Type := mkFlowFunction {
  Name : string;
  identifier : Z;
  uncFunction : StageFunction; Parameters : StageParameters;
  checkPrintFunction : option CheckFunction
}.

Definition NewUnclonableFlowFunction (name : string) (id : Z) (ufn : StageFunction)
  (par : StageParameters) : FlowFunction :=
  mkFlowFunction name id ufn par None.

Definition NewClonableFlowFunction (name : string) (id : Z) (cfn : StageFunction)
  (par : StageParameters) (check : CheckFunction) : FlowFunction :=
  mkFlowFunction name id cfn par (Some check).

(** Modelled from the spec: the scheduler state that package flow touches. *)
Record Scheduler : Type := mkScheduler {
  UnClonable : list FlowFunction;
  Clonable : list FlowFunction;
  StopRing : Queue;
  Dropped : Z            (* uint *)
}.

Definition inactivePort : Z := 0.
Definition autoPort : Z := 1.
Definition manualPort : Z := 2.

Record port : Type := mkPort {
  rxQueues : list bool;
  txQueues : list bool;
  config : Z;
  rxQueuesNumber : Z;    (* uint16 *)
  txQueuesNumber : Z;    (* uint16 *)
  port_ : Z              (* uint8 *)
}.

(** The package variables, the heap of rings, mempools and [Flow] objects,
    user memory, and what was logged or handed to [low.DirectStop]. *)
Record State : Type := mkState {
  openFlowsNumber : Z;   (* uint32 *)
  ringName : Z;          (* int *)
  ffCount : Z;           (* int *)
  createdPorts : list port;
  burstSize : Z;         (* uint *)
  sizeMultiplier : Z;    (* uint *)
  schedTime : Z;         (* uint *)
  maxPacketsToClone : Z; (* uint32 *)
  hwtxchecksum : bool;
  schedState : Scheduler;
  dpdk : Dpdk;
  rings : list Ring;
  mempools : list (list Handle);
  flows : list (option Queue);   (* [Flow.current]; [None] is nil *)
  memory : Memory;
  warnings : list string;
  directStopped : list Handle
}.

(** *** Field updates *)

Definition set_openFlowsNumber (v : Z) (s : State) : State :=
  mkState v (ringName s) (ffCount s) (createdPorts s) (burstSize s)
    (sizeMultiplier s) (schedTime s) (maxPacketsToClone s) (hwtxchecksum s)
    (schedState s) (dpdk s) (rings s) (mempools s) (flows s) (memory s)
    (warnings s) (directStopped s).

Definition set_ringName (v : Z) (s : State) : State :=
  mkState (openFlowsNumber s) v (ffCount s) (createdPorts s) (burstSize s)
    (sizeMultiplier s) (schedTime s) (maxPacketsToClone s) (hwtxchecksum s)
    (schedState s) (dpdk s) (rings s) (mempools s) (flows s) (memory s)
    (warnings s) (directStopped s).

Definition set_ffCount (v : Z) (s : State) : State :=
  mkState (openFlowsNumber s) (ringName s) v (createdPorts s) (burstSize s)
    (sizeMultiplier s) (schedTime s) (maxPacketsToClone s) (hwtxchecksum s)
    (schedState s) (dpdk s) (rings s) (mempools s) (flows s) (memory s)
    (warnings s) (directStopped s).

Definition set_createdPorts (v : list port) (s : State) : State :=
  mkState (openFlowsNumber s) (ringName s) (ffCount s) v (burstSize s)
    (sizeMultiplier s) (schedTime s) (maxPacketsToClone s) (hwtxchecksum s)
    (schedState s) (dpdk s) (rings s) (mempools s) (flows s) (memory s)
    (warnings s) (directStopped s).

Definition set_schedState (v : Scheduler) (s : State) : State :=
  mkState (openFlowsNumber s) (ringName s) (ffCount s) (createdPorts s)
    (burstSize s) (sizeMultiplier s) (schedTime s) (maxPacketsToClone s)
    (hwtxchecksum s) v (dpdk s) (rings s) (mempools s) (flows s) (memory s)
    (warnings s) (directStopped s).

Definition set_rings (v : list Ring) (s : State) : State :=
  mkState (openFlowsNumber s) (ringName s) (ffCount s) (createdPorts s)
    (burstSize s) (sizeMultiplier s) (schedTime s) (maxPacketsToClone s)
    (hwtxchecksum s) (schedState s) (dpdk s) v (mempools s) (flows s)
    (memory s) (warnings s) (directStopped s).

Definition set_mempools (v : list (list Handle)) (s : State) : State :=
  mkState (openFlowsNumber s) (ringName s) (ffCount s) (createdPorts s)
    (burstSize s) (sizeMultiplier s) (schedTime s) (maxPacketsToClone s)
    (hwtxchecksum s) (schedState s) (dpdk s) (rings s) v (flows s)
    (memory s) (warnings s) (directStopped s).

Definition set_flows (v : list (option Queue)) (s : State) : State :=
  mkState (openFlowsNumber s) (ringName s) (ffCount s) (createdPorts s)
    (burstSize s) (sizeMultiplier s) (schedTime s) (maxPacketsToClone s)
    (hwtxchecksum s) (schedState s) (dpdk s) (rings s) (mempools s) v
    (memory s) (warnings s) (directStopped s).

Definition set_memory (v : Memory) (s : State) : State :=
  mkState (openFlowsNumber s) (ringName s) (ffCount s) (createdPorts s)
    (burstSize s) (sizeMultiplier s) (schedTime s) (maxPacketsToClone s)
    (hwtxchecksum s) (schedState s) (dpdk s) (rings s) (mempools s) (flows s)
    v (warnings s) (directStopped s).

Definition set_warnings (v : list string) (s : State) : State :=
  mkState (openFlowsNumber s) (ringName s) (ffCount s) (createdPorts s)
    (burstSize s) (sizeMultiplier s) (schedTime s) (maxPacketsToClone s)
    (hwtxchecksum s) (schedState s) (dpdk s) (rings s) (mempools s) (flows s)
    (memory s) v (directStopped s).

Definition set_directStopped (v : list Handle) (s : State) : State :=
  mkState (openFlowsNumber s) (ringName s) (ffCount s) (createdPorts s)
    (burstSize s) (sizeMultiplier s) (schedTime s) (maxPacketsToClone s)
    (hwtxchecksum s) (schedState s) (dpdk s) (rings s) (mempools s) (flows s)
    (memory s) (warnings s) v.

Definition set_UnClonable (v : list FlowFunction) (sc : Scheduler) : Scheduler :=
  mkScheduler v (Clonable sc) (StopRing sc) (Dropped sc).

Definition set_Clonable (v : list FlowFunction) (sc : Scheduler) : Scheduler :=
  mkScheduler (UnClonable sc) v (StopRing sc) (Dropped sc).

Definition set_Dropped (v : Z) (sc : Scheduler) : Scheduler :=
  mkScheduler (UnClonable sc) (Clonable sc) (StopRing sc) v.

Definition set_Parameters (v : StageParameters) (ff : FlowFunction) : FlowFunction :=
  mkFlowFunction (Name ff) (identifier ff) (uncFunction ff) v (checkPrintFunction ff).

(** *** Results and the state monad

    A call either returns or ends the process: [common.LogError] exits, and
    so does a Go run-time panic (nil dereference, index out of range). *)

Inductive Result (A : Type) : Type :=
| Ok (a : A)
| Fatal (msg : string).

Arguments Ok {A} a.
Arguments Fatal {A} msg.

Definition Op (A : Type) : Type := State -> Result (A * State).

Definition ret {A : Type} (a : A) : Op A := fun s => Ok (a, s).

Definition bind {A B : Type} (m : Op A) (k : A -> Op B) : Op B :=
  fun s => match m s with
           | Ok (a, s') => k a s'
           | Fatal msg => Fatal msg
           end.

Definition gets {A : Type} (f : State -> A) : Op A := fun s => Ok (f s, s).

Definition modify (f : State -> State) : Op unit := fun s => Ok (tt, f s).

Definition panic {A : Type} (msg : string) : Op A := fun _ => Fatal msg.

Definition when (b : bool) (m : Op unit) : Op unit := if b then m else ret tt.

Definition lift_opt {A : Type} (msg : string) (o : option A) : Op A :=
  match o with Some a => ret a | None => panic msg end.

Notation "x <- m ;; k" := (bind m (fun x => k))
  (at level 99, m at next level, right associativity).
Notation "m ;;; k" := (bind m (fun _ => k))
  (at level 99, right associativity).

(** Modelled from the spec: the logging of package common.  An error
    reported while the graph is built terminates startup; a warning is
    logged and is not fatal. *)
Definition LogError {A : Type} (msg : string) : Op A := panic msg.

Definition LogWarning (msg : string) : Op unit :=
  modify (fun s => set_warnings (warnings s ++ [msg]) s).

Definition nil_dereference : string := "invalid memory address or nil pointer dereference".
Definition index_out_of_range : string := "index out of range".

(** *** Graph construction *)

(** Go's [int], two's complement on 64 bits. *)
Definition wrapInt (x : Z) : Z := (x + 2 ^ 63) mod 2 ^ 64 - 2 ^ 63.

(** A [*Flow] is a pointer, the index of the object in [flows]. *)
Abbreviation Flow := nat.

Definition generateRingName : Op Z :=
  n <- gets ringName ;;
  modify (set_ringName (wrapInt (n + 1))) ;;;
  ret n.

Definition low_CreateQueue (name : Z) (count : Z) : Op Queue :=
  rs <- gets rings ;;
  modify (set_rings (rs ++ [CreateQueue name count])) ;;;
  ret (length rs).

Definition low_CreateMempool : Op Mempool :=
  ps <- gets mempools ;;
  d <- gets dpdk ;;
  modify (set_mempools (ps ++ [poolBuffers d (length ps)])) ;;;
  ret (length ps).

(** [low.CreateQueue(generateRingName(), burstSize*sizeMultiplier)] *)
Definition newRing : Op Queue :=
  nm <- generateRingName ;;
  b <- gets burstSize ;;
  m <- gets sizeMultiplier ;;
  low_CreateQueue nm (wrap64 (b * m)).

(** [ffCount++], giving the new value. *)
Definition nextCount : Op Z :=
  n <- gets ffCount ;;
  modify (set_ffCount (wrapInt (n + 1))) ;;;
  ret (wrapInt (n + 1)).

Definition makeReceiver (port queue : Z) (out : Queue) : Op FlowFunction :=
  id <- nextCount ;;
  ret (NewUnclonableFlowFunction "receiver" id body_receive
         (receiveParameters out queue port)).

Definition makeGeneratorOne (out : Queue) (generateFunction : GenerateFunction)
  : Op FlowFunction :=
  pool <- low_CreateMempool ;;
  id <- nextCount ;;
  ret (NewUnclonableFlowFunction "generator" id body_generateOne
         (generateParameters out 0 (Some generateFunction) None pool)).

Definition makeGeneratorPerf (out : Queue) (generateFunction : option GenerateFunction)
  (vectorGenerateFunction : option VectorGenerateFunction) (targetSpeed : Z)
  : Op FlowFunction :=
  pool <- low_CreateMempool ;;
  id <- nextCount ;;
  ret (NewClonableFlowFunction "fast generator" id body_generatePerf
         (generateParameters out targetSpeed generateFunction vectorGenerateFunction pool)
         check_generate).

Definition makeSender (port queue : Z) (in_ : Queue) : Op FlowFunction :=
  id <- nextCount ;;
  ret (NewUnclonableFlowFunction "sender" id body_send (sendParameters in_ queue port)).

Definition makePartitioner (in_ outFirst outSecond : Queue) (N M : Z) : Op FlowFunction :=
  id <- nextCount ;;
  ret (NewUnclonableFlowFunction "partitioner" id body_partition
         (partitionParameters in_ outFirst outSecond N M)).

Definition makeSeparator (in_ outTrue outFalse : Queue)
  (separateFunction : option SeparateFunction)
  (vectorSeparateFunction : option VectorSeparateFunction) (name : string)
  : Op FlowFunction :=
  id <- nextCount ;;
  ret (NewClonableFlowFunction name id body_separate
         (separateParameters in_ outTrue outFalse separateFunction vectorSeparateFunction)
         check_separate).

Definition makeSplitter (in_ : Queue) (outs : list Queue)
  (splitFunction : option SplitFunction) (flowNumber : nat) : Op FlowFunction :=
  id <- nextCount ;;
  ret (NewClonableFlowFunction "splitter" id body_split
         (splitParameters in_ outs splitFunction flowNumber) check_split).

Definition makeHandler (in_ out : Queue) (handleFunction : option HandleFunction)
  (vectorHandleFunction : option VectorHandleFunction) (name : string)
  : Op FlowFunction :=
  id <- nextCount ;;
  ret (NewClonableFlowFunction name id body_handle
         (handleParameters in_ out handleFunction vectorHandleFunction) check_handle).

Definition makeWriter (filename : string) (in_ : Queue) : Op FlowFunction :=
  id <- nextCount ;;
  ret (NewUnclonableFlowFunction "writer" id body_write (writeParameters in_ filename)).

Definition makeReader (filename : string) (out : Queue) (repcount : Z) : Op FlowFunction :=
  pool <- low_CreateMempool ;;
  id <- nextCount ;;
  ret (NewUnclonableFlowFunction "reader" id body_read
         (readParameters out filename pool repcount)).

Definition appendUnClonable (ff : FlowFunction) : Op unit :=
  modify (fun s =>
    set_schedState (set_UnClonable (UnClonable (schedState s) ++ [ff]) (schedState s)) s).

Definition appendClonable (ff : FlowFunction) : Op unit :=
  modify (fun s =>
    set_schedState (set_Clonable (Clonable (schedState s) ++ [ff]) (schedState s)) s).

(** [new(Flow)] *)
Definition newFlow : Op Flow :=
  fs <- gets flows ;;
  modify (set_flows (fs ++ [None])) ;;;
  ret (length fs).

(** [f.current], read and written through the pointer. *)
Definition current (f : Flow) : Op (option Queue) :=
  fs <- gets flows ;;
  lift_opt nil_dereference (fs !! f).

Definition setCurrent (f : Flow) (q : option Queue) : Op unit :=
  fs <- gets flows ;;
  if decide (f < length fs)%nat then modify (set_flows (<[f:=q]> fs))
  else panic nil_dereference.

(** A ring pointer that is dereferenced later; it is never nil where the
    builder reads it, since [checkFlow] has ended the process otherwise. *)
Definition currentRing (f : Flow) : Op Queue :=
  c <- current f ;;
  lift_opt nil_dereference c.

Definition incOpenFlows : Op unit :=
  modify (fun s => set_openFlowsNumber (wrap32 (openFlowsNumber s + 1)) s).

Definition decOpenFlows : Op unit :=
  modify (fun s => set_openFlowsNumber (wrap32 (openFlowsNumber s - 1)) s).

Definition flow_closed : string := "One of the flows is used after it was closed!".
Definition flows_left_open : string := "Some flows are left open at the end of configuration!".
Definition partitioner_zero : string := "One of SetPartitioner function's arguments is zero.".

Definition checkFlow (f : Flow) : Op unit :=
  c <- current f ;;
  match c with
  | None => LogError flow_closed
  | Some _ => ret tt
  end.

(** [if x == from { x = to }] *)
Definition retarget (from to q : Queue) : Queue :=
  if decide (q = from) then to else q.

(** The loop of [merge] over the outputs of a splitter. *)
Fixpoint retargetOuts (from to : Queue) (steps j : nat) (outs : list Queue)
  : option (list Queue) :=
  match steps with
  | O => Some outs
  | S steps' =>
      match outs !! j with
      | None => None
      | Some q =>
          retargetOuts from to steps' (S j)
            (if decide (q = from) then <[j:=to]> outs else outs)
      end
  end.

(** One turn of the first loop of [merge], a type switch on the parameters
    of an unclonable flow function. *)
Definition mergeUnClonable (from to : Queue) (ff : FlowFunction) : FlowFunction :=
  match Parameters ff with
  | receiveParameters out queue port =>
      set_Parameters (receiveParameters (retarget from to out) queue port) ff
  | partitionParameters in_ outFirst outSecond N M =>
      set_Parameters
        (partitionParameters in_ (retarget from to outFirst)
           (retarget from to outSecond) N M) ff
  | generateParameters out speed g vg pool =>
      set_Parameters (generateParameters (retarget from to out) speed g vg pool) ff
  | _ => ff
  end.

(** One turn of the second loop, over the clonable flow functions. *)
Definition mergeClonable (from to : Queue) (ff : FlowFunction) : option FlowFunction :=
  match Parameters ff with
  | splitParameters in_ outs f flowNumber =>
      outs' ← retargetOuts from to flowNumber 0 outs;
      Some (set_Parameters (splitParameters in_ outs' f flowNumber) ff)
  | separateParameters in_ outTrue outFalse f vf =>
      Some (set_Parameters
              (separateParameters in_ (retarget from to outTrue)
                 (retarget from to outFalse) f vf) ff)
  | handleParameters in_ out f vf =>
      Some (set_Parameters (handleParameters in_ (retarget from to out) f vf) ff)
  | generateParameters out speed g vg pool =>
      Some (set_Parameters (generateParameters (retarget from to out) speed g vg pool) ff)
  | _ => Some ff
  end.

Definition merge (from to : Queue) : Op unit :=
  sc <- gets schedState ;;
  let unclonable := map (mergeUnClonable from to) (UnClonable sc) in
  clonable <- lift_opt index_out_of_range (mapM (mergeClonable from to) (Clonable sc)) ;;
  modify (set_schedState (set_Clonable clonable (set_UnClonable unclonable sc))).

Fixpoint forEach {A : Type} (f : A -> Op unit) (l : list A) : Op unit :=
  match l with
  | [] => ret tt
  | x :: l' => f x ;;; forEach f l'
  end.

Record Config : Type := mkConfig {
  CPUCoresNumber : Z;
  DisableScheduler : bool;
  PersistentClones : bool;
  StopOnDedicatedCore : bool;
  HWTXChecksum : bool;
  MbufNumber : Z;
  MbufCacheSize : Z;
  RingSize : Z;
  ScaleTime : Z;
  BurstSize : Z;
  CheckTime : Z;
  DebugTime : Z
}.

(** [x := d; if v != 0 { x = v }] *)
Definition orDefault (d v : Z) : Z := if v =? 0 then d else v.

(** [SystemInit], from the package variables as the program starts
    ([openFlowsNumber = 0], [ringName = 1], [ffCount = 0]).  The stop ring is
    the first ring created. *)
Definition SystemInit (d : Dpdk) (mem : Memory) (args : Config) : State :=
  let sizeMultiplier := orDefault 256 (RingSize args) in
  let schedTime := orDefault 1500 (ScaleTime args) in
  let burstSize := orDefault 32 (BurstSize args) in
  let maxPacketsToClone :=
    wrap32 (wrap64 (wrap64 (sizeMultiplier * burstSize) / 5 * 4)) in
  let createdPorts :=
    map (fun i : nat => mkPort [] [] inactivePort 0 0 (wrap8 (Z.of_nat i)))
        (seq 0 (Z.to_nat (GetPortsNumber d))) in
  let StopRing := CreateQueue 1 (wrap64 (burstSize * sizeMultiplier)) in
  mkState 0 2 0 createdPorts burstSize sizeMultiplier schedTime maxPacketsToClone
    (HWTXChecksum args) (mkScheduler [] [] 0%nat 0) d [StopRing] [] [] mem [] [].

Definition getPort (p : Z) : Op port :=
  ps <- gets createdPorts ;;
  lift_opt index_out_of_range (ps !! Z.to_nat p).

Definition setPort (p : Z) (v : port) : Op unit :=
  modify (fun s => set_createdPorts (<[Z.to_nat p:=v]> (createdPorts s)) s).

Definition SetWriter (IN : Flow) (filename : string) : Op unit :=
  checkFlow IN ;;;
  ring <- currentRing IN ;;
  write <- makeWriter filename ring ;;
  appendUnClonable write ;;;
  setCurrent IN None ;;;
  decOpenFlows.

Definition SetReader (filename : string) (repcount : Z) : Op Flow :=
  ring <- newRing ;;
  read <- makeReader filename ring repcount ;;
  appendUnClonable read ;;;
  OUT <- newFlow ;;
  setCurrent OUT (Some ring) ;;;
  incOpenFlows ;;;
  ret OUT.

Definition SetReceiver (port : Z) : Op Flow :=
  ps <- gets createdPorts ;;
  when (wrap8 (Z.of_nat (length ps)) <=? port)
    (LogError "Requested receive port exceeds number of ports which can be used by DPDK (bind to DPDK).") ;;;
  p <- getPort port ;;
  when (config p =? manualPort)
    (LogError "Requested receive port was previously configured as manual port. It can't be used as auto port.") ;;;
  setPort port (mkPort (rxQueues p ++ [true]) (txQueues p) autoPort
                  (rxQueuesNumber p) (txQueuesNumber p) (port_ p)) ;;;
  ring <- newRing ;;
  p1 <- getPort port ;;
  recv <- makeReceiver port (rxQueuesNumber p1) ring ;;
  appendUnClonable recv ;;;
  OUT <- newFlow ;;
  setCurrent OUT (Some ring) ;;;
  incOpenFlows ;;;
  p2 <- getPort port ;;
  setPort port (mkPort (rxQueues p2) (txQueues p2) (config p2)
                  (wrap16 (rxQueuesNumber p2 + 1)) (txQueuesNumber p2) (port_ p2)) ;;;
  ret OUT.

Definition generator_mismatch : string :=
  "Function argument of SetGenerator function doesn't match any applicable prototype".

Definition SetGenerator (generateFunction : UserFunction) (targetSpeed : Z) : Op Flow :=
  ring <- newRing ;;
  (if 0 <? targetSpeed then
     generate <- match generateFunction with
                 | FuncPacket f => makeGeneratorPerf ring (Some f) None targetSpeed
                 | FuncVector f => makeGeneratorPerf ring None (Some f) targetSpeed
                 | _ => LogError generator_mismatch
                 end ;;
     appendClonable generate
   else
     generate <- match generateFunction with
                 | FuncPacket f => makeGeneratorOne ring f
                 | _ => LogError generator_mismatch
                 end ;;
     appendUnClonable generate) ;;;
  OUT <- newFlow ;;
  setCurrent OUT (Some ring) ;;;
  incOpenFlows ;;;
  ret OUT.

Definition SetSender (IN : Flow) (port : Z) : Op unit :=
  checkFlow IN ;;;
  ps <- gets createdPorts ;;
  when (wrap8 (Z.of_nat (length ps)) <=? port)
    (LogError "Requested send port exceeds number of ports which can be used by DPDK (bind to DPDK).") ;;;
  p <- getPort port ;;
  when (config p =? manualPort)
    (LogError "Requested send port was previously configured as manual port. It can't be used like auto port.") ;;;
  setPort port (mkPort (rxQueues p) (txQueues p ++ [true]) autoPort
                  (rxQueuesNumber p) (txQueuesNumber p) (port_ p)) ;;;
  ring <- currentRing IN ;;
  p1 <- getPort port ;;
  send <- makeSender port (txQueuesNumber p1) ring ;;
  appendUnClonable send ;;;
  setCurrent IN None ;;;
  decOpenFlows ;;;
  p2 <- getPort port ;;
  setPort port (mkPort (rxQueues p2) (txQueues p2) (config p2)
                  (rxQueuesNumber p2) (wrap16 (txQueuesNumber p2 + 1)) (port_ p2)).

Definition SetPartitioner (IN : Flow) (N M : Z) : Op Flow :=
  checkFlow IN ;;;
  OUT <- newFlow ;;
  when ((N =? 0) || (M =? 0)) (LogWarning partitioner_zero) ;;;
  ringFirst <- newRing ;;
  ringSecond <- newRing ;;
  incOpenFlows ;;;
  ring <- currentRing IN ;;
  partition <- makePartitioner ring ringFirst ringSecond N M ;;
  appendUnClonable partition ;;;
  setCurrent IN (Some ringFirst) ;;;
  setCurrent OUT (Some ringSecond) ;;;
  ret OUT.

Definition SetSeparator (IN : Flow) (separateFunction : UserFunction) : Op Flow :=
  checkFlow IN ;;;
  OUT <- newFlow ;;
  ringTrue <- newRing ;;
  ringFalse <- newRing ;;
  incOpenFlows ;;;
  ring <- currentRing IN ;;
  separate <- match separateFunction with
              | FuncPacketBool f =>
                  makeSeparator ring ringTrue ringFalse (Some f) None "separator"
              | FuncVectorBool f =>
                  makeSeparator ring ringTrue ringFalse None (Some f) "vector separator"
              | _ => LogError "Function argument of SetSeparator function doesn't match any applicable prototype"
              end ;;
  appendClonable separate ;;;
  setCurrent IN (Some ringTrue) ;;;
  setCurrent OUT (Some ringFalse) ;;;
  ret OUT.

(** The loop of [SetSplitter] that opens the output flows. *)
Fixpoint splitterOutputs (n : nat) : Op (list Flow * list Queue) :=
  match n with
  | O => ret ([], [])
  | S n' =>
      f <- newFlow ;;
      incOpenFlows ;;;
      ring <- newRing ;;
      setCurrent f (Some ring) ;;;
      rest <- splitterOutputs n' ;;
      ret (f :: fst rest, ring :: snd rest)
  end.

Definition SetSplitter (IN : Flow) (splitFunction : option SplitFunction)
  (flowNumber : nat) : Op (list Flow) :=
  checkFlow IN ;;;
  outputs <- splitterOutputs flowNumber ;;
  ring <- currentRing IN ;;
  split <- makeSplitter ring (snd outputs) splitFunction flowNumber ;;
  appendClonable split ;;;
  setCurrent IN None ;;;
  decOpenFlows ;;;
  ret (fst outputs).

Definition SetStopper (IN : Flow) : Op unit :=
  checkFlow IN ;;;
  ring <- currentRing IN ;;
  stop <- gets (fun s => StopRing (schedState s)) ;;
  merge ring stop ;;;
  setCurrent IN None ;;;
  decOpenFlows.

Definition SetHandler (IN : Flow) (handleFunction : UserFunction) : Op unit :=
  checkFlow IN ;;;
  ring <- newRing ;;
  cur <- currentRing IN ;;
  stop <- gets (fun s => StopRing (schedState s)) ;;
  handle <- match handleFunction with
            | FuncPacket f => makeHandler cur ring (Some f) None "handler"
            | FuncVector f => makeHandler cur ring None (Some f) "vector handler"
            | FuncPacketBool f => makeSeparator cur ring stop (Some f) None "handler"
            | FuncVectorBool f => makeSeparator cur ring stop None (Some f) "vector handler"
            | FuncOther => LogError "Function argument of SetHandler function doesn't match any applicable prototype"
            end ;;
  appendClonable handle ;;;
  setCurrent IN (Some ring).

Definition SetMerger (InArray : list Flow) : Op Flow :=
  ring <- newRing ;;
  forEach (fun f =>
             checkFlow f ;;;
             cur <- currentRing f ;;
             merge cur ring ;;;
             setCurrent f None ;;;
             decOpenFlows) InArray ;;;
  OUT <- newFlow ;;
  setCurrent OUT (Some ring) ;;;
  incOpenFlows ;;;
  ret OUT.

Definition checkPort (p : port) : Op unit :=
  if config p =? inactivePort then ret tt
  else
    when ((rxQueuesNumber p =? 0) && (txQueuesNumber p =? 0))
      (LogError "Port has no send and receive queues. It is an error in DPDK.") ;;;
    forEach (fun used : bool =>
               when (negb used)
                 (LogError "Port doesn't use all receive queues, packets can be missed due to RSS!"))
            (rxQueues p) ;;;
    forEach (fun used : bool =>
               when (negb used)
                 (LogWarning "Port has unused send queue. Performance can be lower than it is expected!"))
            (txQueues p).

Definition checkSystem : Op unit :=
  n <- gets openFlowsNumber ;;
  when (negb (n =? 0)) (LogError flows_left_open) ;;;
  ps <- gets createdPorts ;;
  forEach checkPort ps.

(** *** Rings at run time *)

Definition getRing (q : Queue) : Op Ring :=
  rs <- gets rings ;;
  lift_opt nil_dereference (rs !! q).

Definition setRing (q : Queue) (r : Ring) : Op unit :=
  modify (fun s => set_rings (<[q:=r]> (rings s)) s).

Definition Queue_EnqueueBurst (q : Queue) (buffer : list Handle) (count : nat) : Op nat :=
  r <- getRing q ;;
  setRing q (fst (EnqueueBurst r buffer count)) ;;;
  ret (snd (EnqueueBurst r buffer count)).

Definition Queue_DequeueBurst (q : Queue) (buffer : list Handle) (count : nat)
  : Op (list Handle * nat) :=
  r <- getRing q ;;
  setRing q (fst (fst (DequeueBurst r buffer count))) ;;;
  ret (snd (fst (DequeueBurst r buffer count)), snd (DequeueBurst r buffer count)).

Definition Queue_GetQueueCount (q : Queue) : Op Z :=
  r <- getRing q ;;
  ret (GetQueueCount r).

Definition slice_out_of_range : string := "slice bounds out of range".

(** [data[lo:hi]] *)
Definition slice {A : Type} (data : list A) (lo hi : nat) : option (list A) :=
  if decide (lo ≤ hi ≤ length data)%nat then Some (take (hi - lo) (drop lo data))
  else None.

(** [bufs[i] = v] *)
Definition store {A : Type} (bufs : list A) (i : nat) (v : A) : option (list A) :=
  if decide (i < length bufs)%nat then Some (<[i:=v]> bufs) else None.

(** The unsigned difference [a - b] where it is used as an index or a
    count: when [a < b] it wraps to a value beyond any slice, and the access
    it is used for is out of range. *)
Definition usub (a b : nat) : option nat :=
  if decide (b ≤ a)%nat then Some (a - b)%nat else None.

(** Modelled from the spec: [low.DirectStop], the synchronous in-line free
    of the first [n] handles of [bufs]. *)
Definition DirectStop (n : nat) (bufs : list Handle) : Op unit :=
  modify (fun s => set_directStopped (directStopped s ++ take n bufs) s).

Definition addDropped (n : nat) : Op unit :=
  modify (fun s =>
    set_schedState
      (set_Dropped (wrap64 (Dropped (schedState s) + Z.of_nat n)) (schedState s)) s).

(** [safeEnqueue].  The ring reads [number] entries of [data] on the C side;
    a slice shorter than that is reported as a failure. *)
Definition safeEnqueue (place : Queue) (data : list Handle) (number : nat) : Op unit :=
  (if decide (number ≤ length data)%nat then ret tt else panic slice_out_of_range) ;;;
  done <- Queue_EnqueueBurst place data number ;;
  if decide (done < number)%nat then
    addDropped (number - done) ;;;
    stop <- gets (fun s => StopRing (schedState s)) ;;
    rest <- lift_opt slice_out_of_range (slice data done number) ;;
    done2 <- Queue_EnqueueBurst stop rest (number - done) ;;
    if decide (done2 < number - done)%nat then
      LogWarning "Normal fast stop is crowded. Use slow C stop instead." ;;;
      rest2 <- lift_opt slice_out_of_range (slice data (done + done2) number) ;;
      DirectStop (number - done - done2) rest2
    else ret tt
  else ret tt.

(** *** Should-clone predicates *)

Definition interface_conversion : string := "interface conversion: wrong dynamic type".

(** Modelled from the spec: [common.LogDebug] prints and changes nothing. *)
Definition LogDebug (count : Z) : Op unit := ret tt.

Definition generateCheck (parameters : StageParameters) (speedPKTS : Z) (debug : bool)
  : Op bool :=
  match parameters with
  | generateParameters _ targetSpeed _ _ _ =>
      if speedPKTS <? targetSpeed then ret true else ret false
  | _ => panic interface_conversion
  end.

Definition queueCheck (IN : Queue) (debug : bool) : Op bool :=
  (if debug then c <- Queue_GetQueueCount IN ;; LogDebug c else ret tt) ;;;
  c <- Queue_GetQueueCount IN ;;
  limit <- gets maxPacketsToClone ;;
  if limit <? c then ret true else ret false.

Definition separateCheck (parameters : StageParameters) (speedPKTS : Z) (debug : bool)
  : Op bool :=
  match parameters with
  | separateParameters IN _ _ _ _ => queueCheck IN debug
  | _ => panic interface_conversion
  end.

Definition splitCheck (parameters : StageParameters) (speedPKTS : Z) (debug : bool)
  : Op bool :=
  match parameters with
  | splitParameters IN _ _ _ => queueCheck IN debug
  | _ => panic interface_conversion
  end.

Definition handleCheck (parameters : StageParameters) (speedPKTS : Z) (debug : bool)
  : Op bool :=
  match parameters with
  | handleParameters IN _ _ _ => queueCheck IN debug
  | _ => panic interface_conversion
  end.

(** The scheduler calls the predicate a clonable flow function was
    registered with on the parameters of that flow function. *)
Definition callCheck (ff : FlowFunction) (speedPKTS : Z) (debug : bool) : Op bool :=
  match checkPrintFunction ff with
  | Some check_generate => generateCheck (Parameters ff) speedPKTS debug
  | Some check_separate => separateCheck (Parameters ff) speedPKTS debug
  | Some check_split => splitCheck (Parameters ff) speedPKTS debug
  | Some check_handle => handleCheck (Parameters ff) speedPKTS debug
  | None => panic nil_dereference
  end.

(** *** Partition *)

(** The variables of [partition] that live across the turns of its loop. *)
Record partitionVars : Type := mkPartitionVars {
  p_bufsIn : list Handle;
  p_bufsFirst : list Handle;
  p_bufsSecond : list Handle;
  p_countOfPackets : nat;
  currentPacketNumber : Z;   (* uint64 *)
  sw : bool
}.


(** The body of [for i := uint(0); i < n; i++]. *)
Definition partitionPacket (N M : Z) (i : nat) (v : partitionVars) : option partitionVars :=
  let number := wrap64 (currentPacketNumber v + 1) in
  x ← p_bufsIn v !! i;
  if sw v then
    first ← store (p_bufsFirst v) (p_countOfPackets v) x;
    if number =? N then
      Some (mkPartitionVars (p_bufsIn v) first (p_bufsSecond v)
              (S (p_countOfPackets v)) 0 false)
    else
      Some (mkPartitionVars (p_bufsIn v) first (p_bufsSecond v)
              (S (p_countOfPackets v)) number true)
  else
    j ← usub i (p_countOfPackets v);
    second ← store (p_bufsSecond v) j x;
    if number =? M then
      Some (mkPartitionVars (p_bufsIn v) (p_bufsFirst v) second
              (p_countOfPackets v) 0 true)
    else
      Some (mkPartitionVars (p_bufsIn v) (p_bufsFirst v) second
              (p_countOfPackets v) number false).

Fixpoint partitionLoop (N M : Z) (steps i : nat) (v : partitionVars)
  : option partitionVars :=
  match steps with
  | O => Some v
  | S steps' =>
      v' ← partitionPacket N M i v;
      partitionLoop N M steps' (S i) v'
  end.

(** From [countOfPackets = 0] to the end of the inner loop, for the [n]
    handles that [DequeueBurst] left at the head of [bufsIn]. *)
Definition partitionWork (N M : Z) (n : nat) (v : partitionVars) : option partitionVars :=
  partitionLoop N M n 0
    (mkPartitionVars (p_bufsIn v) (p_bufsFirst v) (p_bufsSecond v) 0%nat
       (currentPacketNumber v) (sw v)).

(** One turn of the outer loop of [partition]. *)
Definition partitionTurn (IN OUTFirst OUTSecond : Queue) (N M : Z) (v : partitionVars)
  : Op partitionVars :=
  burst <- gets burstSize ;;
  got <- Queue_DequeueBurst IN (p_bufsIn v) (Z.to_nat burst) ;;
  let v0 := mkPartitionVars (fst got) (p_bufsFirst v) (p_bufsSecond v)
              (p_countOfPackets v) (currentPacketNumber v) (sw v) in
  let n := snd got in
  if decide (n = 0)%nat then ret v0
  else
    v1 <- lift_opt index_out_of_range (partitionWork N M n v0) ;;
    when (negb (p_countOfPackets v1 =? 0)%nat)
      (safeEnqueue OUTFirst (p_bufsFirst v1) (p_countOfPackets v1)) ;;;
    (if decide (p_countOfPackets v1 = n) then ret tt
     else
       c <- lift_opt slice_out_of_range (usub n (p_countOfPackets v1)) ;;
       safeEnqueue OUTSecond (p_bufsSecond v1) c) ;;;
    ret v1.

(** What [DequeueBurst] leaves in the buffer when it moves [burst]. *)
Definition dequeued (burst buffer : list Handle) : list Handle :=
  burst ++ drop (length burst) buffer.



(** The machine of the specification: a side and a counter; every packet
    goes to the output of the side the machine is in, the counter goes up
    by one, and on reaching the bound of the side the machine changes side
    and the counter returns to zero. *)
Inductive Side : Type := FirstSide | SecondSide.






(** *** Replicas of clonable flow functions *)

(** The variables every replica loop declares, and the buffers of the
    flow function it runs. *)
Record replica (B : Type) : Type := mkReplica {
  pause : Z;           (* int *)
  currentSpeed : Z;    (* uint64 *)
  buffers : B
}.

Arguments mkReplica {B} pause currentSpeed buffers.
Arguments pause {B} r.
Arguments currentSpeed {B} r.
Arguments buffers {B} r.

(** What the [select] of a replica loop finds ready. *)
Inductive Event : Type :=
| StopperReceives (v : Z)   (* case pause = <-stopper *)
| TickFires                 (* case <-tick *)
| NothingReady.             (* default *)

(** What a turn of the loop does besides moving packets. *)
Inductive Effect : Type :=
| Sleeps (nanoseconds : Z)  (* time.Sleep(time.Duration(pause) * time.Nanosecond),
                               where time.Nanosecond is 1 *)
| Reports (speed : Z)       (* report <- currentSpeed *)
| ClosesStopper.            (* close(stopper) *)

Inductive Status : Type := Running | Returned.

(** One turn of [for { select { ... } }], the same text in [generatePerf],
    [separate], [split] and [handle]; [work] is the default case. *)
Definition replicaTurn {B : Type} (work : replica B -> Op (replica B * list Effect))
  (ev : Event) (r : replica B) : Op (Status * replica B * list Effect) :=
  match ev with
  | StopperReceives v =>
      let r' := mkReplica v (currentSpeed r) (buffers r) in
      if v =? -1 then ret (Returned, r', [ClosesStopper])
      else ret (Running, r', [])
  | TickFires =>
      ret (Running, mkReplica (pause r) 0 (buffers r), [Reports (currentSpeed r)])
  | NothingReady =>
      out <- work r ;;
      ret (Running, fst out, snd out)
  end.

(** [if n == 0 { if pause != 0 { time.Sleep(...) }; continue }] *)
Definition idle {B : Type} (r : replica B) : Op (replica B * list Effect) :=
  if pause r =? 0 then ret (r, []) else ret (r, [Sleeps (pause r)]).

Definition addSpeed {B : Type} (n : Z) (r : replica B) : replica B :=
  mkReplica (pause r) (wrap64 (currentSpeed r + n)) (buffers r).

(** [packet.ExtractPackets(packet, IN, n)] *)
Fixpoint ExtractPackets (size : Z) (packets : list Z) (IN : list Handle) (steps i : nat)
  : option (list Z) :=
  match steps with
  | O => Some packets
  | S steps' =>
      x ← IN !! i;
      packets' ← store packets i (Packet.ExtractPacket size x);
      ExtractPackets size packets' IN steps' (S i)
  end.

(** **** Separate *)

Record separateBuffers : Type := mkSeparateBuffers {
  s_bufsIn : list Handle;
  s_bufsTrue : list Handle;
  s_bufsFalse : list Handle;
  ttt : list bool;
  s_countOfPackets : nat;
  s_tempPackets : list Z
}.

Definition separateStart (burst : nat) : replica separateBuffers :=
  mkReplica 0 0
    (mkSeparateBuffers (replicate burst 0) (replicate burst 0) (replicate burst 0)
       (replicate burst false) 0%nat (replicate burst 0)).

(** The two branches on the answer for the packet at index [i]. *)
Definition separatePlace (answer : bool) (i : nat) (b : separateBuffers)
  : option separateBuffers :=
  x ← s_bufsIn b !! i;
  if answer then
    j ← usub i (s_countOfPackets b);
    bufsTrue ← store (s_bufsTrue b) j x;
    Some (mkSeparateBuffers (s_bufsIn b) bufsTrue (s_bufsFalse b) (ttt b)
            (s_countOfPackets b) (s_tempPackets b))
  else
    bufsFalse ← store (s_bufsFalse b) (s_countOfPackets b) x;
    Some (mkSeparateBuffers (s_bufsIn b) (s_bufsTrue b) bufsFalse (ttt b)
            (S (s_countOfPackets b)) (s_tempPackets b)).

(** [for i := uint(0); i < n-1; i++], with the address of the next packet
    taken before the user function sees the current one. *)
Fixpoint separateScalarLoop (f : SeparateFunction) (size : Z) (steps i : nat)
  (tempPacketAddr : Z) (b : separateBuffers) (mem : Memory)
  : option (Z * separateBuffers * Memory) :=
  match steps with
  | O => Some (tempPacketAddr, b, mem)
  | S steps' =>
      next ← s_bufsIn b !! S i;
      let answer := f tempPacketAddr mem in
      b' ← separatePlace (fst answer) i b;
      separateScalarLoop f size steps' (S i) (Packet.ExtractPacketAddr size next) b'
        (snd answer)
  end.

Definition separateScalar (f : SeparateFunction) (size : Z) (n : nat)
  (b : separateBuffers) (mem : Memory) : option (separateBuffers * Memory) :=
  first ← s_bufsIn b !! 0%nat;
  r ← separateScalarLoop f size (n - 1) 0 (Packet.ExtractPacketAddr size first) b mem;
  let answer := f (fst (fst r)) (snd r) in
  b' ← separatePlace (fst answer) (n - 1) (snd (fst r));
  Some (b', snd answer).

(** [for i := uint(0); i < n; i++ { if ttt[i] == false ... }] *)
Fixpoint separateVectorLoop (steps i : nat) (b : separateBuffers) : option separateBuffers :=
  match steps with
  | O => Some b
  | S steps' =>
      answer ← ttt b !! i;
      b' ← separatePlace answer i b;
      separateVectorLoop steps' (S i) b'
  end.

Definition separateVector (vf : VectorSeparateFunction) (size : Z) (n : nat)
  (b : separateBuffers) (mem : Memory) : option (separateBuffers * Memory) :=
  packets ← ExtractPackets size (s_tempPackets b) (s_bufsIn b) n 0;
  let answers := vf packets (ttt b) (Z.of_nat n) mem in
  b' ← separateVectorLoop n 0
         (mkSeparateBuffers (s_bufsIn b) (s_bufsTrue b) (s_bufsFalse b) (fst answers)
            (s_countOfPackets b) packets);
  Some (b', snd answers).

(** From [countOfPackets = 0] to the end of the two branches on [vector].
    A nil function value that is called is a nil dereference. *)
Definition separateWork (separateFunction : option SeparateFunction)
  (vectorSeparateFunction : option VectorSeparateFunction) (size : Z) (n : nat)
  (b : separateBuffers) (mem : Memory) : option (separateBuffers * Memory) :=
  let b0 := mkSeparateBuffers (s_bufsIn b) (s_bufsTrue b) (s_bufsFalse b) (ttt b) 0%nat
              (s_tempPackets b) in
  match vectorSeparateFunction with
  | None => f ← separateFunction; separateScalar f size n b0 mem
  | Some vf => separateVector vf size n b0 mem
  end.

(** The default case of the loop of [separate]. *)
Definition separateDefault (IN OUTTrue OUTFalse : Queue)
  (separateFunction : option SeparateFunction)
  (vectorSeparateFunction : option VectorSeparateFunction)
  (r : replica separateBuffers) : Op (replica separateBuffers * list Effect) :=
  burst <- gets burstSize ;;
  got <- Queue_DequeueBurst IN (s_bufsIn (buffers r)) (Z.to_nat burst) ;;
  let b := buffers r in
  let b0 := mkSeparateBuffers (fst got) (s_bufsTrue b) (s_bufsFalse b) (ttt b)
              (s_countOfPackets b) (s_tempPackets b) in
  let n := snd got in
  if decide (n = 0)%nat then idle (mkReplica (pause r) (currentSpeed r) b0)
  else
    size <- gets (fun s => mbufStructSize (dpdk s)) ;;
    mem <- gets memory ;;
    done <- lift_opt index_out_of_range
              (separateWork separateFunction vectorSeparateFunction size n b0 mem) ;;
    modify (set_memory (snd done)) ;;;
    let b1 := fst done in
    when (negb (s_countOfPackets b1 =? 0)%nat)
      (safeEnqueue OUTFalse (s_bufsFalse b1) (s_countOfPackets b1)) ;;;
    (if decide (s_countOfPackets b1 = n) then ret tt
     else
       c <- lift_opt slice_out_of_range (usub n (s_countOfPackets b1)) ;;
       safeEnqueue OUTTrue (s_bufsTrue b1) c) ;;;
    ret (addSpeed (Z.of_nat n) (mkReplica (pause r) (currentSpeed r) b1), []).

Definition separate (parameters : StageParameters) (ev : Event)
  (r : replica separateBuffers) : Op (Status * replica separateBuffers * list Effect) :=
  match parameters with
  | separateParameters IN OUTTrue OUTFalse f vf =>
      replicaTurn (separateDefault IN OUTTrue OUTFalse f vf) ev r
  | _ => panic interface_conversion
  end.

(** **** Handle *)

Record handleBuffers : Type := mkHandleBuffers {
  h_bufs : list Handle;
  h_tempPackets : list Z
}.

Definition handleStart (burst : nat) : replica handleBuffers :=
  mkReplica 0 0 (mkHandleBuffers (replicate burst 0) (replicate burst 0)).

Fixpoint handleScalarLoop (f : HandleFunction) (size : Z) (steps i : nat)
  (tempPacketAddr : Z) (bufs : list Handle) (mem : Memory) : option (Z * Memory) :=
  match steps with
  | O => Some (tempPacketAddr, mem)
  | S steps' =>
      next ← bufs !! S i;
      handleScalarLoop f size steps' (S i) (Packet.ExtractPacketAddr size next) bufs
        (f tempPacketAddr mem)
  end.

Definition handleWork (handleFunction : option HandleFunction)
  (vectorHandleFunction : option VectorHandleFunction) (size : Z) (n : nat)
  (b : handleBuffers) (mem : Memory) : option (handleBuffers * Memory) :=
  match vectorHandleFunction with
  | None =>
      f ← handleFunction;
      first ← h_bufs b !! 0%nat;
      r ← handleScalarLoop f size (n - 1) 0 (Packet.ExtractPacketAddr size first)
            (h_bufs b) mem;
      Some (b, f (fst r) (snd r))
  | Some vf =>
      packets ← ExtractPackets size (h_tempPackets b) (h_bufs b) n 0;
      Some (mkHandleBuffers (h_bufs b) packets, vf packets (Z.of_nat n) mem)
  end.

Definition handleDefault (IN OUT : Queue) (handleFunction : option HandleFunction)
  (vectorHandleFunction : option VectorHandleFunction) (r : replica handleBuffers)
  : Op (replica handleBuffers * list Effect) :=
  burst <- gets burstSize ;;
  got <- Queue_DequeueBurst IN (h_bufs (buffers r)) (Z.to_nat burst) ;;
  let b0 := mkHandleBuffers (fst got) (h_tempPackets (buffers r)) in
  let n := snd got in
  if decide (n = 0)%nat then idle (mkReplica (pause r) (currentSpeed r) b0)
  else
    size <- gets (fun s => mbufStructSize (dpdk s)) ;;
    mem <- gets memory ;;
    done <- lift_opt index_out_of_range
              (handleWork handleFunction vectorHandleFunction size n b0 mem) ;;
    modify (set_memory (snd done)) ;;;
    safeEnqueue OUT (h_bufs (fst done)) n ;;;
    ret (addSpeed (Z.of_nat n) (mkReplica (pause r) (currentSpeed r) (fst done)), []).

Definition handle (parameters : StageParameters) (ev : Event)
  (r : replica handleBuffers) : Op (Status * replica handleBuffers * list Effect) :=
  match parameters with
  | handleParameters IN OUT f vf => replicaTurn (handleDefault IN OUT f vf) ev r
  | _ => panic interface_conversion
  end.

(** **** Split *)

Record splitBuffers : Type := mkSplitBuffers {
  InputMbufs : list Handle;
  OutputMbufs : list (list Handle);
  sp_countOfPackets : list nat
}.

Definition splitStart (flowNumber burst : nat) : replica splitBuffers :=
  mkReplica 0 0
    (mkSplitBuffers (replicate burst 0) (replicate flowNumber (replicate burst 0))
       (replicate flowNumber 0%nat)).

(** [OutputMbufs[index][countOfPackets[index]] = InputMbufs[i];
    countOfPackets[index]++] *)
Definition splitPlace (index : Z) (i : nat) (b : splitBuffers) : option splitBuffers :=
  x ← InputMbufs b !! i;
  row ← OutputMbufs b !! Z.to_nat index;
  c ← sp_countOfPackets b !! Z.to_nat index;
  row' ← store row c x;
  Some (mkSplitBuffers (InputMbufs b) (<[Z.to_nat index:=row']> (OutputMbufs b))
          (<[Z.to_nat index:=S c]> (sp_countOfPackets b))).

Fixpoint splitLoop (f : SplitFunction) (size : Z) (steps i : nat) (tempPacketAddr : Z)
  (b : splitBuffers) (mem : Memory) : option (Z * splitBuffers * Memory) :=
  match steps with
  | O => Some (tempPacketAddr, b, mem)
  | S steps' =>
      next ← InputMbufs b !! S i;
      let answer := f tempPacketAddr mem in
      b' ← splitPlace (fst answer) i b;
      splitLoop f size steps' (S i) (Packet.ExtractPacketAddr size next) b' (snd answer)
  end.

Definition splitWork (splitFunction : option SplitFunction) (size : Z) (n : nat)
  (b : splitBuffers) (mem : Memory) : option (splitBuffers * Memory) :=
  f ← splitFunction;
  first ← InputMbufs b !! 0%nat;
  r ← splitLoop f size (n - 1) 0 (Packet.ExtractPacketAddr size first) b mem;
  let answer := f (fst (fst r)) (snd r) in
  b' ← splitPlace (fst answer) (n - 1) (snd (fst r));
  Some (b', snd answer).

(** [for index := uint(0); index < flowNumber; index++], the enqueues. *)
Fixpoint splitFlush (OUT : list Queue) (steps index : nat) (r : replica splitBuffers)
  : Op (replica splitBuffers) :=
  match steps with
  | O => ret r
  | S steps' =>
      c <- lift_opt index_out_of_range (sp_countOfPackets (buffers r) !! index) ;;
      if decide (c = 0)%nat then splitFlush OUT steps' (S index) r
      else
        q <- lift_opt index_out_of_range (OUT !! index) ;;
        row <- lift_opt index_out_of_range (OutputMbufs (buffers r) !! index) ;;
        safeEnqueue q row c ;;;
        splitFlush OUT steps' (S index)
          (addSpeed (Z.of_nat c)
             (mkReplica (pause r) (currentSpeed r)
                (mkSplitBuffers (InputMbufs (buffers r)) (OutputMbufs (buffers r))
                   (<[index:=0%nat]> (sp_countOfPackets (buffers r))))))
  end.

Definition splitDefault (IN : Queue) (OUT : list Queue)
  (splitFunction : option SplitFunction) (flowNumber : nat) (r : replica splitBuffers)
  : Op (replica splitBuffers * list Effect) :=
  burst <- gets burstSize ;;
  got <- Queue_DequeueBurst IN (InputMbufs (buffers r)) (Z.to_nat burst) ;;
  let b0 := mkSplitBuffers (fst got) (OutputMbufs (buffers r))
              (sp_countOfPackets (buffers r)) in
  let n := snd got in
  if decide (n = 0)%nat then idle (mkReplica (pause r) (currentSpeed r) b0)
  else
    size <- gets (fun s => mbufStructSize (dpdk s)) ;;
    mem <- gets memory ;;
    done <- lift_opt index_out_of_range (splitWork splitFunction size n b0 mem) ;;
    modify (set_memory (snd done)) ;;;
    r' <- splitFlush OUT flowNumber 0 (mkReplica (pause r) (currentSpeed r) (fst done)) ;;
    ret (r', []).

Definition split (parameters : StageParameters) (ev : Event)
  (r : replica splitBuffers) : Op (Status * replica splitBuffers * list Effect) :=
  match parameters with
  | splitParameters IN OUT f flowNumber =>
      replicaTurn (splitDefault IN OUT f flowNumber) ev r
  | _ => panic interface_conversion
  end.

(** **** Generate, the rate-targeted generator *)

Record generateBuffers : Type := mkGenerateBuffers {
  g_bufs : list Handle;
  g_tempPackets : list Z
}.

Definition generateStart (burst : nat) : replica generateBuffers :=
  mkReplica 0 0 (mkGenerateBuffers (replicate burst 0) (replicate burst 0)).






End Flow.

(** ** Building a graph by a sequence of calls *)

Module Graph.

Import Low Flow.

(** A call of the graph-building interface.  A [*Flow] a call returns is
    the next free index of [flows], so later calls can name it. *)
Inductive Call : Type :=
| CallSetWriter (IN : Flow) (filename : string)
| CallSetReader (filename : string) (repcount : Z)
| CallSetReceiver (port : Z)
| CallSetGenerator (generateFunction : UserFunction) (targetSpeed : Z)
| CallSetSender (IN : Flow) (port : Z)
| CallSetPartitioner (IN : Flow) (N M : Z)
| CallSetSeparator (IN : Flow) (separateFunction : UserFunction)
| CallSetSplitter (IN : Flow) (splitFunction : option SplitFunction) (flowNumber : nat)
| CallSetStopper (IN : Flow)
| CallSetHandler (IN : Flow) (handleFunction : UserFunction)
| CallSetMerger (InArray : list Flow).

Definition call (c : Call) : Op unit :=
  match c with
  | CallSetWriter IN filename => SetWriter IN filename
  | CallSetReader filename repcount => SetReader filename repcount ;;; ret tt
  | CallSetReceiver port => SetReceiver port ;;; ret tt
  | CallSetGenerator f speed => SetGenerator f speed ;;; ret tt
  | CallSetSender IN port => SetSender IN port
  | CallSetPartitioner IN N M => SetPartitioner IN N M ;;; ret tt
  | CallSetSeparator IN f => SetSeparator IN f ;;; ret tt
  | CallSetSplitter IN f flowNumber => SetSplitter IN f flowNumber ;;; ret tt
  | CallSetStopper IN => SetStopper IN
  | CallSetHandler IN f => SetHandler IN f
  | CallSetMerger InArray => SetMerger InArray ;;; ret tt
  end.

Definition build (calls : list Call) : Op unit := forEach call calls.

(** The threshold as the specification words it: 80% of the ring capacity,
    the product first and the division last. *)
Definition specMaxOutstanding (burst_size ring_size_multiplier : Z) : Z :=
  burst_size * ring_size_multiplier * 4 / 5.

(** A machine with two ports, a 128-byte mbuf header and pools of eight
    buffers; zeroed memory; and the configuration that leaves every
    option at its default. *)
Definition twoPorts : Dpdk :=
  mkDpdk 2 128 (fun k => map (fun i => 4096 * (Z.of_nat k * 8 + i)) [1; 2; 3; 4; 5; 6; 7; 8]).

Definition zeroMemory : Memory := fun _ => 0.

Definition defaultConfig : Config :=
  mkConfig 0 false false false false 0 0 0 0 0 0 0.

Definition started : State := SystemInit twoPorts zeroMemory defaultConfig.

(** A ring with [more] appended to what it holds. *)
Definition pushed (more : list Handle) (r : Ring) : Ring :=
  mkRing (name r) (capacity r) (items r ++ more).

(** A state at run time in which the stop ring (ring 0) has one free slot
    and ring 1 has one free slot. *)
Definition crowded : State :=
  set_rings [mkRing 1 1 []; mkRing 2 2 [7]] started.

(** *** Reasoning about operations *)

(** [wp m Q s]: when [m] returns from [s], its result and the state it
    leaves satisfy [Q]. *)
Definition wp {A : Type} (m : Op A) (Q : A -> State -> Prop) (s : State) : Prop :=
  match m s with
  | Ok (a, s') => Q a s'
  | Fatal _ => True
  end.


(** The number of [Flow] objects whose producer side is open. *)
Definition weight (c : option nat) : nat := if c is Some _ then 1%nat else 0%nat.

Definition countOpen (fs : list (option nat)) : nat :=
  length (filter (fun c : option nat => is_Some c) fs).

(** What the builder keeps true of a port, of a clonable flow function and
    of the state as a whole. *)
Definition portOk (p : port) : Prop :=
  rxQueuesNumber p = wrap16 (Z.of_nat (length (rxQueues p))) /\
  txQueuesNumber p = wrap16 (Z.of_nat (length (txQueues p))) /\
  Forall (fun used => used = true) (rxQueues p) /\
  (config p = inactivePort \/
   config p = autoPort /\ (0 < length (rxQueues p) + length (txQueues p))%nat).

Definition clonableOk (ff : FlowFunction) : Prop :=
  match checkPrintFunction ff, Parameters ff with
  | Some check_generate, generateParameters _ _ _ _ _ => True
  | Some check_separate, separateParameters _ _ _ _ _ => True
  | Some check_split, splitParameters _ outs _ flowNumber => flowNumber = length outs
  | Some check_handle, handleParameters _ _ _ _ => True
  | _, _ => False
  end.

Record consistent (s : State) : Prop := mkConsistent {
  counted : openFlowsNumber s = wrap32 (Z.of_nat (countOpen (flows s)));
  ports_ok : Forall portOk (createdPorts s);
  clonable_ok : Forall clonableOk (Clonable (schedState s))
}.


(** The input ring of the flow functions that have one and can be cloned. *)
Definition inputRing (par : StageParameters) : option Queue :=
  match par with
  | separateParameters IN _ _ _ _ | splitParameters IN _ _ _
  | handleParameters IN _ _ _ => Some IN
  | _ => None
  end.

(** The condition of the specification for wanting one more replica. *)
Definition shouldClone (par : StageParameters) (observed : Z) (s : State) : Prop :=
  match par with
  | generateParameters _ targetSpeed _ _ _ => observed < targetSpeed
  | separateParameters IN _ _ _ _ | splitParameters IN _ _ _
  | handleParameters IN _ _ _ =>
      exists r, rings s !! IN = Some r /\ maxPacketsToClone s < GetQueueCount r
  | _ => False
  end.

(** The rings a flow function writes to. *)
Definition outputs (par : StageParameters) : list Queue :=
  match par with
  | receiveParameters out _ _ => [out]
  | generateParameters out _ _ _ _ => [out]
  | partitionParameters _ outFirst outSecond _ _ => [outFirst; outSecond]
  | separateParameters _ outTrue outFalse _ _ => [outTrue; outFalse]
  | splitParameters _ outs _ flowNumber => take flowNumber outs
  | handleParameters _ out _ _ => [out]
  | readParameters out _ _ _ => [out]
  | sendParameters _ _ _ | writeParameters _ _ => []
  end.

(** *** Sample graphs *)

Definition untouched : Z -> Memory -> Memory := fun _ mem => mem.

Definition keepAll : SeparateFunction := fun _ mem => (true, mem).

(** A generator at a target rate, a handler, a separator and two stops. *)
Definition smallGraph : list Call :=
  [CallSetGenerator (FuncPacket untouched) 10;
   CallSetHandler 0%nat (FuncPacket untouched);
   CallSetSeparator 0%nat (FuncPacketBool keepAll);
   CallSetStopper 0%nat;
   CallSetStopper 1%nat].

Definition stateAfter (calls : list Call) (s : State) : State :=
  match build calls s with
  | Ok (_, s') => s'
  | Fatal _ => s
  end.

Definition built : State := stateAfter smallGraph started.

(** A generator followed by a partitioner whose first constant is zero,
    and the two stops that close the graph. *)
Definition zeroPartitioner : list Call :=
  [CallSetGenerator (FuncPacket untouched) 0; CallSetPartitioner 0%nat 0 5].

Definition closeBoth : list Call := [CallSetStopper 0%nat; CallSetStopper 1%nat].

(** A reader whose flow is merged. *)
Definition readerGraph : list Call :=
  [CallSetReader "in.pcap" 1; CallSetMerger [0%nat]].

(** *** The stages against the specification *)


Definition bound (N M : Z) (side : Side) : Z :=
  match side with FirstSide => N | SecondSide => M end.

(** The packets of [xs] whose answer is [want], in their order. *)
Fixpoint chosen (want : bool) (xs : list Z) (answers : list bool) : list Z :=
  match xs, answers with
  | x :: xs', a :: answers' =>
      if Bool.eqb a want then x :: chosen want xs' answers' else chosen want xs' answers'
  | _, _ => []
  end.

(** The answers of the scalar function, called on the packets in order. *)
Fixpoint scalarAnswers (f : SeparateFunction) (size : Z) (xs : list Z) (mem : Memory)
  : list bool * Memory :=
  match xs with
  | [] => ([], mem)
  | x :: xs' =>
      let a := f (Packet.ExtractPacketAddr size x) mem in
      let r := scalarAnswers f size xs' (snd a) in
      (fst a :: fst r, snd r)
  end.

(** The packet addresses the vector function is handed. *)
Definition extracted (size : Z) (burst : list Z) (tempPackets : list Z) : list Z :=
  map (Packet.ExtractPacket size) burst ++ drop (length burst) tempPackets.

(** The answer for each packet of a burst, and the memory afterwards. *)
Definition separateAnswers (sf : option SeparateFunction)
  (vsf : option VectorSeparateFunction) (size : Z) (burst : list Z)
  (b : separateBuffers) (mem : Memory) : list bool * Memory :=
  match vsf, sf with
  | Some vf, _ =>
      let r := vf (extracted size burst (s_tempPackets b)) (ttt b)
                 (Z.of_nat (length burst)) mem in
      (take (length burst) (fst r), snd r)
  | None, Some f => scalarAnswers f size burst mem
  | None, None => ([], mem)
  end.

(** Placing the packets from index [i] on, one answer after the other. *)
Fixpoint placeAll (answers : list bool) (i : nat) (b : separateBuffers)
  : option separateBuffers :=
  match answers with
  | [] => Some b
  | a :: answers' => b' ← separatePlace a i b; placeAll answers' (S i) b'
  end.

(** A separate function that keeps the packets at even addresses. *)
Definition evenAddress : SeparateFunction := fun p mem => (Z.even p, mem).







End Graph.

(** ** Package packet: checksums *)

Module Checksum.

Import Packet.

(** Memory as the unsafe pointers of package packet see it: a byte at every
    address.  A [uintptr] sum wraps at 64 bits; the loads of more than a
    byte are those of a little-endian machine, the x86-64 the package is
    written for (its headers hold network-order fields that the code turns
    with [SwapBytesUint16]). *)
Definition Bytes : Type := Z -> Z.

Definition load8 (mem : Bytes) (a : Z) : Z := wrap8 (mem (wrap64 a)).

Definition load16 (mem : Bytes) (a : Z) : Z :=
  Z.lor (load8 mem a) (Z.shiftl (load8 mem (a + 1)) 8).

Definition load32 (mem : Bytes) (a : Z) : Z :=
  Z.lor (load16 mem a) (Z.shiftl (load16 mem (a + 2)) 16).

Definition store8 (mem : Bytes) (a v : Z) : Bytes :=
  fun x => if x =? wrap64 a then wrap8 v else mem x.

Definition store16 (mem : Bytes) (a v : Z) : Bytes :=
  store8 (store8 mem a v) (a + 1) (Z.shiftr v 8).

(** [a + b] on [uint32]. *)
Definition add32 (a b : Z) : Z := wrap32 (a + b).

(** [for i := range slice { sum += uint32(SwapBytesUint16(slice[i])) }] *)
Fixpoint sumWords (mem : Bytes) (uptr : Z) (words : nat) (i : Z) (sum : Z) : Z :=
  match words with
  | O => sum
  | S words' =>
      sumWords mem uptr words' (i + 1)
        (add32 sum (SwapBytesUint16 (load16 mem (uptr + 2 * i))))
  end.

(** [calculateDataChecksum(ptr, length, offset)].  [length/2] is Go's
    division, which truncates towards zero; slicing the array of [1 << 30]
    words panics when the bound is negative or beyond the array. *)
Definition calculateDataChecksum (mem : Bytes) (ptr length offset : Z) : option Z :=
  let uptr := wrap64 (ptr + offset) in
  let half := Z.quot length 2 in
  if decide (0 <= half <= 2 ^ 30) then
    let sum := sumWords mem uptr (Z.to_nat half) 0 0 in
    if Z.land length 1 =? 0 then Some sum
    else Some (add32 sum (wrap32 (Z.shiftl (load8 mem (uptr + wrap64 (length - 1))) 8)))
  else None.

(** [for sum > 0xffff { sum = (sum >> 16) + (sum & 0xffff) }], the turns of
    the loop counted by [fuel]; [None] when the fuel does not reach the end
    of the loop. *)
Fixpoint reduceLoop (fuel : nat) (sum : Z) : option Z :=
  if 0xffff <? sum then
    match fuel with
    | O => None
    | S fuel' => reduceLoop fuel' (add32 (Z.shiftr sum 16) (Z.land sum 0xffff))
    end
  else Some (wrap16 sum).

Definition reduceChecksum (sum : Z) : option Z := reduceLoop 32 sum.

(** Modelled from the spec: the protocol constants of package common, whose
    source is not part of the files at hand, with the values the protocols
    fix. *)
Definition IPV4Number : Z := 0x0800.
Definition IPV6Number : Z := 0x86dd.
Definition TCPNumber : Z := 0x06.
Definition UDPNumber : Z := 0x11.
Definition ICMPNumber : Z := 0x01.
Definition EtherLen : Z := 14.
Definition IPv4MinLen : Z := 20.
Definition IPv6Len : Z := 40.
Definition TCPMinLen : Z := 20.
Definition UDPLen : Z := 8.
Definition ICMPLen : Z := 8.

(** The [Packet] structure: pointers into the mbuf. *)
Record Packet : Type := mkPacket {
  L3 : Z;
  L4 : Z;
  Data : Z;
  Ether : Z;
  CMbuf : Z
}.

(** The fields of [EtherHdr] and [IPv4Hdr] read through a pointer, at the
    offsets of the Go (and C) layout of the structures. *)
Definition EtherType (mem : Bytes) (hdr : Z) : Z := load16 mem (hdr + 12).

Definition VersionIhl (mem : Bytes) (hdr : Z) : Z := load8 mem hdr.
Definition TypeOfService (mem : Bytes) (hdr : Z) : Z := load8 mem (hdr + 1).
Definition TotalLength (mem : Bytes) (hdr : Z) : Z := load16 mem (hdr + 2).
Definition PacketID (mem : Bytes) (hdr : Z) : Z := load16 mem (hdr + 4).
Definition FragmentOffset (mem : Bytes) (hdr : Z) : Z := load16 mem (hdr + 6).
Definition TimeToLive (mem : Bytes) (hdr : Z) : Z := load8 mem (hdr + 8).
Definition NextProtoID (mem : Bytes) (hdr : Z) : Z := load8 mem (hdr + 9).
Definition HdrChecksum (mem : Bytes) (hdr : Z) : Z := load16 mem (hdr + 10).
Definition SrcAddr (mem : Bytes) (hdr : Z) : Z := load32 mem (hdr + 12).
Definition DstAddr (mem : Bytes) (hdr : Z) : Z := load32 mem (hdr + 16).

(** [GetIPv4]: the L3 pointer when the frame type is IPv4, nil otherwise. *)
Definition GetIPv4 (mem : Bytes) (p : Packet) : option Z :=
  if EtherType mem (Ether p) =? SwapBytesUint16 IPV4Number then Some (L3 p) else None.

(** [calculateIPv4AddrChecksum] *)
Definition calculateIPv4AddrChecksum (mem : Bytes) (hdr : Z) : Z :=
  add32
    (add32
       (add32 (SwapBytesUint16 (wrap16 (Z.shiftr (SrcAddr mem hdr) 16)))
              (SwapBytesUint16 (wrap16 (SrcAddr mem hdr))))
       (SwapBytesUint16 (wrap16 (Z.shiftr (DstAddr mem hdr) 16))))
    (SwapBytesUint16 (wrap16 (DstAddr mem hdr))).

(** The [sum] of [CalculateIPv4Checksum] before it is reduced. *)
Definition ipv4HeaderSum (mem : Bytes) (hdr : Z) : Z :=
  add32
    (add32
       (add32
          (add32
             (add32
                (add32
                   (add32
                      (add32
                         (add32
                            (add32 (wrap32 (Z.shiftl (VersionIhl mem hdr) 8))
                                   (TypeOfService mem hdr))
                            (SwapBytesUint16 (TotalLength mem hdr)))
                         (SwapBytesUint16 (PacketID mem hdr)))
                      (SwapBytesUint16 (FragmentOffset mem hdr)))
                   (wrap32 (Z.shiftl (TimeToLive mem hdr) 8)))
                (NextProtoID mem hdr))
             (SwapBytesUint16 (wrap16 (Z.shiftr (SrcAddr mem hdr) 16))))
          (SwapBytesUint16 (wrap16 (SrcAddr mem hdr))))
       (SwapBytesUint16 (wrap16 (Z.shiftr (DstAddr mem hdr) 16))))
    (SwapBytesUint16 (wrap16 (DstAddr mem hdr))).

(** [^x] on [uint16]. *)
Definition not16 (x : Z) : Z := Z.lxor x 0xffff.

(** [CalculateIPv4Checksum]; a nil header is dereferenced when the frame
    is not IPv4. *)
Definition CalculateIPv4Checksum (mem : Bytes) (p : Packet) : option Z :=
  hdr ← GetIPv4 mem p;
  r ← reduceChecksum (ipv4HeaderSum mem hdr);
  Some (not16 r).

(** [CalculatePseudoHdrIPv4TCPCksum]; the subtraction is on [uint16]. *)
Definition CalculatePseudoHdrIPv4TCPCksum (mem : Bytes) (hdr : Z) : option Z :=
  let dataLength := wrap16 (SwapBytesUint16 (TotalLength mem hdr) - IPv4MinLen) in
  reduceChecksum
    (add32 (add32 (calculateIPv4AddrChecksum mem hdr) (NextProtoID mem hdr)) dataLength).

(** The 16-bit words, high byte first, of a sequence of bytes; a last odd
    byte is the high byte of a word whose low byte is zero. *)
Fixpoint beWords (bytes : list Z) : list Z :=
  match bytes with
  | hi :: lo :: rest => (hi * 256 + lo) :: beWords rest
  | [hi] => [hi * 256]
  | [] => []
  end.

(** The [n] bytes of memory from address [a]. *)
Definition region (mem : Bytes) (a : Z) (n : nat) : list Z :=
  map (fun i : nat => load8 mem (a + Z.of_nat i)) (seq 0 n).

Definition total (l : list Z) : Z := fold_right Z.add 0 l.

(** The value a 32-bit sum folds to: zero for zero, and otherwise the
    number of [1 .. 0xffff] congruent to it modulo [0xffff]. *)
Definition folded (sum : Z) : Z :=
  if sum =? 0 then 0 else (sum - 1) mod 0xffff + 1.

(** [IPv4(a, b, c, d)] *)
Definition IPv4 (a b c d : Z) : Z :=
  Z.lor (Z.lor (Z.lor (wrap32 (Z.shiftl d 24)) (wrap32 (Z.shiftl c 16)))
               (wrap32 (Z.shiftl b 8))) a.

(** [byte(s >> k)], the conversions of [IPv4Hdr.String]. *)
Definition byteOf (s k : Z) : Z := wrap8 (Z.shiftr s k).

End Checksum.

(** ** Package packet: adding and removing bytes *)

Module Capsule.

Import Packet Checksum.

Definition set_Ether (v : Z) (p : Packet) : Packet :=
  mkPacket (L3 p) (L4 p) (Data p) v (CMbuf p).

(** [Start]: the address of the first byte of the packet. *)
Definition Start (p : Packet) : Z := Ether p.

(** [for i := uint(0); i < n; i++ { *(base + i) = *(base + (i + length)) }],
    from [i] on for [steps] turns. *)
Fixpoint copyUp (mem : Bytes) (base length : Z) (steps : nat) (i : Z) : Bytes :=
  match steps with
  | O => mem
  | S steps' =>
      copyUp (store8 mem (base + i) (load8 mem (base + wrap64 (i + length))))
        base length steps' (wrap64 (i + 1))
  end.

(** [for i := int(start - 1); i >= 0; i-- { *(base + uintptr(i + int(length))) = *(base + uintptr(i)) }],
    from [i] down for [steps] turns. *)
Fixpoint copyDown (mem : Bytes) (base length : Z) (steps : nat) (i : Z) : Bytes :=
  match steps with
  | O => mem
  | S steps' =>
      copyDown (store8 mem (base + wrap64 (Flow.wrapInt (i + Flow.wrapInt length)))
                  (load8 mem (base + wrap64 i)))
        base length steps' (i - 1)
  end.

(** Modelled from the spec: the calls into package low ([PrependMbuf],
    [AppendMbuf], [AdjMbuf], [TrimMbuf], [GetDataLenMbuf]), whose source is
    not part of the files at hand.  They move the data offset and the
    length kept in the mbuf header and leave the bytes of the packet alone;
    what they return is an argument of the functions below: [done] for the
    success of the call, [packetLength] for the length read back. *)

(** [EncapsulateHead(start, length)] *)
Definition EncapsulateHead (done : bool) (mem : Bytes) (p : Packet) (start length : Z)
  : bool * Packet * Bytes :=
  if done then
    let p' := set_Ether (wrap64 (Ether p - length)) p in
    (true, p', copyUp mem (Start p') length (Z.to_nat start) 0)
  else (false, p, mem).

(** [DecapsulateHead(start, length)]; the loop counts an [int] down from
    [int(start - 1)] to zero, and [Ether] moves after the loop. *)
Definition DecapsulateHead (done : bool) (mem : Bytes) (p : Packet) (start length : Z)
  : bool * Packet * Bytes :=
  if done then
    let top := Flow.wrapInt (wrap64 (start - 1)) in
    let mem' := copyDown mem (Start p) length (Z.to_nat (top + 1)) top in
    (true, set_Ether (wrap64 (Ether p + length)) p, mem')
  else (false, p, mem).

(** [for i := packetLength - 1; int(i) >= int(start+length); i-- { *(base + i) = *(base + (i - length)) }];
    [bound] is [int(start+length)] and [i] a [uint].  The turns are counted
    by [fuel]; [None] when the fuel does not reach the end of the loop. *)
Fixpoint copyTail (fuel : nat) (mem : Bytes) (base length bound i : Z) : option Bytes :=
  if bound <=? Flow.wrapInt i then
    match fuel with
    | O => None
    | S fuel' =>
        copyTail fuel'
          (store8 mem (base + i) (load8 mem (base + wrap64 (i - length))))
          base length bound (wrap64 (i - 1))
    end
  else Some mem.

(** [EncapsulateTail(start, length)]; [packetLength] is read after the
    bytes were appended. *)
Definition EncapsulateTail (fuel : nat) (done : bool) (packetLength : Z) (mem : Bytes)
  (p : Packet) (start length : Z) : option (bool * Bytes) :=
  if done then
    mem' ← copyTail fuel mem (Start p) length (Flow.wrapInt (wrap64 (start + length)))
             (wrap64 (packetLength - 1));
    Some (true, mem')
  else Some (false, mem).

(** [DecapsulateTail(start, length)]; [packetLength] is read before the
    bytes are trimmed. *)
Definition DecapsulateTail (done : bool) (packetLength : Z) (mem : Bytes) (p : Packet)
  (start length : Z) : bool * Bytes :=
  if done then
    (true, copyUp mem (Start p) length (Z.to_nat (packetLength - start)) start)
  else (false, mem).

(** [for i := uint(0); i < length; i++ { *(base + uintptr(start+i)) = bytes[i] }] *)
Fixpoint writeBytes (mem : Bytes) (base start : Z) (bytes : list Z) (i : Z) : Bytes :=
  match bytes with
  | [] => mem
  | b :: rest =>
      writeBytes (store8 mem (base + wrap64 (start + i)) b) base start rest (i + 1)
  end.

(** [PacketBytesChange(start, bytes)] *)
Definition PacketBytesChange (packetLength : Z) (mem : Bytes) (p : Packet) (start : Z)
  (bytes : list Z) : bool * Bytes :=
  let length := wrap64 (Z.of_nat (List.length bytes)) in
  if packetLength <? wrap64 (start + length) then (false, mem)
  else (true, writeBytes mem (Start p) start bytes 0).

End Capsule.

(** ** The rings of a graph *)

Module Wiring.

Import Low Flow Graph.

(** The parameters that [merge] expects of an unclonable flow function:
    those of the stages the builder registers as unclonable. *)
Definition unclonableOk (ff : FlowFunction) : Prop :=
  match Parameters ff with
  | receiveParameters _ _ _ | generateParameters _ _ _ _ _ | sendParameters _ _ _
  | partitionParameters _ _ _ _ _ | writeParameters _ _ | readParameters _ _ _ _ => True
  | _ => False
  end.

(** The ring a flow function reads from. *)
Definition inputs (par : StageParameters) : list Queue :=
  match par with
  | sendParameters IN _ _ | partitionParameters IN _ _ _ _
  | separateParameters IN _ _ _ _ | splitParameters IN _ _ _
  | handleParameters IN _ _ _ | writeParameters IN _ => [IN]
  | _ => []
  end.

(** Every ring a flow function of [l] names is one of the first [n] rings. *)
Definition refsBelow (n : nat) (l : list FlowFunction) : Prop :=
  Forall (fun ff => Forall (fun q : Queue => (q < n)%nat)
                      (inputs (Parameters ff) ++ outputs (Parameters ff))) l.

Definition openBelow (n : nat) (fs : list (option Queue)) : Prop :=
  Forall (fun c : option Queue =>
            match c with Some q => (q < n)%nat | None => True end) fs.

(** The rings in the order of their creation: the ring at index [i] has
    the name [i + 1] in the arithmetic of [int], [next] is the name of the
    ring created next, and every ring has the capacity [cap]. *)
Definition ringsOk (rs : list Ring) (next : Z) (cap : nat) : Prop :=
  map name rs = map (fun i : nat => wrapInt (Z.of_nat i + 1)) (seq 0 (length rs)) /\
  next = wrapInt (Z.of_nat (length rs) + 1) /\
  Forall (fun r => capacity r = cap) rs /\
  (0 < length rs)%nat.

(** What the builder keeps true of the rings and of the references to
    them. *)
Record wired (s : State) : Prop := mkWired {
  kinds : Forall unclonableOk (UnClonable (schedState s));
  rings_ok : ringsOk (rings s) (ringName s)
               (Z.to_nat (wrap64 (burstSize s * sizeMultiplier s)));
  stop_ring : StopRing (schedState s) = 0%nat;
  unclonable_refs : refsBelow (length (rings s)) (UnClonable (schedState s));
  clonable_refs : refsBelow (length (rings s)) (Clonable (schedState s));
  flow_refs : openBelow (length (rings s)) (flows s);
  threshold : maxPacketsToClone s =
              wrap32 (wrap64 (wrap64 (sizeMultiplier s * burstSize s) / 5 * 4))
}.

(** The states a program can be in when it calls [SystemStart]: those that
    a sequence of calls of the builder, all of which returned, leads to
    from [SystemInit]. *)
Definition reachable (s : State) : Prop :=
  exists (d : Dpdk) (mem : Memory) (args : Config) (calls : list Call),
    build calls (SystemInit d mem args) = Ok (tt, s).

End Wiring.

(** * Properties *)

Import Low Flow Graph.


(** ** Machine integers *)

Lemma wrap_small w x : 0 <= x < 2 ^ w -> wrap w x = x.
Proof. intros H. unfold wrap. now apply Z.mod_small. Qed.

Lemma wrap_range w x : 0 <= w -> 0 <= wrap w x < 2 ^ w.
Proof.
  intros Hw. unfold wrap. apply Z.mod_pos_bound.
  apply Z.pow_pos_nonneg; lia.
Qed.

Lemma wrap_testbit w x i :
  0 <= w -> Z.testbit (wrap w x) i = (Z.ltb i w && Z.testbit x i)%bool.
Proof.
  intros Hw. unfold wrap.
  destruct (Z.ltb_spec i w) as [Hlt | Hge]; simpl.
  - destruct (Z.neg_nonneg_cases i) as [Hn | Hp].
    + now rewrite !Z.testbit_neg_r.
    + apply Z.mod_pow2_bits_low. lia.
  - apply Z.mod_pow2_bits_high. lia.
Qed.

(** ** Byte swaps *)

Section ByteSwaps.

Import Packet.

Lemma uint_testbit_high w x i : 0 <= w -> is_uint w x -> w <= i -> Z.testbit x i = false.
Proof.
  intros Hw Hx Hi. rewrite <- (wrap_small w x Hx).
  rewrite wrap_testbit by lia.
  destruct (Z.ltb_spec i w); [lia | reflexivity].
Qed.

(** Bits of the byte mask [0xff << k]. *)
Lemma mask_testbit k i :
  0 <= k -> Z.testbit (Z.shiftl 255 k) i = (Z.leb k i && Z.ltb i (k + 8))%bool.
Proof.
  intros Hk.
  destruct (Z.neg_nonneg_cases i) as [Hn | Hi].
  { rewrite Z.testbit_neg_r by lia. destruct (Z.leb_spec k i); [lia | reflexivity]. }
  rewrite Z.shiftl_spec by lia.
  change 255 with (Z.ones 8).
  destruct (Z.leb_spec k i) as [Hle | Hlt]; simpl.
  - destruct (Z.ltb_spec i (k + 8)).
    + apply Z.ones_spec_low. lia.
    + apply Z.ones_spec_high. lia.
  - apply Z.testbit_neg_r. lia.
Qed.

(** Case analysis on every comparison left in the goal. *)
Ltac split_cases :=
  repeat match goal with
         | |- context [Z.ltb ?a ?b] => destruct (Z.ltb_spec a b)
         | |- context [Z.leb ?a ?b] => destruct (Z.leb_spec a b)
         end;
  simpl; try lia.

Lemma SwapBytesUint16_testbit x i :
  0 <= i ->
  Z.testbit (SwapBytesUint16 x) i =
  ((Z.leb 8 i && Z.ltb i 16 && Z.testbit x (i - 8)) || Z.testbit x (i + 8))%bool.
Proof.
  intros Hi. unfold SwapBytesUint16, wrap16.
  rewrite Z.lor_spec, wrap_testbit, Z.shiftl_spec, Z.shiftr_spec by lia.
  split_cases; try reflexivity.
  now rewrite Z.testbit_neg_r by lia.
Qed.

Lemma SwapBytesUint32_testbit x i :
  0 <= i ->
  Z.testbit (SwapBytesUint32 x) i =
  if Z.ltb i 8 then Z.testbit x (i + 24)
  else if Z.ltb i 16 then Z.testbit x (i + 8)
  else if Z.ltb i 24 then Z.testbit x (i - 8)
  else if Z.ltb i 32 then Z.testbit x (i - 24)
  else false.
Proof.
  intros Hi. unfold SwapBytesUint32, wrap32.
  change 0x000000ff with (Z.shiftl 255 0).
  change 0x0000ff00 with (Z.shiftl 255 8).
  change 0x00ff0000 with (Z.shiftl 255 16).
  change 0xff000000 with (Z.shiftl 255 24).
  rewrite !Z.lor_spec, !wrap_testbit, !Z.shiftl_spec, !Z.shiftr_spec by lia.
  rewrite !Z.land_spec, !mask_testbit by lia.
  split_cases;
    rewrite ?andb_false_r, ?andb_true_r, ?orb_false_r, ?orb_false_l; try reflexivity.
Qed.

Lemma is_uint_of_bits w x :
  0 <= w -> (forall i, w <= i -> Z.testbit x i = false) -> is_uint w x.
Proof.
  intros Hw Hhigh.
  assert (Heq : wrap w x = x).
  { apply Z.bits_inj'. intros i Hi. rewrite wrap_testbit by lia.
    destruct (Z.ltb_spec i w); simpl; [reflexivity |].
    symmetry. apply Hhigh. lia. }
  rewrite <- Heq. now apply wrap_range.
Qed.

Lemma SwapBytesUint16_bits x i :
  is_uint 16 x -> 0 <= i ->
  Z.testbit (SwapBytesUint16 x) i =
  if Z.ltb i 8 then Z.testbit x (i + 8)
  else if Z.ltb i 16 then Z.testbit x (i - 8)
  else false.
Proof.
  intros Hx Hi. rewrite SwapBytesUint16_testbit by lia.
  split_cases.
  - reflexivity.
  - rewrite (uint_testbit_high 16 x (i + 8)) by (assumption || lia).
    now rewrite orb_false_r.
  - apply (uint_testbit_high 16); [lia | assumption | lia].
Qed.

Lemma SwapBytesUint16_uint x : is_uint 16 x -> is_uint 16 (SwapBytesUint16 x).
Proof.
  intros Hx. apply is_uint_of_bits; [lia |]. intros i Hi.
  rewrite SwapBytesUint16_bits by (assumption || lia).
  split_cases; reflexivity.
Qed.

(** C10. Swapping the bytes of a 16-bit value twice, or of a 32-bit value
    twice, gives the value back. *)
Theorem SwapBytes_involutive (x y : Z) :
  is_uint 16 x -> is_uint 32 y ->
  SwapBytesUint16 (SwapBytesUint16 x) = x /\
  SwapBytesUint32 (SwapBytesUint32 y) = y.
Proof.
  intros Hx Hy. split; apply Z.bits_inj'; intros i Hi.
  - rewrite SwapBytesUint16_bits by (auto using SwapBytesUint16_uint || lia).
    destruct (Z.ltb_spec i 8); [| destruct (Z.ltb_spec i 16)].
    + rewrite SwapBytesUint16_bits by (assumption || lia).
      split_cases. f_equal. lia.
    + rewrite SwapBytesUint16_bits by (assumption || lia).
      split_cases. f_equal. lia.
    + symmetry. apply (uint_testbit_high 16); [lia | assumption | lia].
  - rewrite SwapBytesUint32_testbit by lia.
    destruct (Z.ltb_spec i 8); [| destruct (Z.ltb_spec i 16);
      [| destruct (Z.ltb_spec i 24); [| destruct (Z.ltb_spec i 32)]]];
      try (rewrite SwapBytesUint32_testbit by lia; split_cases; f_equal; lia).
    symmetry. apply (uint_testbit_high 32); [lia | assumption | lia].
Qed.

Lemma SwapBytes_involutive_witness :
  (SwapBytesUint16 (SwapBytesUint16 0x1234) = 0x1234 /\
   SwapBytesUint32 (SwapBytesUint32 0xa1b2c3d4) = 0xa1b2c3d4) /\
  SwapBytesUint16 0x1234 = 0x3412 /\ SwapBytesUint32 0xa1b2c3d4 = 0xd4c3b2a1.
Proof.
  split.
  - apply (SwapBytes_involutive 0x1234 0xa1b2c3d4); unfold is_uint; lia.
  - split; reflexivity.
Defined.

End ByteSwaps.

(** ** The clone threshold *)

Section CloneThreshold.

Import Low Flow Graph.

(** C4, as claimed: at the default burst size and ring size multiplier the
    threshold of [SystemInit] is 6552, and the formula of the specification
    gives 6553. *)
Lemma maxPacketsToClone_not_spec_formula :
  burstSize started = 32 /\ sizeMultiplier started = 256 /\
  maxPacketsToClone started = 6552 /\
  specMaxOutstanding (burstSize started) (sizeMultiplier started) = 6553 /\
  maxPacketsToClone started <>
  specMaxOutstanding (burstSize started) (sizeMultiplier started).
Proof. repeat split; vm_compute; congruence. Qed.

(** C4, amended. [SystemInit] divides the ring capacity by five first and
    multiplies by four afterwards: for a capacity below 2^32 the threshold
    is [capacity / 5 * 4], a multiple of four that is at most 80% of the
    capacity and less than four packets (16/5) below it. *)
Theorem maxPacketsToClone_divides_first (d : Dpdk) (mem : Memory) (args : Config) :
  let s := SystemInit d mem args in
  0 <= RingSize args -> 0 <= BurstSize args ->
  sizeMultiplier s * burstSize s < 2 ^ 32 ->
  sizeMultiplier s = (if RingSize args =? 0 then 256 else RingSize args) /\
  burstSize s = (if BurstSize args =? 0 then 32 else BurstSize args) /\
  maxPacketsToClone s = sizeMultiplier s * burstSize s / 5 * 4 /\
  4 * (sizeMultiplier s * burstSize s) - 16 <= 5 * maxPacketsToClone s
    <= 4 * (sizeMultiplier s * burstSize s).
Proof.
  intros s Hr Hb Hcap. subst s. cbn [SystemInit sizeMultiplier burstSize maxPacketsToClone] in *.
  unfold orDefault in *.
  set (m := if RingSize args =? 0 then 256 else RingSize args) in *.
  set (b := if BurstSize args =? 0 then 32 else BurstSize args) in *.
  assert (Hm : 0 <= m) by (subst m; destruct (RingSize args =? 0); lia).
  assert (Hb' : 0 <= b) by (subst b; destruct (BurstSize args =? 0); lia).
  assert (Hp : 0 <= m * b) by nia.
  assert (Hq : 0 <= m * b / 5 * 4 <= m * b).
  { pose proof (Z.div_mod (m * b) 5 ltac:(lia)).
    pose proof (Z.mod_pos_bound (m * b) 5 ltac:(lia)). lia. }
  pose proof (Z.div_mod (m * b) 5 ltac:(lia)) as Hdiv.
  pose proof (Z.mod_pos_bound (m * b) 5 ltac:(lia)) as Hmod.
  assert (Hmax : wrap32 (wrap64 (wrap64 (m * b) / 5 * 4)) = m * b / 5 * 4).
  { change (2 ^ 32) with 4294967296 in Hcap.
    unfold wrap32, wrap64.
    rewrite (wrap_small 64 (m * b)), (wrap_small 64), (wrap_small 32);
      try reflexivity;
      change (2 ^ 32) with 4294967296;
      change (2 ^ 64) with 18446744073709551616; lia. }
  rewrite Hmax. repeat split; lia.
Qed.

Lemma maxPacketsToClone_divides_first_witness :
  sizeMultiplier started = 256 /\ burstSize started = 32 /\
  maxPacketsToClone started = sizeMultiplier started * burstSize started / 5 * 4 /\
  4 * (sizeMultiplier started * burstSize started) - 16
    <= 5 * maxPacketsToClone started
    <= 4 * (sizeMultiplier started * burstSize started).
Proof.
  apply (maxPacketsToClone_divides_first twoPorts zeroMemory defaultConfig);
    vm_compute; congruence.
Defined.

End CloneThreshold.

(** ** Running operations *)

Section Running.

Import Low Flow Graph.

Lemma bind_Ok {A B : Type} (m : Op A) (k : A -> Op B) s a s' :
  m s = Ok (a, s') -> bind m k s = k a s'.
Proof. unfold bind. now intros ->. Qed.


Lemma Queue_EnqueueBurst_Ok s q r buffer count :
  rings s !! q = Some r ->
  Queue_EnqueueBurst q buffer count s =
  Ok ((EnqueueBurst r buffer count).2,
      set_rings (<[q:=(EnqueueBurst r buffer count).1]> (rings s)) s).
Proof.
  intros Hq. unfold Queue_EnqueueBurst, getRing, setRing.
  unfold bind, gets, lift_opt, modify, ret. now rewrite Hq.
Qed.

Lemma slice_Some {A : Type} (data : list A) (lo hi : nat) :
  (lo <= hi <= length data)%nat ->
  slice data lo hi = Some (take (hi - lo) (drop lo data)).
Proof. intros H. unfold slice. now rewrite decide_True. Qed.

Lemma take_three {A : Type} (data : list A) (a b n : nat) :
  (a + b <= n)%nat ->
  take n data =
  take a data ++ take b (drop a data) ++ take (n - a - b) (drop (a + b) data).
Proof.
  intros H.
  rewrite app_assoc, !take_take_drop.
  f_equal. lia.
Qed.

Lemma wp_bind {A B : Type} (m : Op A) (k : A -> Op B) Q s :
  wp m (fun a s' => wp (k a) Q s') s -> wp (bind m k) Q s.
Proof. unfold wp, bind. destruct (m s) as [[a s'] | msg]; auto. Qed.

Lemma wp_ret {A : Type} (a : A) (Q : A -> State -> Prop) s : Q a s -> wp (ret a) Q s.
Proof. auto. Qed.

Lemma wp_gets {A : Type} (f : State -> A) (Q : A -> State -> Prop) s :
  Q (f s) s -> wp (gets f) Q s.
Proof. auto. Qed.

Lemma wp_modify (f : State -> State) (Q : unit -> State -> Prop) s :
  Q tt (f s) -> wp (modify f) Q s.
Proof. auto. Qed.

Lemma wp_panic {A : Type} msg (Q : A -> State -> Prop) s : wp (panic msg) Q s.
Proof. exact I. Qed.

Lemma wp_LogError {A : Type} msg (Q : A -> State -> Prop) s : wp (LogError msg) Q s.
Proof. exact I. Qed.

Lemma wp_lift_opt {A : Type} msg (o : option A) (Q : A -> State -> Prop) s :
  (forall a, o = Some a -> Q a s) -> wp (lift_opt msg o) Q s.
Proof. destruct o; intros H; [apply H; reflexivity | exact I]. Qed.

Lemma wp_when (b : bool) (m : Op unit) (Q : unit -> State -> Prop) s :
  (b = true -> wp m Q s) -> (b = false -> Q tt s) -> wp (when b m) Q s.
Proof. destruct b; simpl; intros H1 H2; [apply H1 | apply H2]; reflexivity. Qed.

Lemma wp_mono {A : Type} (m : Op A) (Q Q' : A -> State -> Prop) s :
  wp m Q s -> (forall a s', Q a s' -> Q' a s') -> wp m Q' s.
Proof. unfold wp. destruct (m s) as [[a s'] | msg]; auto. Qed.

Lemma wp_Ok {A : Type} (m : Op A) (Q : A -> State -> Prop) s a s' :
  wp m Q s -> m s = Ok (a, s') -> Q a s'.
Proof. unfold wp. intros H Heq. now rewrite Heq in H. Qed.

Lemma wp_forEach {A : Type} (f : A -> Op unit) (I : State -> Prop) (l : list A) s :
  (forall x s0, x ∈ l -> I s0 -> wp (f x) (fun _ s1 => I s1) s0) ->
  I s -> wp (forEach f l) (fun _ s' => I s') s.
Proof.
  revert s. induction l as [| x l IH]; intros s Hf HI; simpl.
  - exact HI.
  - apply wp_bind. eapply wp_mono.
    + apply Hf; [left | exact HI].
    + intros u s1 H1. apply IH; [| exact H1].
      intros y s0 Hy. apply Hf. now right.
Qed.

End Running.

(** Simplification of the fields of a state that was updated, and the
    step-by-step run of an operation under [wp]. *)
Ltac state_simpl :=
  cbn [openFlowsNumber ringName ffCount createdPorts burstSize sizeMultiplier
       schedTime maxPacketsToClone hwtxchecksum schedState dpdk rings mempools
       flows memory warnings directStopped
       set_openFlowsNumber set_ringName set_ffCount set_createdPorts
       set_schedState set_rings set_mempools set_flows set_memory set_warnings
       set_directStopped UnClonable Clonable StopRing Dropped set_UnClonable
       set_Clonable set_Dropped fst snd] in *.

Ltac wp_step :=
  lazymatch goal with
  | |- wp (bind _ _) _ _ => apply wp_bind
  | |- wp (ret _) _ _ => apply wp_ret
  | |- wp (gets _) _ _ => apply wp_gets
  | |- wp (modify _) _ _ => apply wp_modify
  | |- wp (panic _) _ _ => apply wp_panic
  | |- wp (LogError _) _ _ => apply wp_LogError
  | |- wp (lift_opt _ _) _ _ => apply wp_lift_opt; intros ? ?
  | |- wp (when _ _) _ _ => apply wp_when; intros ?
  | |- wp (if ?b then _ else _) _ _ => destruct b eqn:?
  | |- wp (match ?x with _ => _ end) _ _ => destruct x eqn:?
  end; cbv beta.

Ltac wp_unfold :=
  progress unfold checkFlow, current, currentRing, setCurrent, newFlow, newRing,
    generateRingName, low_CreateQueue, low_CreateMempool, nextCount,
    incOpenFlows, decOpenFlows, appendUnClonable, appendClonable,
    makeReceiver, makeGeneratorOne, makeGeneratorPerf, makeSender, makePartitioner,
    makeSeparator, makeSplitter, makeHandler, makeWriter, makeReader,
    getPort, setPort, LogWarning, merge.

Ltac wp_run := repeat first [wp_step | wp_unfold]; state_simpl.

(** ** Safe enqueue *)

Section SafeEnqueue.

Import Low Flow Graph.

(** C1. [safeEnqueue] returns for every burst.  The output ring takes the
    first [done] handles, as many as it has room for.  When [done] is less
    than [number], the dropped counter goes up by [number - done] (in the
    arithmetic of [uint]), the rest is offered to the stop ring, which takes
    as many as it has room for, and what is left is handed to the direct
    stop: the burst is the concatenation of the three parts. *)
Theorem safeEnqueue_places_every_handle
  (s : State) (place : Queue) (data : list Handle) (number : nat) (r stop0 : Ring) :
  rings s !! place = Some r ->
  rings s !! StopRing (schedState s) = Some stop0 ->
  (number <= length data)%nat ->
  let done := Nat.min number (capacity r - length (items r)) in
  exists (s' : State) (stop1 : Ring) (A B C : list Handle),
    safeEnqueue place data number s = Ok (tt, s') /\
    take number data = A ++ B ++ C /\
    length A = done /\
    <[place:=pushed A r]> (rings s) !! StopRing (schedState s) = Some stop1 /\
    rings s' = <[StopRing (schedState s):=pushed B stop1]> (<[place:=pushed A r]> (rings s)) /\
    directStopped s' = directStopped s ++ C /\
    Dropped (schedState s') =
      (if decide (done < number)%nat
       then wrap64 (Dropped (schedState s) + Z.of_nat (number - done))
       else Dropped (schedState s)) /\
    ((done < number)%nat ->
     length B = Nat.min (number - done) (capacity stop1 - length (items stop1)) /\
     length C = (number - done - length B)%nat) /\
    (done = number -> B = [] /\ C = []).
Proof.
  intros Hplace Hstop Hlen done.
  assert (Hdone : (done <= number)%nat) by (subst done; lia).
  assert (Hstop1 : exists stop1,
             <[place:=pushed (take done data) r]> (rings s) !! StopRing (schedState s)
             = Some stop1).
  { destruct (decide (place = StopRing (schedState s))) as [<- | Hne].
    - exists (pushed (take done data) r).
      apply list_lookup_insert_eq. eapply lookup_lt_Some; eauto.
    - exists stop0. rewrite list_lookup_insert_ne by done. done. }
  destruct Hstop1 as [stop1 Hstop1].
  set (done2 := Nat.min (number - done) (capacity stop1 - length (items stop1))).
  unfold safeEnqueue.
  rewrite decide_True by done.
  rewrite (bind_Ok _ _ s tt s) by reflexivity.
  erewrite bind_Ok by (apply Queue_EnqueueBurst_Ok; eassumption).
  change (EnqueueBurst r data number).2 with done.
  change (EnqueueBurst r data number).1 with (pushed (take done data) r).
  destruct (decide (done < number)%nat) as [Hlt | Hge].
  - rewrite (bind_Ok _ _ _ tt _) by reflexivity.
    rewrite (bind_Ok _ _ _ (StopRing (schedState s)) _) by reflexivity.
    rewrite slice_Some by lia.
    rewrite (bind_Ok _ _ _ (take (number - done) (drop done data)) _) by reflexivity.
    erewrite bind_Ok by (apply Queue_EnqueueBurst_Ok; exact Hstop1).
    change (EnqueueBurst stop1 (take (number - done) (drop done data)) (number - done)).2
      with done2.
    change (EnqueueBurst stop1 (take (number - done) (drop done data)) (number - done)).1
      with (pushed (take done2 (take (number - done) (drop done data))) stop1).
    assert (Hdone2 : (done2 <= number - done)%nat) by (subst done2; lia).
    rewrite take_take, Nat.min_l by lia.
    assert (HA : length (take done data) = done) by (rewrite length_take; lia).
    assert (HB : length (take done2 (drop done data)) = done2)
      by (rewrite length_take, length_drop; lia).
    destruct (decide (done2 < number - done)%nat) as [Hlt2 | Hge2].
    + rewrite (bind_Ok _ _ _ tt _) by reflexivity.
      rewrite slice_Some by lia.
      eexists _, stop1, (take done data), (take done2 (drop done data)),
        (take (number - done - done2) (drop (done + done2) data)).
      split; [reflexivity |].
      split; [apply take_three; lia |].
      split; [exact HA |].
      split; [exact Hstop1 |].
      split; [reflexivity |].
      split.
      { cbn. rewrite take_take, Nat.min_l by lia. reflexivity. }
      split; [reflexivity |].
      split; [| lia].
      intros _. split; [exact HB |].
      rewrite length_take, length_drop, HB. lia.
    + exists (set_rings
                (<[StopRing (schedState s):=pushed (take done2 (drop done data)) stop1]>
                   (<[place:=pushed (take done data) r]> (rings s)))
                (set_schedState
                   (set_Dropped
                      (wrap64 (Dropped (schedState s) + Z.of_nat (number - done)))
                      (schedState s))
                   (set_rings (<[place:=pushed (take done data) r]> (rings s)) s))),
        stop1, (take done data), (take done2 (drop done data)), [].
      split; [reflexivity |].
      split.
      { rewrite app_nil_r, take_take_drop. f_equal. lia. }
      split; [exact HA |].
      split; [exact Hstop1 |].
      split; [reflexivity |].
      split; [cbn; now rewrite app_nil_r |].
      split; [reflexivity |].
      split; [| lia].
      intros _. split; [exact HB |]. cbn. lia.
  - assert (Hall : done = number) by lia.
    exists (set_rings (<[place:=pushed (take done data) r]> (rings s)) s),
      stop1, (take done data), [], [].
    split; [reflexivity |].
    split; [now rewrite !app_nil_r, Hall |].
    split; [rewrite length_take; lia |].
    split; [exact Hstop1 |].
    split.
    { unfold set_rings. cbn [rings]. symmetry. apply list_insert_id.
      etrans; [exact Hstop1 |]. f_equal. unfold pushed. rewrite app_nil_r. now destruct stop1. }
    split; [cbn; now rewrite app_nil_r |].
    split; [reflexivity |].
    split; [lia | done].
Qed.

Lemma safeEnqueue_places_every_handle_witness :
  exists (s' : State) (stop1 : Ring) (A B C : list Handle),
    safeEnqueue 1%nat [10; 20; 30] 3 crowded = Ok (tt, s') /\
    take 3 [10; 20; 30] = A ++ B ++ C /\
    length A = 1%nat /\
    <[1%nat:=pushed A (mkRing 2 2 [7])]> (rings crowded) !! 0%nat = Some stop1 /\
    rings s' = <[0%nat:=pushed B stop1]> (<[1%nat:=pushed A (mkRing 2 2 [7])]> (rings crowded)) /\
    directStopped s' = directStopped crowded ++ C /\
    Dropped (schedState s') = 2 /\
    ((1 < 3)%nat ->
     length B = Nat.min (3 - 1) (capacity stop1 - length (items stop1)) /\
     length C = (3 - 1 - length B)%nat) /\
    (1%nat = 3%nat -> B = [] /\ C = []).
Proof.
  apply (safeEnqueue_places_every_handle crowded 1%nat [10; 20; 30] 3
           (mkRing 2 2 [7]) (mkRing 1 1 [])); [reflexivity | reflexivity | simpl; lia].
Defined.

End SafeEnqueue.

(** ** The builder keeps its books *)

Section Construction.

Lemma countOpen_app l1 l2 : countOpen (l1 ++ l2) = (countOpen l1 + countOpen l2)%nat.
Proof. unfold countOpen. now rewrite filter_app, length_app. Qed.

Lemma countOpen_cons c l : countOpen (c :: l) = (weight c + countOpen l)%nat.
Proof.
  unfold countOpen. rewrite filter_cons.
  destruct (decide (is_Some c)) as [[q ->] | Hno]; [reflexivity |].
  destruct c; [exfalso; eauto | reflexivity].
Qed.

Lemma countOpen_insert l i x y :
  l !! i = Some x ->
  (countOpen (<[i:=y]> l) + weight x = countOpen l + weight y)%nat.
Proof.
  intros Hi.
  assert (Hlt : (i < length l)%nat) by (eapply lookup_lt_Some; eauto).
  rewrite insert_take_drop by exact Hlt.
  rewrite <- (take_drop_middle l i x Hi) at 3.
  rewrite !countOpen_app, !countOpen_cons. lia.
Qed.

Lemma countOpen_le l : (countOpen l <= length l)%nat.
Proof. unfold countOpen. apply length_filter. Qed.

Lemma wrap_add_l w a b : wrap w (wrap w a + b) = wrap w (a + b).
Proof. unfold wrap. apply Zplus_mod_idemp_l. Qed.

Lemma wrap_sub_l w a b : wrap w (wrap w a - b) = wrap w (a - b).
Proof. unfold wrap. apply Zminus_mod_idemp_l. Qed.

Lemma insert_last {A : Type} (l : list A) (n : nat) (x y : A) :
  length l = n -> <[n:=y]> (l ++ [x]) = l ++ [y].
Proof.
  intros <-. replace (length l) with (length l + 0)%nat by lia.
  now rewrite insert_app_r.
Qed.

Lemma clonableOk_snoc l ff : Forall clonableOk l -> clonableOk ff -> Forall clonableOk (l ++ [ff]).
Proof. intros Hl Hff. apply Forall_app. split; [exact Hl | now constructor]. Qed.

(** Closing an open flow and counting down keeps the count. *)
Lemma counted_close s IN q :
  openFlowsNumber s = wrap32 (Z.of_nat (countOpen (flows s))) ->
  flows s !! IN = Some (Some q) ->
  wrap32 (openFlowsNumber s - 1) = wrap32 (Z.of_nat (countOpen (<[IN:=None]> (flows s)))).
Proof.
  intros Hc Hin. rewrite Hc. unfold wrap32. rewrite wrap_sub_l. f_equal.
  pose proof (countOpen_insert _ _ _ None Hin). simpl in *. lia.
Qed.

(** A new flow over a ring and counting up keeps the count. *)
Lemma counted_open s q :
  openFlowsNumber s = wrap32 (Z.of_nat (countOpen (flows s))) ->
  wrap32 (openFlowsNumber s + 1) =
  wrap32 (Z.of_nat (countOpen (<[length (flows s):=Some q]> (flows s ++ [None])))).
Proof.
  intros Hc. rewrite Hc. unfold wrap32. rewrite wrap_add_l. f_equal.
  rewrite insert_last by reflexivity.
  rewrite countOpen_app, countOpen_cons.
  change (countOpen []) with 0%nat. simpl. lia.
Qed.

Lemma SetWriter_consistent IN filename s :
  consistent s -> wp (SetWriter IN filename) (fun _ s' => consistent s') s.
Proof.
  intros [Hc Hp Hk]. unfold SetWriter. wp_run. subst.
  constructor; state_simpl; eauto using counted_close.
Qed.

Lemma SetReader_consistent filename repcount s :
  consistent s -> wp (SetReader filename repcount) (fun _ s' => consistent s') s.
Proof.
  intros [Hc Hp Hk]. unfold SetReader. wp_run; subst.
  constructor; state_simpl; auto using counted_open.
Qed.

Lemma portOk_receive p :
  portOk p ->
  portOk (mkPort (rxQueues p ++ [true]) (txQueues p) autoPort
            (wrap16 (rxQueuesNumber p + 1)) (txQueuesNumber p) (port_ p)).
Proof.
  intros (Hrx & Htx & Hall & Hcfg). unfold portOk; simpl.
  repeat split.
  - rewrite Hrx. unfold wrap16. rewrite wrap_add_l. f_equal.
    rewrite length_app. simpl. lia.
  - exact Htx.
  - apply Forall_app. split; [exact Hall | now constructor].
  - right. split; [reflexivity |]. rewrite length_app. simpl. lia.
Qed.

Lemma portOk_send p :
  portOk p ->
  portOk (mkPort (rxQueues p) (txQueues p ++ [true]) autoPort
            (rxQueuesNumber p) (wrap16 (txQueuesNumber p + 1)) (port_ p)).
Proof.
  intros (Hrx & Htx & Hall & Hcfg). unfold portOk; simpl.
  repeat split.
  - exact Hrx.
  - rewrite Htx. unfold wrap16. rewrite wrap_add_l. f_equal.
    rewrite length_app. simpl. lia.
  - exact Hall.
  - right. split; [reflexivity |]. rewrite length_app. simpl. lia.
Qed.

Lemma SetReceiver_consistent port s :
  consistent s -> wp (SetReceiver port) (fun _ s' => consistent s') s.
Proof.
  intros [Hc Hp Hk]. unfold SetReceiver. wp_run; subst.
  assert (Hlt : (Z.to_nat port < length (createdPorts s))%nat)
    by (eapply lookup_lt_Some; eauto).
  rewrite list_lookup_insert_eq in * by exact Hlt.
  repeat match goal with H : Some _ = Some _ |- _ => injection H as <- end.
  cbn [rxQueues txQueues config rxQueuesNumber txQueuesNumber port_].
  rewrite list_insert_insert_eq.
  constructor; state_simpl; auto using counted_open.
  apply Forall_insert; [exact Hp |].
  apply portOk_receive. eapply Forall_lookup_1; eauto.
Qed.

Lemma SetSender_consistent IN port s :
  consistent s -> wp (SetSender IN port) (fun _ s' => consistent s') s.
Proof.
  intros [Hc Hp Hk]. unfold SetSender. wp_run; subst.
  assert (Hlt : (Z.to_nat port < length (createdPorts s))%nat)
    by (eapply lookup_lt_Some; eauto).
  rewrite list_lookup_insert_eq in * by exact Hlt.
  repeat match goal with H : Some _ = Some _ |- _ => injection H as <- end.
  cbn [rxQueues txQueues config rxQueuesNumber txQueuesNumber port_].
  rewrite list_insert_insert_eq.
  constructor; state_simpl; eauto using counted_close.
  apply Forall_insert; [exact Hp |].
  apply portOk_send. eapply Forall_lookup_1; eauto.
Qed.

Lemma SetGenerator_consistent f speed s :
  consistent s -> wp (SetGenerator f speed) (fun _ s' => consistent s') s.
Proof.
  intros [Hc Hp Hk]. unfold SetGenerator. wp_run; subst.
  all: constructor; state_simpl; auto using counted_open.
  all: apply clonableOk_snoc; [exact Hk | exact I].
Qed.

Lemma counted_rebind s IN q r :
  openFlowsNumber s = wrap32 (Z.of_nat (countOpen (flows s))) ->
  flows s !! IN = Some (Some q) ->
  openFlowsNumber s = wrap32 (Z.of_nat (countOpen (<[IN:=Some r]> (flows s)))).
Proof.
  intros Hc Hin. rewrite Hc. f_equal.
  pose proof (countOpen_insert _ _ _ (Some r) Hin). simpl in *. lia.
Qed.

Lemma counted_rebind_open s IN q r1 r2 :
  openFlowsNumber s = wrap32 (Z.of_nat (countOpen (flows s))) ->
  flows s !! IN = Some (Some q) ->
  wrap32 (openFlowsNumber s + 1) =
  wrap32 (Z.of_nat (countOpen (<[length (flows s):=Some r2]>
                                 (<[IN:=Some r1]> (flows s ++ [None]))))).
Proof.
  intros Hc Hin.
  assert (Hlt : (IN < length (flows s))%nat) by (eapply lookup_lt_Some; eauto).
  rewrite insert_app_l by exact Hlt.
  rewrite insert_last by apply length_insert.
  rewrite Hc. unfold wrap32. rewrite wrap_add_l. f_equal.
  rewrite countOpen_app, countOpen_cons. change (countOpen []) with 0%nat.
  pose proof (countOpen_insert _ _ _ (Some r1) Hin). simpl in *. lia.
Qed.

Lemma retargetOuts_length from to steps j outs outs' :
  retargetOuts from to steps j outs = Some outs' -> length outs' = length outs.
Proof.
  revert j outs. induction steps as [| steps IH]; intros j outs H; simpl in H.
  - now injection H as <-.
  - destruct (outs !! j) as [q |]; [| discriminate].
    apply IH in H. rewrite H.
    destruct (decide (q = from)); [apply length_insert | reflexivity].
Qed.

Lemma mergeClonable_ok from to ff ff' :
  mergeClonable from to ff = Some ff' -> clonableOk ff -> clonableOk ff'.
Proof.
  unfold mergeClonable, clonableOk.
  destruct ff as [nm id body par chk]; simpl.
  destruct par; simpl; intros H; try (injection H as <-; simpl; tauto).
  destruct (retargetOuts from to flowNumber 0 outs) as [outs' |] eqn:E;
    simpl in H; [| discriminate].
  injection H as <-. simpl.
  destruct chk as [[] |]; try tauto.
  intros ->. symmetry. eapply retargetOuts_length; eauto.
Qed.

Lemma mapM_mergeClonable_ok from to l l' :
  mapM (mergeClonable from to) l = Some l' ->
  Forall clonableOk l -> Forall clonableOk l'.
Proof.
  intros H. apply mapM_Some_1 in H.
  induction H as [| x y l l' Hxy _ IH]; intros Hl; [constructor |].
  inversion Hl; subst. constructor; eauto using mergeClonable_ok.
Qed.

Lemma SetPartitioner_consistent IN N M s :
  consistent s -> wp (SetPartitioner IN N M) (fun _ s' => consistent s') s.
Proof.
  intros [Hc Hp Hk]. unfold SetPartitioner. wp_run; subst.
  all: constructor; state_simpl; eauto using counted_rebind_open.
Qed.

Lemma SetSeparator_consistent IN f s :
  consistent s -> wp (SetSeparator IN f) (fun _ s' => consistent s') s.
Proof.
  intros [Hc Hp Hk]. unfold SetSeparator. wp_run; subst.
  all: constructor; state_simpl; eauto using counted_rebind_open.
  all: apply clonableOk_snoc; [exact Hk | exact I].
Qed.

Lemma SetHandler_consistent IN f s :
  consistent s -> wp (SetHandler IN f) (fun _ s' => consistent s') s.
Proof.
  intros [Hc Hp Hk]. unfold SetHandler. wp_run; subst.
  all: constructor; state_simpl; eauto using counted_rebind.
  all: apply clonableOk_snoc; [exact Hk | exact I].
Qed.

Lemma SetStopper_consistent IN s :
  consistent s -> wp (SetStopper IN) (fun _ s' => consistent s') s.
Proof.
  intros [Hc Hp Hk]. unfold SetStopper. wp_run; subst.
  constructor; state_simpl; eauto using counted_close, mapM_mergeClonable_ok.
Qed.

Lemma SetMerger_consistent InArray s :
  consistent s -> wp (SetMerger InArray) (fun _ s' => consistent s') s.
Proof.
  intros Hs. unfold SetMerger. wp_run.
  eapply wp_mono.
  - apply (wp_forEach _ consistent).
    + intros f s0 _ [Hc Hp Hk]. wp_run; subst.
      constructor; state_simpl; eauto using counted_close, mapM_mergeClonable_ok.
    + destruct Hs as [Hc Hp Hk]. constructor; state_simpl; assumption.
  - intros u s1 [Hc Hp Hk]. cbv beta. wp_run.
    constructor; state_simpl; auto using counted_open.
Qed.

Lemma splitterOutputs_spec n s :
  wp (splitterOutputs n)
     (fun r s' =>
        flows s' = flows s ++ map Some (snd r) /\ length (snd r) = n /\
        (forall c, openFlowsNumber s = wrap32 c ->
                   openFlowsNumber s' = wrap32 (c + Z.of_nat n)) /\
        createdPorts s' = createdPorts s /\ schedState s' = schedState s) s.
Proof.
  revert s. induction n as [| n IH]; intros s; simpl.
  - wp_run. rewrite app_nil_r.
    repeat split. intros c ->. now rewrite Z.add_0_r.
  - wp_run.
    eapply wp_mono; [apply IH |]. cbv beta.
    intros [fs qs] s1 (Hf & Hl & Hc & Hp & Hs). wp_run.
    rewrite insert_last in Hf by reflexivity.
    rewrite <- app_assoc in Hf.
    repeat split; try assumption; [simpl; now rewrite Hl |].
    intros c Hc0. rewrite (Hc (c + 1)).
    + f_equal. lia.
    + rewrite Hc0. unfold wrap32. apply wrap_add_l.
Qed.

Lemma countOpen_Some (qs : list nat) : countOpen (map Some qs) = length qs.
Proof.
  induction qs as [| q qs IH]; [reflexivity |].
  change (map Some (q :: qs)) with (Some q :: map Some qs).
  rewrite countOpen_cons, IH. reflexivity.
Qed.

Lemma SetSplitter_consistent IN f flowNumber s :
  consistent s -> wp (SetSplitter IN f flowNumber) (fun _ s' => consistent s') s.
Proof.
  intros [Hc Hp Hk]. unfold SetSplitter. wp_run; subst.
  eapply wp_mono; [apply splitterOutputs_spec |]. cbv beta.
  intros [fs qs] s1 (Hf & Hl & Hc1 & Hp1 & Hs1). wp_run; subst.
  assert (Hin : (IN < length (flows s))%nat) by (eapply lookup_lt_Some; eauto).
  constructor; state_simpl.
  - rewrite (Hc1 _ Hc). unfold wrap32. rewrite wrap_sub_l. f_equal.
    rewrite Hf. rewrite insert_app_l by exact Hin.
    rewrite countOpen_app, countOpen_Some.
    pose proof (countOpen_insert _ _ _ None H). simpl in *. lia.
  - now rewrite Hp1.
  - rewrite Hs1. apply clonableOk_snoc; [exact Hk | reflexivity].
Qed.

Lemma call_consistent c s :
  consistent s -> wp (call c) (fun _ s' => consistent s') s.
Proof.
  intros Hs. destruct c; simpl.
  - now apply SetWriter_consistent.
  - apply wp_bind. eapply wp_mono; [now apply SetReader_consistent | auto].
  - apply wp_bind. eapply wp_mono; [now apply SetReceiver_consistent | auto].
  - apply wp_bind. eapply wp_mono; [now apply SetGenerator_consistent | auto].
  - now apply SetSender_consistent.
  - apply wp_bind. eapply wp_mono; [now apply SetPartitioner_consistent | auto].
  - apply wp_bind. eapply wp_mono; [now apply SetSeparator_consistent | auto].
  - apply wp_bind. eapply wp_mono; [now apply SetSplitter_consistent | auto].
  - now apply SetStopper_consistent.
  - now apply SetHandler_consistent.
  - apply wp_bind. eapply wp_mono; [now apply SetMerger_consistent | auto].
Qed.

Lemma SystemInit_consistent d mem args : consistent (SystemInit d mem args).
Proof.
  constructor; simpl.
  - reflexivity.
  - apply Forall_forall. intros p Hp. apply list_elem_of_In in Hp.
    apply in_map_iff in Hp as (i & <- & _).
    unfold portOk; simpl. repeat split; auto.
  - constructor.
Qed.

Theorem build_consistent calls s s' :
  consistent s -> build calls s = Ok (tt, s') -> consistent s'.
Proof.
  intros Hs Hb.
  apply (wp_Ok (build calls) (fun _ s1 => consistent s1) s tt s'); [| exact Hb].
  apply wp_forEach; [| exact Hs].
  intros c s0 _ Hs0. now apply call_consistent.
Qed.










Lemma queueCheck_decides IN debug s r :
  rings s !! IN = Some r ->
  queueCheck IN debug s = Ok (maxPacketsToClone s <? GetQueueCount r, s).
Proof.
  intros Hr. destruct debug;
    cbv beta iota delta [queueCheck Queue_GetQueueCount getRing LogDebug bind gets ret];
    rewrite Hr; cbv beta iota delta [lift_opt ret]; rewrite ?Hr;
    cbv beta iota delta [lift_opt ret];
    destruct (maxPacketsToClone s <? GetQueueCount r); reflexivity.
Qed.

(** C6. The predicate a clonable flow function is registered with returns
    true exactly when the flow function should get one more replica: a
    generator when the observed speed is below its target speed; a handler,
    a separator or a splitter when the count of its input ring is above
    [maxPacketsToClone]. *)
Theorem should_clone_predicates
  (d : Dpdk) (mem : Memory) (args : Config) (calls : list Call) (s0 : State)
  (ff : FlowFunction) (s : State) (speedPKTS : Z) (debug : bool) :
  build calls (SystemInit d mem args) = Ok (tt, s0) ->
  ff ∈ Clonable (schedState s0) ->
  (forall IN, inputRing (Parameters ff) = Some IN -> is_Some (rings s !! IN)) ->
  exists b : bool,
    callCheck ff speedPKTS debug s = Ok (b, s) /\
    (b = true <-> shouldClone (Parameters ff) speedPKTS s).
Proof.
  intros Hbuild Hin Hring.
  assert (Hs : consistent s0)
    by (eapply build_consistent; [apply SystemInit_consistent | exact Hbuild]).
  pose proof (clonable_ok _ Hs) as Hk. rewrite Forall_forall in Hk.
  specialize (Hk ff Hin). unfold clonableOk in Hk. unfold callCheck.
  destruct (checkPrintFunction ff) as [[] |]; [| | | | contradiction];
    destruct (Parameters ff) eqn:Hpar; try contradiction; simpl in *.
  - exists (speedPKTS <? targetSpeed). split.
    + unfold ret. now destruct (speedPKTS <? targetSpeed).
    + apply Z.ltb_lt.
  - destruct (Hring in_ eq_refl) as [r Hr].
    exists (maxPacketsToClone s <? GetQueueCount r). split.
    + now apply queueCheck_decides.
    + rewrite Z.ltb_lt. split; [eauto |]. intros (r' & Hr' & Hlt). congruence.
  - destruct (Hring in_ eq_refl) as [r Hr].
    exists (maxPacketsToClone s <? GetQueueCount r). split.
    + now apply queueCheck_decides.
    + rewrite Z.ltb_lt. split; [eauto |]. intros (r' & Hr' & Hlt). congruence.
  - destruct (Hring in_ eq_refl) as [r Hr].
    exists (maxPacketsToClone s <? GetQueueCount r). split.
    + now apply queueCheck_decides.
    + rewrite Z.ltb_lt. split; [eauto |]. intros (r' & Hr' & Hlt). congruence.
Qed.

Lemma should_clone_predicates_witness :
  exists (ff : FlowFunction) (b : bool),
    Clonable (schedState built) !! 1%nat = Some ff /\
    callCheck ff 0 false built = Ok (b, built) /\
    (b = true <-> shouldClone (Parameters ff) 0 built).
Proof.
  destruct (Clonable (schedState built) !! 1%nat) as [ff |] eqn:E;
    [| vm_compute in E; discriminate].
  destruct (should_clone_predicates twoPorts zeroMemory defaultConfig smallGraph built
              ff built 0 false) as (b & Hb & Hiff).
  - vm_compute. reflexivity.
  - apply list_elem_of_lookup. now exists 1%nat.
  - intros IN HIN. vm_compute in E. injection E as <-.
    vm_compute in HIN. injection HIN as <-. vm_compute. eauto.
  - exists ff, b. auto.
Defined.

(** C5, as claimed: a partitioner whose first constant is zero is accepted.
    The call returns, the warning is logged, the partitioner is registered
    with its zero, and once the two flows are stopped [checkSystem] passes. *)
Lemma SetPartitioner_zero_is_accepted :
  let s := stateAfter zeroPartitioner started in
  let s' := stateAfter closeBoth s in
  build zeroPartitioner started = Ok (tt, s) /\
  warnings s = [partitioner_zero] /\
  map Parameters (UnClonable (schedState s)) !! 1%nat =
    Some (partitionParameters 1%nat 2%nat 3%nat 0 5) /\
  build closeBoth s = Ok (tt, s') /\
  checkSystem s' = Ok (tt, s').
Proof.
  cbv zeta.
  split; [vm_compute; reflexivity |].
  split; [vm_compute; reflexivity |].
  split; [vm_compute; reflexivity |].
  split; vm_compute; reflexivity.
Qed.

(** C5, amended. [SetPartitioner] with a zero constant on an open flow logs
    a warning and goes on: the partitioner is registered with the constants
    it was given, the input flow continues over the first new ring, the
    flow returned is over the second, and one more flow is counted open. *)
Theorem SetPartitioner_zero_warns (s : State) (IN : Flow) (q : Queue) (N M : Z) :
  flows s !! IN = Some (Some q) ->
  N = 0 \/ M = 0 ->
  exists s' : State,
    SetPartitioner IN N M s = Ok (length (flows s), s') /\
    warnings s' = warnings s ++ [partitioner_zero] /\
    UnClonable (schedState s') =
      UnClonable (schedState s) ++
      [NewUnclonableFlowFunction "partitioner" (wrapInt (ffCount s + 1)) body_partition
         (partitionParameters q (length (rings s)) (S (length (rings s))) N M)] /\
    flows s' = <[IN:=Some (length (rings s))]> (flows s) ++ [Some (S (length (rings s)))] /\
    openFlowsNumber s' = wrap32 (openFlowsNumber s + 1).
Proof.
  intros Hflow Hzero.
  assert (Hin : (IN < length (flows s))%nat) by (eapply lookup_lt_Some; eauto).
  assert (Hz : (N =? 0) || (M =? 0) = true).
  { destruct Hzero as [-> | ->]; [reflexivity | apply orb_true_r]. }
  unfold SetPartitioner, checkFlow, currentRing, current, newFlow, newRing,
    generateRingName, low_CreateQueue, incOpenFlows, makePartitioner, nextCount,
    appendUnClonable, setCurrent, LogWarning, when.
  unfold bind, gets, modify, ret, lift_opt.
  rewrite Hz. cbn.
  rewrite Hflow. cbn. state_simpl.
  rewrite lookup_app_l, Hflow by lia. cbn. state_simpl.
  rewrite decide_True by (rewrite length_app; simpl; lia). state_simpl.
  rewrite decide_True by (rewrite length_insert, length_app; simpl; lia).
  eexists. split; [reflexivity |]. state_simpl.
  rewrite length_app. cbn.
  repeat split.
  - f_equal. f_equal. f_equal. f_equal. lia.
  - rewrite insert_app_l by lia.
    rewrite insert_last by apply length_insert.
    do 3 f_equal. lia.
Qed.

Lemma SetPartitioner_zero_warns_witness :
  exists s' : State,
    SetPartitioner 0%nat 0 5 (stateAfter [CallSetGenerator (FuncPacket untouched) 0] started)
    = Ok (1%nat, s') /\
    warnings s' = [partitioner_zero] /\
    map Parameters (UnClonable (schedState s')) !! 1%nat =
      Some (partitionParameters 1%nat 2%nat 3%nat 0 5) /\
    flows s' = [Some 2%nat; Some 3%nat] /\
    openFlowsNumber s' = 2.
Proof.
  destruct (SetPartitioner_zero_warns
              (stateAfter [CallSetGenerator (FuncPacket untouched) 0] started)
              0%nat 1%nat 0 5) as (s' & Hrun & Hw & Hu & Hf & Ho).
  - vm_compute. reflexivity.
  - left. reflexivity.
  - exists s'. repeat split.
    + exact Hrun.
    + rewrite Hw. reflexivity.
    + rewrite Hu. reflexivity.
    + rewrite Hf. reflexivity.
    + rewrite Ho. reflexivity.
Defined.

End Construction.

(** ** Partition *)

Section Partition.

Variables N M : Z.
Hypothesis HN : 0 < N < 2 ^ 64.
Hypothesis HM : 0 < M < 2 ^ 64.








Lemma drop_head {A : Type} (l : list A) i x t :
  drop i l = x :: t -> l !! i = Some x /\ drop (S i) l = t.
Proof.
  intros H. split.
  - rewrite <- (Nat.add_0_r i), <- lookup_drop, H. reflexivity.
  - replace (S i) with (i + 1)%nat by lia.
    rewrite <- drop_drop, H. reflexivity.
Qed.

Lemma take_store_end {A : Type} (l l' : list A) (c : nat) (x : A) :
  store l c x = Some l' -> take (S c) l' = take c l ++ [x] /\ length l' = length l.
Proof.
  unfold store. destruct (decide (c < length l)%nat) as [Hc |]; [| discriminate].
  intros H. injection H as <-. split; [| apply length_insert].
  rewrite (take_S_r _ _ x) by now apply list_lookup_insert_eq.
  now rewrite take_insert_ge by lia.
Qed.

Lemma take_store_beyond {A : Type} (l l' : list A) (c n : nat) (x : A) :
  store l c x = Some l' -> (n <= c)%nat -> take n l' = take n l.
Proof.
  unfold store. destruct (decide (c < length l)%nat) as [Hc |]; [| discriminate].
  intros H Hn. injection H as <-. now apply take_insert_ge.
Qed.

Lemma store_fits {A : Type} (l : list A) (c : nat) (x : A) :
  (c < length l)%nat -> exists l', store l c x = Some l'.
Proof. intros H. unfold store. rewrite decide_True by exact H. eauto. Qed.




End Partition.





(** ** Separate *)

Section Separate.

Lemma separatePlace_keeps a i b b' :
  separatePlace a i b = Some b' ->
  s_bufsIn b' = s_bufsIn b /\ ttt b' = ttt b /\ s_tempPackets b' = s_tempPackets b.
Proof.
  unfold separatePlace. intros H.
  destruct (s_bufsIn b !! i) as [x |]; [| discriminate]. simpl in H.
  destruct a.
  - destruct (usub i (s_countOfPackets b)) as [j |]; [| discriminate]. simpl in H.
    destruct (store (s_bufsTrue b) j x); [| discriminate].
    injection H as <-. auto.
  - destruct (store (s_bufsFalse b) (s_countOfPackets b) x); [| discriminate].
    injection H as <-. auto.
Qed.

Lemma chosen_lengths xs answers :
  length answers = length xs ->
  (length (chosen true xs answers) + length (chosen false xs answers) = length xs)%nat.
Proof.
  revert answers. induction xs as [| x xs IH]; intros [| a answers] H;
    simpl in *; try lia.
  specialize (IH answers ltac:(lia)). destruct a; simpl; lia.
Qed.

Lemma placeAll_spec (xs : list Z) :
  forall (answers : list bool) (i : nat) (b : separateBuffers) (rest : list Z),
    length answers = length xs ->
    drop i (s_bufsIn b) = xs ++ rest ->
    (s_countOfPackets b <= i)%nat ->
    (i + length xs <= length (s_bufsTrue b))%nat ->
    (i + length xs <= length (s_bufsFalse b))%nat ->
    exists b' : separateBuffers,
      placeAll answers i b = Some b' /\
      s_countOfPackets b' =
        (s_countOfPackets b + length (chosen false xs answers))%nat /\
      take (s_countOfPackets b') (s_bufsFalse b') =
        take (s_countOfPackets b) (s_bufsFalse b) ++ chosen false xs answers /\
      take (i + length xs - s_countOfPackets b') (s_bufsTrue b') =
        take (i - s_countOfPackets b) (s_bufsTrue b) ++ chosen true xs answers.
Proof.
  induction xs as [| x xs IH]; intros [| a answers] i b rest Hlen Hdrop Hc Ht Hf;
    try discriminate.
  - exists b. simpl. rewrite !app_nil_r, !Nat.add_0_r. repeat split; reflexivity.
  - simpl in Hdrop. apply drop_head in Hdrop as [Hx Hdrop].
    simpl length in *.
    destruct b as [bufsIn bufsTrue bufsFalse mask c packets].
    cbn [s_bufsIn s_bufsTrue s_bufsFalse ttt s_countOfPackets s_tempPackets] in *.
    cbn [placeAll]. unfold separatePlace.
    cbn [s_bufsIn s_bufsTrue s_bufsFalse ttt s_countOfPackets s_tempPackets].
    rewrite Hx. cbn [mbind option_bind].
    destruct a.
    + unfold usub. rewrite decide_True by lia. cbn [mbind option_bind].
      destruct (store_fits bufsTrue (i - c) x ltac:(lia)) as [bufsTrue' Hst].
      rewrite Hst. cbn [mbind option_bind].
      destruct (take_store_end _ _ _ _ Hst) as [Htake Hl].
      destruct (IH answers (S i)
                  (mkSeparateBuffers bufsIn bufsTrue' bufsFalse mask c packets) rest)
        as (b' & Hrun & Hcnt & HtF & HtT);
        cbn [s_bufsIn s_bufsTrue s_bufsFalse ttt s_countOfPackets s_tempPackets] in *;
        try assumption; try lia.
      exists b'. cbn [chosen Bool.eqb].
      repeat split; try assumption.
      replace (i + S (length xs) - s_countOfPackets b')%nat
        with (S i + length xs - s_countOfPackets b')%nat by lia.
      rewrite HtT. replace (S i - c)%nat with (S (i - c)) by lia.
      now rewrite Htake, <- app_assoc.
    + destruct (store_fits bufsFalse c x ltac:(lia)) as [bufsFalse' Hst].
      rewrite Hst. cbn [mbind option_bind].
      destruct (take_store_end _ _ _ _ Hst) as [Htake Hl].
      destruct (IH answers (S i)
                  (mkSeparateBuffers bufsIn bufsTrue bufsFalse' mask (S c) packets) rest)
        as (b' & Hrun & Hcnt & HtF & HtT);
        cbn [s_bufsIn s_bufsTrue s_bufsFalse ttt s_countOfPackets s_tempPackets] in *;
        try assumption; try lia.
      exists b'. cbn [chosen Bool.eqb].
      repeat split; try assumption.
      all: try (rewrite Hcnt; simpl; lia).
      all: try (now rewrite HtF, Htake, <- app_assoc).
      all: try (replace (i + S (length xs) - s_countOfPackets b')%nat
                  with (S i + length xs - s_countOfPackets b')%nat by lia;
                rewrite HtT; f_equal; f_equal; lia).
Qed.

Lemma placeAll_app as1 as2 i b :
  placeAll (as1 ++ as2) i b =
  b' ← placeAll as1 i b; placeAll as2 (i + length as1) b'.
Proof.
  revert i b. induction as1 as [| a as1 IH]; intros i b; simpl.
  - now rewrite Nat.add_0_r.
  - destruct (separatePlace a i b) as [b1 |]; simpl; [| reflexivity].
    rewrite IH. now replace (S i + length as1)%nat with (i + S (length as1))%nat by lia.
Qed.

Lemma scalarAnswers_app f size xs ys mem :
  scalarAnswers f size (xs ++ ys) mem =
  (fst (scalarAnswers f size xs mem) ++
   fst (scalarAnswers f size ys (snd (scalarAnswers f size xs mem))),
   snd (scalarAnswers f size ys (snd (scalarAnswers f size xs mem)))).
Proof.
  revert mem. induction xs as [| x xs IH]; intros mem; simpl.
  - now destruct (scalarAnswers f size ys mem).
  - now rewrite IH.
Qed.

Lemma scalarAnswers_length f size xs mem :
  length (fst (scalarAnswers f size xs mem)) = length xs.
Proof.
  revert mem. induction xs as [| x xs IH]; intros mem; simpl; [reflexivity |].
  now rewrite IH.
Qed.

Lemma separateVectorLoop_placeAll steps :
  forall i b,
    (i + steps <= length (ttt b))%nat ->
    separateVectorLoop steps i b = placeAll (take steps (drop i (ttt b))) i b.
Proof.
  induction steps as [| steps IH]; intros i b Hlen; [reflexivity |].
  destruct (lookup_lt_is_Some_2 (ttt b) i ltac:(lia)) as [a Ha].
  cbn [separateVectorLoop]. rewrite Ha. cbn [mbind option_bind].
  rewrite (drop_S _ _ _ Ha). cbn [take placeAll].
  destruct (separatePlace a i b) as [b' |] eqn:Hp; cbn [mbind option_bind]; [| reflexivity].
  destruct (separatePlace_keeps _ _ _ _ Hp) as (_ & Hmask & _).
  rewrite IH by (rewrite Hmask; lia). now rewrite Hmask.
Qed.

Lemma separateScalarLoop_placeAll f size (zs : list Z) :
  forall i b mem y rest,
    drop i (s_bufsIn b) = zs ++ y :: rest ->
    separateScalarLoop f size (length zs) i (Packet.ExtractPacketAddr size (hd y zs)) b mem =
    b' ← placeAll (fst (scalarAnswers f size zs mem)) i b;
    Some (Packet.ExtractPacketAddr size y, b', snd (scalarAnswers f size zs mem)).
Proof.
  induction zs as [| z zs IH]; intros i b mem y rest Hdrop; [reflexivity |].
  simpl in Hdrop. apply drop_head in Hdrop as [Hz Hdrop].
  assert (Hnext : s_bufsIn b !! S i = Some (hd y zs)).
  { rewrite <- (Nat.add_0_r (S i)), <- lookup_drop, Hdrop. now destruct zs. }
  cbn [length separateScalarLoop scalarAnswers hd fst snd placeAll].
  rewrite Hnext. cbn [mbind option_bind].
  destruct (separatePlace (f (Packet.ExtractPacketAddr size z) mem).1 i b) as [b1 |] eqn:Hp;
    cbn [mbind option_bind]; [| reflexivity].
  destruct (separatePlace_keeps _ _ _ _ Hp) as (Hin & _ & _).
  apply IH with (rest := rest). now rewrite Hin.
Qed.

Lemma ExtractPackets_spec size steps :
  forall i packets IN,
    (i + steps <= length IN)%nat -> (i + steps <= length packets)%nat ->
    ExtractPackets size packets IN steps i =
    Some (take i packets ++ map (Packet.ExtractPacket size) (take steps (drop i IN)) ++
          drop (i + steps) packets).
Proof.
  induction steps as [| steps IH]; intros i packets IN HIN Hp.
  - simpl. now rewrite Nat.add_0_r, take_drop.
  - destruct (lookup_lt_is_Some_2 IN i ltac:(lia)) as [x Hx].
    cbn [ExtractPackets]. rewrite Hx. cbn [mbind option_bind].
    unfold store. rewrite decide_True by lia. cbn [mbind option_bind].
    rewrite IH by (rewrite ?length_insert; lia).
    rewrite (drop_S _ _ _ Hx). cbn [take map].
    rewrite (take_S_r _ _ (Packet.ExtractPacket size x))
      by (apply list_lookup_insert_eq; lia).
    rewrite take_insert_ge by lia.
    rewrite drop_insert_lt by lia.
    rewrite <- app_assoc. cbn [app].
    now replace (S i + steps)%nat with (i + S steps)%nat by lia.
Qed.

Lemma separateScalar_placeAll f size (burst rest : list Z) b mem :
  burst <> [] ->
  s_bufsIn b = burst ++ rest ->
  separateScalar f size (length burst) b mem =
  b' ← placeAll (fst (scalarAnswers f size burst mem)) 0 b;
  Some (b', snd (scalarAnswers f size burst mem)).
Proof.
  intros Hne Hin.
  destruct (exists_last Hne) as (zs & y & ->).
  unfold separateScalar.
  assert (Hfirst : s_bufsIn b !! 0%nat = Some (hd y zs)).
  { rewrite Hin. now destruct zs. }
  rewrite Hfirst. cbn [mbind option_bind].
  rewrite length_app. cbn [length].
  replace (length zs + 1 - 1)%nat with (length zs) by lia.
  rewrite (separateScalarLoop_placeAll f size zs 0 b mem y rest)
    by (rewrite drop_0, Hin, <- app_assoc; reflexivity).
  rewrite scalarAnswers_app. cbn [fst snd]. rewrite placeAll_app.
  cbn [fst snd scalarAnswers].
  destruct (placeAll (scalarAnswers f size zs mem).1 0 b) as [b1 |];
    cbn [mbind option_bind fst snd]; [| reflexivity].
  rewrite scalarAnswers_length. cbn [placeAll Nat.add].
  destruct (separatePlace _ (length zs) b1); reflexivity.
Qed.

(** C7. For a burst of [n] packets, with the scalar or the vector function,
    [separate] leaves the packets answered false at the head of [bufsFalse]
    and those answered true at the head of [bufsTrue], each in the order of
    the burst, and every packet is in one of the two. *)
Theorem separate_splits_burst
  (sf : option SeparateFunction) (vsf : option VectorSeparateFunction) (size : Z)
  (burst : list Z) (b : separateBuffers) (mem : Memory) :
  let n := length burst in
  let b0 := mkSeparateBuffers (dequeued burst (s_bufsIn b)) (s_bufsTrue b)
              (s_bufsFalse b) (ttt b) (s_countOfPackets b) (s_tempPackets b) in
  let answers := fst (separateAnswers sf vsf size burst b mem) in
  (1 <= n)%nat ->
  (n <= length (s_bufsTrue b))%nat -> (n <= length (s_bufsFalse b))%nat ->
  (n <= length (s_tempPackets b))%nat ->
  (vsf = None -> is_Some sf) ->
  (forall vf, vsf = Some vf ->
     (n <= length (fst (vf (extracted size burst (s_tempPackets b)) (ttt b)
                          (Z.of_nat n) mem)))%nat) ->
  exists b' : separateBuffers,
    separateWork sf vsf size n b0 mem =
      Some (b', snd (separateAnswers sf vsf size burst b mem)) /\
    length answers = n /\
    s_countOfPackets b' = length (chosen false burst answers) /\
    take (s_countOfPackets b') (s_bufsFalse b') = chosen false burst answers /\
    take (n - s_countOfPackets b') (s_bufsTrue b') = chosen true burst answers /\
    (length (chosen true burst answers) + length (chosen false burst answers) = n)%nat.
Proof.
  intros n b0 answers Hn Ht Hf Hp Hscalar Hvector. subst n b0.
  assert (Hne : burst <> []) by (intros ->; simpl in *; lia).
  assert (Hlen : length answers = length burst).
  { subst answers. unfold separateAnswers.
    destruct vsf as [vf |]; [| destruct (Hscalar eq_refl) as [f ->]].
    - cbn [fst]. rewrite length_take. specialize (Hvector vf eq_refl). lia.
    - apply scalarAnswers_length. }
  assert (Hplace : forall b1 : separateBuffers,
             s_bufsIn b1 = dequeued burst (s_bufsIn b) ->
             s_bufsTrue b1 = s_bufsTrue b -> s_bufsFalse b1 = s_bufsFalse b ->
             s_countOfPackets b1 = 0%nat ->
             exists b', placeAll answers 0 b1 = Some b' /\
               s_countOfPackets b' = length (chosen false burst answers) /\
               take (s_countOfPackets b') (s_bufsFalse b') = chosen false burst answers /\
               take (length burst - s_countOfPackets b') (s_bufsTrue b') =
                 chosen true burst answers).
  { intros b1 H1 H2 H3 H4.
    destruct (placeAll_spec burst answers 0 b1 (drop (length burst) (s_bufsIn b)))
      as (b' & Hrun & Hcnt & HtF & HtT);
      rewrite ?H1, ?H2, ?H3, ?H4; try (assumption || lia || reflexivity).
    rewrite H4 in *. cbn [take app Nat.add Nat.sub] in *.
    exists b'. repeat split; assumption. }
  unfold separateWork.
  destruct vsf as [vf |].
  - unfold separateVector.
    cbn [s_bufsIn s_bufsTrue s_bufsFalse ttt s_countOfPackets s_tempPackets].
    rewrite ExtractPackets_spec
      by (unfold dequeued; rewrite ?length_app, ?length_drop; lia).
    cbn [mbind option_bind Nat.add].
    assert (Hpk : take 0 (s_tempPackets b) ++
                  map (Packet.ExtractPacket size)
                    (take (length burst) (drop 0 (dequeued burst (s_bufsIn b)))) ++
                  drop (length burst) (s_tempPackets b) = extracted size burst (s_tempPackets b)).
    { unfold extracted, dequeued. rewrite take_0, drop_0.
      now rewrite take_app_length. }
    rewrite Hpk.
    rewrite separateVectorLoop_placeAll
      by (cbn [ttt]; specialize (Hvector vf eq_refl); simpl; lia).
    cbn [ttt]. rewrite drop_0.
    destruct (Hplace (mkSeparateBuffers (dequeued burst (s_bufsIn b)) (s_bufsTrue b)
                        (s_bufsFalse b)
                        (vf (extracted size burst (s_tempPackets b)) (ttt b)
                            (Z.of_nat (length burst)) mem).1 0
                        (extracted size burst (s_tempPackets b))))
      as (b' & Hrun & Hrest); try reflexivity.
    exists b'. subst answers. unfold separateAnswers in *. cbn [fst snd] in *.
    rewrite Hrun. cbn [mbind option_bind].
    split; [reflexivity |]. split; [exact Hlen |].
    destruct Hrest as (H1 & H2 & H3). repeat split; try assumption.
    apply chosen_lengths. exact Hlen.
  - destruct (Hscalar eq_refl) as [f ->].
    cbn [mbind option_bind s_bufsIn s_bufsTrue s_bufsFalse ttt s_countOfPackets
           s_tempPackets].
    rewrite (separateScalar_placeAll f size burst (drop (length burst) (s_bufsIn b)))
      by (assumption || reflexivity).
    destruct (Hplace (mkSeparateBuffers (dequeued burst (s_bufsIn b)) (s_bufsTrue b)
                        (s_bufsFalse b) (ttt b) 0 (s_tempPackets b)))
      as (b' & Hrun & Hrest); try reflexivity.
    exists b'. subst answers. unfold separateAnswers in *. cbn [fst snd] in *.
    rewrite Hrun. cbn [mbind option_bind].
    split; [reflexivity |]. split; [exact Hlen |].
    destruct Hrest as (H1 & H2 & H3). repeat split; try assumption.
    apply chosen_lengths. exact Hlen.
Qed.

Lemma separate_splits_burst_witness :
  exists b' : separateBuffers,
    separateWork (Some evenAddress) None 128 5
      (mkSeparateBuffers (dequeued [1; 2; 3; 4; 5] (replicate 8 0)) (replicate 8 0)
         (replicate 8 0) (replicate 8 false) 0 (replicate 8 0)) zeroMemory =
      Some (b', zeroMemory) /\
    take (s_countOfPackets b') (s_bufsFalse b') = [1; 3; 5] /\
    take (5 - s_countOfPackets b') (s_bufsTrue b') = [2; 4].
Proof.
  destruct (separate_splits_burst (Some evenAddress) None 128 [1; 2; 3; 4; 5]
              (buffers (separateStart 8)) zeroMemory)
    as (b' & Hrun & Hlen & Hc & Hf & Ht & Hsum).
  - simpl. lia.
  - simpl. lia.
  - simpl. lia.
  - simpl. lia.
  - eauto.
  - discriminate.
  - exists b'. split; [exact Hrun |]. split; [exact Hf | exact Ht].
Defined.

End Separate.

(** ** Replica loops *)

Section Replicas.



















End Replicas.

(** ** Merge *)

Section Merge.

(** C2, on a reader. [SetReader] registers a reader that writes to ring 1;
    after [SetMerger] on its flow the flow returned is over the new ring 2,
    and the reader still writes to ring 1. *)
Theorem merge_leaves_reader_output :
  let before := stateAfter [CallSetReader "in.pcap" 1] started in
  let after := stateAfter readerGraph started in
  flows before = [Some 1%nat] /\
  map (fun ff => outputs (Parameters ff)) (UnClonable (schedState before)) = [[1%nat]] /\
  build readerGraph started = Ok (tt, after) /\
  flows after = [None; Some 2%nat] /\
  map (fun ff => (uncFunction ff, outputs (Parameters ff))) (UnClonable (schedState after))
    = [(body_read, [1%nat])].
Proof.
  cbv zeta.
  split; [vm_compute; reflexivity |].
  split; [vm_compute; reflexivity |].
  split; [vm_compute; reflexivity |].
  split; vm_compute; reflexivity.
Qed.

End Merge.

(** * Further properties *)

Import Packet Checksum Capsule Wiring.

(** ** Checksums *)

Section Checksums.

Lemma lor_shiftl_add lo hi k :
  0 <= k -> 0 <= lo < 2 ^ k -> Z.lor lo (Z.shiftl hi k) = lo + hi * 2 ^ k.
Proof.
  intros Hk Hlo.
  assert (Hland : Z.land lo (Z.shiftl hi k) = 0).
  { apply Z.bits_inj'. intros i Hi. rewrite Z.land_spec, Z.bits_0.
    destruct (Z.ltb_spec i k) as [Hlt | Hge].
    - rewrite Z.shiftl_spec_low by lia. apply andb_false_r.
    - rewrite (uint_testbit_high k lo i) by (unfold is_uint; lia). reflexivity. }
  rewrite <- Z.lxor_lor by exact Hland.
  rewrite <- Z.add_nocarry_lxor by exact Hland.
  now rewrite Z.shiftl_mul_pow2 by lia.
Qed.

Lemma load8_range mem a : 0 <= load8 mem a < 256.
Proof. unfold load8, wrap8. apply (wrap_range 8). lia. Qed.

Lemma load16_bytes mem a : load16 mem a = load8 mem a + load8 mem (a + 1) * 256.
Proof.
  unfold load16. rewrite lor_shiftl_add; [reflexivity | lia |].
  apply load8_range.
Qed.

Lemma load16_range mem a : 0 <= load16 mem a < 65536.
Proof.
  rewrite load16_bytes.
  pose proof (load8_range mem a). pose proof (load8_range mem (a + 1)). lia.
Qed.

Lemma load32_bytes mem a :
  load32 mem a = load16 mem a + load16 mem (a + 2) * 65536.
Proof.
  unfold load32. rewrite lor_shiftl_add; [reflexivity | lia |].
  apply load16_range.
Qed.

(** Swapping the bytes of a word built from two bytes. *)
Lemma SwapBytesUint16_bytes lo hi :
  0 <= lo < 256 -> 0 <= hi < 256 ->
  SwapBytesUint16 (lo + hi * 256) = lo * 256 + hi.
Proof.
  intros Hlo Hhi. unfold SwapBytesUint16, wrap16, wrap.
  rewrite Z.shiftl_mul_pow2, Z.shiftr_div_pow2 by lia.
  replace ((lo + hi * 256) / 2 ^ 8) with hi
    by (change (2 ^ 8) with 256; apply Z.div_unique with lo; lia).
  replace (((lo + hi * 256) * 2 ^ 8) mod 2 ^ 16) with (lo * 256).
  2:{ change (2 ^ 8) with 256. change (2 ^ 16) with 65536.
      apply Z.mod_unique with hi; lia. }
  rewrite Z.lor_comm.
  replace (lo * 256) with (Z.shiftl lo 8) by (rewrite Z.shiftl_mul_pow2; lia).
  rewrite lor_shiftl_add, ?Z.shiftl_mul_pow2; change (2 ^ 8) with 256; lia.
Qed.

Lemma swap_load16 mem a :
  SwapBytesUint16 (load16 mem a) = load8 mem a * 256 + load8 mem (a + 1).
Proof.
  rewrite load16_bytes. apply SwapBytesUint16_bytes; apply load8_range.
Qed.

Lemma folded_range s : 0 <= s -> 0 <= folded s <= 0xffff.
Proof.
  intros Hs. unfold folded. destruct (Z.eqb_spec s 0); [lia |].
  pose proof (Z.mod_pos_bound (s - 1) 0xffff). lia.
Qed.

Lemma folded_small s : 0 <= s <= 0xffff -> folded s = s.
Proof.
  intros Hs. unfold folded. destruct (Z.eqb_spec s 0); [lia |].
  rewrite Z.mod_small by lia. lia.
Qed.

Lemma folded_step s :
  0xffff < s -> folded (s / 65536 + s mod 65536) = folded s.
Proof.
  intros Hs. unfold folded.
  pose proof (Z.div_mod s 65536 ltac:(lia)) as Hdm.
  pose proof (Z.mod_pos_bound s 65536 ltac:(lia)) as Hm.
  assert (Hq : 1 <= s / 65536) by (apply Z.div_le_lower_bound; lia).
  destruct (Z.eqb_spec (s / 65536 + s mod 65536) 0); [lia |].
  destruct (Z.eqb_spec s 0); [lia |].
  f_equal.
  replace (s - 1) with (s / 65536 + s mod 65536 - 1 + (s / 65536) * 0xffff) by lia.
  now rewrite Z.mod_add by lia.
Qed.

Lemma reduce_step s :
  is_uint 32 s ->
  add32 (Z.shiftr s 16) (Z.land s 0xffff) = s / 65536 + s mod 65536.
Proof.
  intros [Hlo Hhi]. unfold add32.
  rewrite Z.shiftr_div_pow2 by lia. change 0xffff with (Z.ones 16).
  rewrite Z.land_ones by lia. change (2 ^ 16) with 65536.
  pose proof (Z.mod_pos_bound s 65536 ltac:(lia)).
  assert (0 <= s / 65536 < 65536).
  { split; [apply Z.div_pos; lia | apply Z.div_lt_upper_bound; lia]. }
  apply wrap_small. lia.
Qed.

Lemma reduceLoop_folded fuel s :
  is_uint 32 s -> reduceLoop (S (S fuel)) s = Some (folded s).
Proof.
  intros Hs. pose proof Hs as [Hlo Hhi].
  assert (Hend : forall f x, 0 <= x <= 0xffff -> reduceLoop f x = Some (folded x)).
  { intros f x Hx. destruct f; simpl;
      (destruct (Z.ltb_spec 0xffff x); [lia |]);
      rewrite folded_small by lia; f_equal; apply (wrap_small 16); lia. }
  destruct (Z_le_gt_dec s 0xffff) as [Hsmall | Hbig]; [apply Hend; lia |].
  cbn [reduceLoop]. destruct (Z.ltb_spec 0xffff s); [| lia].
  rewrite reduce_step by exact Hs.
  rewrite <- (folded_step s) by lia.
  set (s1 := s / 65536 + s mod 65536).
  pose proof (Z.mod_pos_bound s 65536 ltac:(lia)) as Hm.
  assert (Hq : 1 <= s / 65536 < 65536).
  { split; [apply Z.div_le_lower_bound; lia | apply Z.div_lt_upper_bound; lia]. }
  destruct (Z.ltb_spec 0xffff s1) as [Hbig1 | Hsmall1].
  - assert (Hs1 : is_uint 32 s1) by (unfold is_uint, s1; lia).
    destruct fuel.
    + rewrite reduce_step by exact Hs1. rewrite <- (folded_step s1) by lia.
      apply Hend.
      assert (s1 / 65536 = 1).
      { symmetry. apply Z.div_unique with (s1 - 65536); unfold s1; lia. }
      pose proof (Z.div_mod s1 65536 ltac:(lia)). unfold s1 in *. lia.
    + rewrite reduce_step by exact Hs1. rewrite <- (folded_step s1) by lia.
      apply Hend.
      assert (s1 / 65536 = 1).
      { symmetry. apply Z.div_unique with (s1 - 65536); unfold s1; lia. }
      pose proof (Z.div_mod s1 65536 ltac:(lia)). unfold s1 in *. lia.
  - rewrite folded_small by (unfold s1; lia). f_equal. apply (wrap_small 16).
    unfold s1 in *. lia.
Qed.

(** X1. The folding loop ends within two turns on every 32-bit sum; it
    returns a 16-bit value congruent to the sum modulo [0xffff], which is
    zero only for the sum zero. *)
Theorem reduceChecksum_folds (sum : Z) :
  is_uint 32 sum ->
  exists r,
    reduceLoop 2 sum = Some r /\ reduceChecksum sum = Some r /\
    0 <= r <= 0xffff /\ r mod 0xffff = sum mod 0xffff /\ (r = 0 <-> sum = 0).
Proof.
  intros Hs. exists (folded sum). pose proof Hs as [Hlo Hhi].
  split; [now apply reduceLoop_folded |].
  split; [now apply (reduceLoop_folded 30) |].
  split; [now apply folded_range |].
  unfold folded. destruct (Z.eqb_spec sum 0) as [-> | Hne]; [split; [reflexivity | tauto] |].
  pose proof (Z.mod_pos_bound (sum - 1) 0xffff ltac:(lia)) as Hm.
  split; [| lia].
  pose proof (Z.div_mod (sum - 1) 0xffff ltac:(lia)) as Hdm.
  replace sum with ((sum - 1) mod 0xffff + 1 + (sum - 1) / 0xffff * 0xffff) at 2 by lia.
  now rewrite Z.mod_add by lia.
Qed.

Lemma reduceChecksum_folds_witness :
  is_uint 32 0xfffffffe /\
  exists r,
    reduceLoop 2 0xfffffffe = Some r /\ reduceChecksum 0xfffffffe = Some r /\
    0 <= r <= 0xffff /\ r mod 0xffff = 0xfffffffe mod 0xffff /\ (r = 0 <-> 0xfffffffe = 0).
Proof.
  split; [unfold is_uint; lia |].
  apply (reduceChecksum_folds 0xfffffffe). unfold is_uint. lia.
Defined.

End Checksums.

Section DataChecksum.

Lemma load8_wrap mem a i : load8 mem (wrap64 a + i) = load8 mem (a + i).
Proof.
  unfold load8. do 2 f_equal. unfold wrap64, wrap.
  now rewrite Zplus_mod_idemp_l.
Qed.

Lemma region_cons mem a n :
  region mem a (S n) = load8 mem a :: region mem (a + 1) n.
Proof.
  unfold region. cbn [seq map]. rewrite Z.add_0_r. f_equal.
  rewrite <- seq_shift, map_map. apply map_ext. intros i.
  f_equal. lia.
Qed.

Lemma region_length mem a n : length (region mem a n) = n.
Proof. unfold region. now rewrite length_map, length_seq. Qed.

Lemma region_app mem a n m :
  region mem a (n + m) = region mem a n ++ region mem (a + Z.of_nat n) m.
Proof.
  revert a. induction n as [| n IH]; intros a.
  - cbn. now rewrite Z.add_0_r.
  - cbn [Nat.add]. rewrite !region_cons, IH. cbn [app]. do 3 f_equal. lia.
Qed.

Lemma region_wrap mem a n : region mem (wrap64 a) n = region mem a n.
Proof. unfold region. apply map_ext. intros i. apply load8_wrap. Qed.

Lemma total_app l1 l2 : total (l1 ++ l2) = total l1 + total l2.
Proof. unfold total. induction l1 as [| x l1 IH]; cbn; [reflexivity | rewrite IH; lia]. Qed.

Lemma beWords_app_even l1 l2 :
  Nat.Even (length l1) -> beWords (l1 ++ l2) = beWords l1 ++ beWords l2.
Proof.
  revert l1. fix IH 1. intros [| hi [| lo rest]] Hev.
  - reflexivity.
  - destruct Hev as [k Hk]. cbn in Hk. lia.
  - cbn [app beWords]. f_equal. apply IH.
    destruct Hev as [k Hk]. cbn in Hk. exists (k - 1)%nat. lia.
Qed.

Lemma beWords_bound l :
  Forall (fun b => 0 <= b < 256) l ->
  0 <= total (beWords l) <= 65535 * ((Z.of_nat (length l) + 1) / 2).
Proof.
  revert l. fix IH 1. intros [| hi [| lo rest]] Hall.
  - cbn [beWords total fold_right length]. change ((Z.of_nat 0 + 1) / 2) with 0. lia.
  - apply Forall_cons in Hall as [Hhi _].
    cbn [beWords total fold_right length]. change ((Z.of_nat 1 + 1) / 2) with 1. lia.
  - apply Forall_cons in Hall as [Hhi Hall]. apply Forall_cons in Hall as [Hlo Hall].
    specialize (IH rest Hall). cbn [beWords total fold_right length] in *.
    fold (total (beWords rest)) in *.
    replace (Z.of_nat (S (S (length rest))) + 1) with (Z.of_nat (length rest) + 1 + 1 * 2) by lia.
    rewrite Z.div_add by lia. lia.
Qed.

Lemma region_bytes mem a n : Forall (fun b => 0 <= b < 256) (region mem a n).
Proof.
  unfold region. apply Forall_map. apply Forall_forall. intros i _.
  apply load8_range.
Qed.

Lemma sumWords_spec mem uptr n i acc :
  sumWords mem uptr n i acc =
  fold_left add32 (beWords (region mem (uptr + 2 * i) (2 * n))) acc.
Proof.
  revert i acc. induction n as [| n IH]; intros i acc; [reflexivity |].
  cbn [sumWords]. rewrite IH.
  replace (2 * S n)%nat with (S (S (2 * n))) by lia.
  rewrite !region_cons. cbn [beWords fold_left].
  rewrite swap_load16. do 3 f_equal; lia.
Qed.

Lemma fold_add32 l acc :
  fold_left add32 l (wrap32 acc) = wrap32 (acc + total l).
Proof.
  revert acc. induction l as [| x l IH]; intros acc; cbn.
  - now rewrite Z.add_0_r.
  - change (add32 (wrap32 acc) x) with (wrap 32 (wrap 32 acc + x)).
    rewrite wrap_add_l. change (wrap 32 (acc + x)) with (wrap32 (acc + x)).
    rewrite IH. f_equal. unfold total. lia.
Qed.

Lemma add32_wrap a b : add32 (wrap32 a) (wrap32 b) = wrap32 (a + b).
Proof. unfold add32, wrap32, wrap. now rewrite <- Zplus_mod. Qed.

Lemma fold_add32_0 l : fold_left add32 l 0 = wrap32 (total l).
Proof. exact (fold_add32 l 0). Qed.

Lemma calculateDataChecksum_total mem ptr length offset :
  0 <= length <= 2 ^ 31 ->
  calculateDataChecksum mem ptr length offset =
  Some (wrap32 (total (beWords (region mem (ptr + offset) (Z.to_nat length))))).
Proof.
  intros Hlen. unfold calculateDataChecksum.
  rewrite Z.quot_div_nonneg by lia.
  assert (Hhalf : 0 <= length / 2 <= 2 ^ 30).
  { split; [apply Z.div_pos; lia |]. apply Z.div_le_upper_bound; lia. }
  destruct (decide (0 <= length / 2 <= 2 ^ 30)) as [_ | Hno]; [| tauto].
  rewrite sumWords_spec, fold_add32_0, Z.mul_0_r, Z.add_0_r, region_wrap.
  assert (Hland : Z.land length 1 = length mod 2)
    by (change 1 with (Z.ones 1); now rewrite Z.land_ones by lia).
  rewrite Hland.
  pose proof (Z.div_mod length 2 ltac:(lia)) as Hdm.
  pose proof (Z.mod_pos_bound length 2 ltac:(lia)) as Hm.
  destruct (Z.eqb_spec (length mod 2) 0) as [Heven | Hodd].
  - replace (2 * Z.to_nat (length / 2))%nat with (Z.to_nat length) by lia.
    reflexivity.
  - replace (Z.to_nat length) with (2 * Z.to_nat (length / 2) + 1)%nat by lia.
    rewrite region_app, beWords_app_even
      by (rewrite region_length; exists (Z.to_nat (length / 2)); lia).
    rewrite total_app. cbn [region seq map beWords total fold_right].
    unfold add32, wrap32 at 1. rewrite wrap_add_l.
    unfold wrap64. rewrite (wrap_small 64 (length - 1)) by lia.
    fold wrap64.
    rewrite load8_wrap. rewrite Z.shiftl_mul_pow2 by lia. change (2 ^ 8) with 256.
    pose proof (load8_range mem (ptr + offset + (length - 1))).
    unfold wrap32.
    rewrite (wrap_small 32 (load8 mem (ptr + offset + (length - 1)) * 256)) by lia.
    do 2 f_equal.
    replace (ptr + offset + Z.of_nat (2 * Z.to_nat (length / 2)) + Z.of_nat 0)
      with (ptr + offset + (length - 1)) by lia.
    lia.
Qed.

(** X2. The data checksum of [length] bytes is the sum, modulo [2^32], of
    their 16-bit words read high byte first, a last odd byte counting as
    the high byte of a word; up to [2^17] bytes the 32-bit sum does not
    wrap. *)
Theorem calculateDataChecksum_sums_words (mem : Bytes) (ptr length offset : Z) :
  0 <= length <= 2 ^ 31 ->
  let words := beWords (region mem (ptr + offset) (Z.to_nat length)) in
  calculateDataChecksum mem ptr length offset = Some (wrap32 (total words)) /\
  (length <= 2 ^ 17 -> wrap32 (total words) = total words).
Proof.
  intros Hlen words. split; [now apply calculateDataChecksum_total |].
  intros Hsmall. apply (wrap_small 32).
  pose proof (beWords_bound _ (region_bytes mem (ptr + offset) (Z.to_nat length))) as Hb.
  rewrite region_length in Hb. fold words in Hb.
  assert ((Z.of_nat (Z.to_nat length) + 1) / 2 < 2 ^ 16 + 1).
  { apply Z.div_lt_upper_bound; lia. }
  lia.
Qed.

Lemma calculateDataChecksum_sums_words_witness :
  0 <= 3 <= 2 ^ 31 /\
  calculateDataChecksum (fun a => a + 1) 0 3 0 = Some 0x0402.
Proof.
  split; [lia |].
  pose proof (calculateDataChecksum_sums_words (fun a => a + 1) 0 3 0 ltac:(lia)) as [H _].
  exact H.
Defined.

(** X3. A region cut at an even offset: the checksum of the whole is the
    32-bit sum of the checksums of the two parts. *)
Theorem calculateDataChecksum_splits (mem : Bytes) (ptr n1 n2 offset : Z) :
  0 <= n1 -> 0 <= n2 -> n1 + n2 <= 2 ^ 31 -> n1 mod 2 = 0 ->
  exists a b,
    calculateDataChecksum mem ptr n1 offset = Some a /\
    calculateDataChecksum mem (ptr + n1) n2 offset = Some b /\
    calculateDataChecksum mem ptr (n1 + n2) offset = Some (add32 a b).
Proof.
  intros H1 H2 Hsum Heven.
  rewrite !calculateDataChecksum_total by lia.
  eexists _, _. split; [reflexivity |]. split; [reflexivity |]. f_equal.
  replace (Z.to_nat (n1 + n2)) with (Z.to_nat n1 + Z.to_nat n2)%nat by lia.
  rewrite region_app, beWords_app_even, total_app.
  - rewrite add32_wrap. do 5 f_equal. lia.
  - rewrite region_length. exists (Z.to_nat (n1 / 2)).
    pose proof (Z.div_mod n1 2 ltac:(lia)). lia.
Qed.

Lemma calculateDataChecksum_splits_witness :
  exists a b,
    calculateDataChecksum (fun a => a + 1) 0 2 0 = Some a /\
    calculateDataChecksum (fun a => a + 1) (0 + 2) 3 0 = Some b /\
    calculateDataChecksum (fun a => a + 1) 0 (2 + 3) 0 = Some (add32 a b).
Proof.
  apply (calculateDataChecksum_splits (fun a => a + 1) 0 2 3 0); [lia | lia | lia | reflexivity].
Defined.

End DataChecksum.

Section HeaderChecksum.

Lemma load8_store8 mem a v x :
  load8 (store8 mem a v) x =
  if wrap64 x =? wrap64 a then wrap8 v else load8 mem x.
Proof.
  unfold load8, store8. destruct (Z.eqb_spec (wrap64 x) (wrap64 a)); [| reflexivity].
  unfold wrap8, wrap. apply Z.mod_mod. lia.
Qed.

Lemma wrap64_small a : 0 <= a < 2 ^ 64 -> wrap64 a = a.
Proof. apply (wrap_small 64). Qed.

Lemma load8_store16_outside mem a v x :
  0 <= a -> a + 2 <= 2 ^ 64 -> 0 <= x < 2 ^ 64 -> x <> a -> x <> a + 1 ->
  load8 (store16 mem a v) x = load8 mem x.
Proof.
  intros Ha Ha2 Hx H0 H1. unfold store16. rewrite !load8_store8.
  rewrite !wrap64_small by lia.
  destruct (Z.eqb_spec x (a + 1)); [lia |].
  destruct (Z.eqb_spec x a); [lia | reflexivity].
Qed.

Lemma region_store16_outside mem a v x n :
  0 <= a -> a + 2 <= 2 ^ 64 -> 0 <= x -> x + Z.of_nat n <= 2 ^ 64 ->
  x + Z.of_nat n <= a \/ a + 2 <= x ->
  region (store16 mem a v) x n = region mem x n.
Proof.
  intros Ha Ha2 Hx Hxn Hout. unfold region. apply map_ext_in. intros i Hi.
  apply in_seq in Hi. apply load8_store16_outside; lia.
Qed.

Lemma region_store16_at mem a v :
  0 <= a -> a + 2 <= 2 ^ 64 ->
  region (store16 mem a v) a 2 = [wrap8 v; wrap8 (Z.shiftr v 8)].
Proof.
  intros Ha Ha2. unfold region. cbn [seq map]. unfold store16.
  rewrite !load8_store8. change (Z.of_nat 0) with 0. change (Z.of_nat 1) with 1.
  rewrite Z.add_0_r.
  rewrite !wrap64_small by lia.
  destruct (Z.eqb_spec a (a + 1)); [lia |].
  rewrite !Z.eqb_refl. reflexivity.
Qed.

Lemma not16_sub x : 0 <= x <= 0xffff -> not16 x = 0xffff - x.
Proof.
  intros Hx. unfold not16. change 0xffff with (Z.ones 16).
  rewrite (Z.sub_nocarry_ldiff (Z.ones 16) x).
  - apply Z.bits_inj'. intros i Hi.
    rewrite Z.lxor_spec, Z.ldiff_spec.
    destruct (Z.ltb_spec i 16).
    + rewrite Z.ones_spec_low by lia. now rewrite xorb_true_r.
    + rewrite Z.ones_spec_high by lia.
      rewrite (uint_testbit_high 16 x i) by (unfold is_uint; lia). reflexivity.
  - apply Z.bits_inj'. intros i Hi. rewrite Z.ldiff_spec, Z.bits_0.
    destruct (Z.ltb_spec i 16).
    + rewrite Z.ones_spec_low by lia. apply andb_false_r.
    + rewrite (uint_testbit_high 16 x i) by (unfold is_uint; lia). reflexivity.
Qed.

(** The word that the two bytes of a stored, byte-swapped 16-bit value
    make when they are read high byte first. *)
Lemma stored_swapped_word c :
  0 <= c <= 0xffff ->
  wrap8 (SwapBytesUint16 c) * 256 + wrap8 (Z.shiftr (SwapBytesUint16 c) 8) = c.
Proof.
  intros Hc.
  pose proof (Z.div_mod c 256 ltac:(lia)) as Hdm.
  pose proof (Z.mod_pos_bound c 256 ltac:(lia)) as Hm.
  assert (Hq : 0 <= c / 256 < 256).
  { split; [apply Z.div_pos; lia | apply Z.div_lt_upper_bound; lia]. }
  replace c with (c mod 256 + c / 256 * 256) at 1 2 by lia.
  rewrite SwapBytesUint16_bytes by lia.
  rewrite Z.shiftr_div_pow2 by lia. change (2 ^ 8) with 256.
  unfold wrap8, wrap. change (2 ^ 8) with 256.
  replace ((c mod 256 * 256 + c / 256) mod 256) with (c / 256).
  2:{ apply Z.mod_unique with (c mod 256); lia. }
  replace ((c mod 256 * 256 + c / 256) / 256) with (c mod 256).
  2:{ apply Z.div_unique with (c / 256); lia. }
  rewrite Z.mod_mod by lia. lia.
Qed.

Lemma add32_small a b : 0 <= a + b < 2 ^ 32 -> add32 a b = a + b.
Proof. apply (wrap_small 32). Qed.

Lemma shiftr_load32 mem a : wrap16 (Z.shiftr (load32 mem a) 16) = load16 mem (a + 2).
Proof.
  rewrite load32_bytes, Z.shiftr_div_pow2 by lia. change (2 ^ 16) with 65536.
  pose proof (load16_range mem a). pose proof (load16_range mem (a + 2)).
  replace ((load16 mem a + load16 mem (a + 2) * 65536) / 65536) with (load16 mem (a + 2)).
  2:{ apply Z.div_unique with (load16 mem a); lia. }
  apply (wrap_small 16). lia.
Qed.

Lemma low_load32 mem a : wrap16 (load32 mem a) = load16 mem a.
Proof.
  rewrite load32_bytes. unfold wrap16, wrap. change (2 ^ 16) with 65536.
  pose proof (load16_range mem a).
  rewrite Z.mod_add by lia. apply Z.mod_small. lia.
Qed.

Ltac norm_addr :=
  repeat match goal with
         | |- context [Z.of_nat ?n] =>
             let z := eval compute in (Z.of_nat n) in change (Z.of_nat n) with z
         end;
  repeat match goal with
         | |- context [load8 ?m (?h + ?x + ?y)] =>
             let z := eval compute in (x + y) in
             replace (h + x + y) with (h + z) by lia
         | |- context [load8 ?m (?h + 0)] => rewrite (Z.add_0_r h)
         end.

Lemma ipv4HeaderSum_words mem hdr :
  ipv4HeaderSum mem hdr =
  total (beWords (region mem hdr 10)) + total (beWords (region mem (hdr + 12) 8)).
Proof.
  unfold ipv4HeaderSum, VersionIhl, TypeOfService, TotalLength, PacketID,
    FragmentOffset, TimeToLive, NextProtoID, SrcAddr, DstAddr.
  rewrite !shiftr_load32, !low_load32, !swap_load16.
  rewrite !Z.shiftl_mul_pow2 by lia. change (2 ^ 8) with 256.
  unfold region. cbn [seq map beWords total fold_right].
  norm_addr.
  pose proof (load8_range mem hdr). pose proof (load8_range mem (hdr + 1)).
  pose proof (load8_range mem (hdr + 2)). pose proof (load8_range mem (hdr + 3)).
  pose proof (load8_range mem (hdr + 4)). pose proof (load8_range mem (hdr + 5)).
  pose proof (load8_range mem (hdr + 6)). pose proof (load8_range mem (hdr + 7)).
  pose proof (load8_range mem (hdr + 8)). pose proof (load8_range mem (hdr + 9)).
  pose proof (load8_range mem (hdr + 12)). pose proof (load8_range mem (hdr + 13)).
  pose proof (load8_range mem (hdr + 14)). pose proof (load8_range mem (hdr + 15)).
  pose proof (load8_range mem (hdr + 16)). pose proof (load8_range mem (hdr + 17)).
  pose proof (load8_range mem (hdr + 18)). pose proof (load8_range mem (hdr + 19)).
  unfold wrap32.
  rewrite (wrap_small 32 (load8 mem hdr * 256)) by lia.
  rewrite (wrap_small 32 (load8 mem (hdr + 8) * 256)) by lia.
  unfold add32, wrap32.
  repeat (progress (rewrite <- ?Z.add_assoc, ?wrap_add_l)).
  rewrite wrap_small by lia. lia.
Qed.

Lemma folded_complement s :
  0 <= s -> folded (s + (0xffff - folded s)) = 0xffff.
Proof.
  intros Hs. unfold folded at 2. destruct (Z.eqb_spec s 0) as [-> | Hne]; [reflexivity |].
  pose proof (Z.div_mod (s - 1) 0xffff ltac:(lia)) as Hdm.
  pose proof (Z.mod_pos_bound (s - 1) 0xffff ltac:(lia)) as Hm.
  assert (Hq : 0 <= (s - 1) / 0xffff) by (apply Z.div_pos; lia).
  replace (s + (0xffff - ((s - 1) mod 0xffff + 1)))
    with (((s - 1) / 0xffff + 1) * 0xffff) by lia.
  unfold folded. destruct (Z.eqb_spec (((s - 1) / 0xffff + 1) * 0xffff) 0); [lia |].
  replace (((s - 1) / 0xffff + 1) * 0xffff - 1)
    with (0xfffe + (s - 1) / 0xffff * 0xffff) by lia.
  rewrite Z.mod_add by lia. reflexivity.
Qed.

Lemma ipv4HeaderSum_range mem hdr : 0 <= ipv4HeaderSum mem hdr <= 9 * 0xffff.
Proof.
  rewrite ipv4HeaderSum_words.
  pose proof (beWords_bound _ (region_bytes mem hdr 10)) as H1.
  pose proof (beWords_bound _ (region_bytes mem (hdr + 12) 8)) as H2.
  rewrite region_length in H1, H2.
  change ((Z.of_nat 10 + 1) / 2) with 5 in H1.
  change ((Z.of_nat 8 + 1) / 2) with 4 in H2. lia.
Qed.

Lemma header_with_checksum_folds mem hdr :
  0 <= hdr -> hdr + 20 <= 2 ^ 64 ->
  reduceChecksum
    (wrap32 (total (beWords
       (region (store16 mem (hdr + 10)
                  (SwapBytesUint16 (not16 (folded (ipv4HeaderSum mem hdr))))) hdr 20)))) =
  Some 0xffff.
Proof.
  intros Hlo Hhi.
  pose proof (ipv4HeaderSum_range mem hdr) as Hsum.
  pose proof (folded_range (ipv4HeaderSum mem hdr) ltac:(lia)) as Hf.
  pose proof (not16_sub (folded (ipv4HeaderSum mem hdr)) ltac:(lia)) as Hc.
  rewrite (region_app _ hdr 10 10), (region_app _ (hdr + Z.of_nat 10) 2 8).
  rewrite region_store16_outside by lia.
  change (hdr + Z.of_nat 10) with (hdr + 10).
  rewrite region_store16_at by lia.
  replace (hdr + 10 + Z.of_nat 2) with (hdr + 12) by lia.
  rewrite region_store16_outside by lia.
  rewrite beWords_app_even by (rewrite region_length; exists 5%nat; lia).
  rewrite (beWords_app_even [_; _]) by (exists 1%nat; reflexivity).
  rewrite !total_app. cbn [beWords total fold_right].
  rewrite stored_swapped_word by lia.
  pose proof (ipv4HeaderSum_words mem hdr) as Hw.
  revert Hw Hc Hsum Hf.
  generalize (total (beWords (region mem hdr 10))).
  generalize (total (beWords (region mem (hdr + 12) 8))).
  generalize (not16 (folded (ipv4HeaderSum mem hdr))).
  intros c B A Hw Hc Hsum Hf.
  replace (A + (c + 0 + B))
    with (ipv4HeaderSum mem hdr + (0xffff - folded (ipv4HeaderSum mem hdr))) by lia.
  unfold wrap32. rewrite (wrap_small 32) by lia.
  unfold reduceChecksum. rewrite (reduceLoop_folded 30) by (unfold is_uint; lia).
  f_equal. apply folded_complement. lia.
Qed.

(** X4. The IPv4 header checksum verifies: once the checksum computed by
    [CalculateIPv4Checksum] is stored, bytes swapped, in the checksum
    field of the header (the assignment of the packet generators), the
    data checksum of the twenty bytes of the header folds to [0xffff]. *)
Theorem CalculateIPv4Checksum_verifies (mem : Bytes) (p : Packet) (hdr : Z) :
  GetIPv4 mem p = Some hdr -> 0 <= hdr -> hdr + 20 <= 2 ^ 64 ->
  exists c s,
    CalculateIPv4Checksum mem p = Some c /\
    calculateDataChecksum (store16 mem (hdr + 10) (SwapBytesUint16 c)) hdr 20 0 = Some s /\
    reduceChecksum s = Some 0xffff.
Proof.
  intros Hget Hlo Hhi.
  pose proof (ipv4HeaderSum_range mem hdr) as Hsum.
  assert (Hu : is_uint 32 (ipv4HeaderSum mem hdr)) by (unfold is_uint; lia).
  exists (not16 (folded (ipv4HeaderSum mem hdr))).
  exists (wrap32 (total (beWords
            (region (store16 mem (hdr + 10)
                       (SwapBytesUint16 (not16 (folded (ipv4HeaderSum mem hdr))))) hdr 20)))).
  split; [| split].
  - unfold CalculateIPv4Checksum. apply bind_Some. exists hdr. split; [exact Hget |].
    apply bind_Some. exists (folded (ipv4HeaderSum mem hdr)).
    split; [now apply (reduceLoop_folded 30) | reflexivity].
  - rewrite calculateDataChecksum_total by lia. rewrite Z.add_0_r. reflexivity.
  - now apply header_with_checksum_folds.
Qed.

End HeaderChecksum.

Section HeaderChecksumWitness.

Lemma CalculateIPv4Checksum_verifies_witness :
  let mem := fun a : Z => if a =? 12 then 8 else if a =? 13 then 0 else a in
  let p := mkPacket 14 34 54 0 0 in
  (GetIPv4 mem p = Some 14 /\ 0 <= 14 /\ 14 + 20 <= 2 ^ 64) /\
  exists c s,
    CalculateIPv4Checksum mem p = Some c /\
    calculateDataChecksum (store16 mem (14 + 10) (SwapBytesUint16 c)) 14 20 0 = Some s /\
    reduceChecksum s = Some 0xffff.
Proof.
  intros mem p. split.
  - split; [reflexivity | lia].
  - apply (CalculateIPv4Checksum_verifies mem p 14); [reflexivity | lia | lia].
Defined.

End HeaderChecksumWitness.

Section Addresses.

Ltac bit_cases :=
  repeat match goal with
         | |- context [Z.ltb ?a ?b] => destruct (Z.ltb_spec a b)
         | |- context [Z.leb ?a ?b] => destruct (Z.leb_spec a b)
         end;
  cbn [andb orb]; try lia.

Lemma byte_testbit_high x i : 0 <= x < 256 -> 8 <= i -> Z.testbit x i = false.
Proof. intros Hx Hi. apply (uint_testbit_high 8); [lia | exact Hx | exact Hi]. Qed.

Lemma IPv4_testbit a b c d i :
  0 <= a < 256 -> 0 <= b < 256 -> 0 <= c < 256 -> 0 <= d < 256 -> 0 <= i ->
  Z.testbit (IPv4 a b c d) i =
  if Z.ltb i 8 then Z.testbit a i
  else if Z.ltb i 16 then Z.testbit b (i - 8)
  else if Z.ltb i 24 then Z.testbit c (i - 16)
  else Z.testbit d (i - 24).
Proof.
  intros Ha Hb Hc Hd Hi. unfold IPv4, wrap32.
  rewrite !Z.lor_spec, !wrap_testbit, !Z.shiftl_spec by lia.
  bit_cases;
    rewrite ?(Z.testbit_neg_r d), ?(Z.testbit_neg_r c), ?(Z.testbit_neg_r b) by lia;
    rewrite ?(byte_testbit_high a), ?(byte_testbit_high b), ?(byte_testbit_high c),
      ?(byte_testbit_high d) by lia;
    cbn [orb]; rewrite ?orb_false_r; reflexivity.
Qed.

Lemma byteOf_testbit s k i :
  0 <= k -> 0 <= i -> Z.testbit (byteOf s k) i = (Z.ltb i 8 && Z.testbit s (i + k))%bool.
Proof.
  intros Hk Hi. unfold byteOf, wrap8. rewrite wrap_testbit, Z.shiftr_spec by lia.
  reflexivity.
Qed.

(** X5. [IPv4] packs the four bytes of an address with the first byte
    lowest, so that read through a little-endian load they are in network
    order: the byte conversions of [IPv4Hdr.String] give the four bytes
    back, and swapping the bytes of the packed value packs them in the
    opposite order. *)
Theorem IPv4_packs_bytes (a b c d : Z) :
  0 <= a < 256 -> 0 <= b < 256 -> 0 <= c < 256 -> 0 <= d < 256 ->
  is_uint 32 (IPv4 a b c d) /\
  byteOf (IPv4 a b c d) 0 = a /\ byteOf (IPv4 a b c d) 8 = b /\
  byteOf (IPv4 a b c d) 16 = c /\ byteOf (IPv4 a b c d) 24 = d /\
  SwapBytesUint32 (IPv4 a b c d) = IPv4 d c b a.
Proof.
  intros Ha Hb Hc Hd.
  assert (Hbyte : forall x k, 0 <= k -> (forall i, 0 <= i -> i < 8 ->
            Z.testbit (IPv4 a b c d) (i + k) = Z.testbit x i) ->
            0 <= x < 256 -> byteOf (IPv4 a b c d) k = x).
  { intros x k Hk Hbits Hx. apply Z.bits_inj'. intros i Hi.
    rewrite byteOf_testbit by lia.
    destruct (Z.ltb_spec i 8); cbn [andb]; [now apply Hbits |].
    symmetry. now apply byte_testbit_high. }
  split; [| split; [| split; [| split; [| split]]]].
  - apply is_uint_of_bits; [lia |]. intros i Hi.
    rewrite IPv4_testbit by lia. bit_cases. apply byte_testbit_high; lia.
  - apply Hbyte; [lia | | exact Ha]. intros i Hi Hi8.
    rewrite IPv4_testbit by lia. bit_cases. f_equal. lia.
  - apply Hbyte; [lia | | exact Hb]. intros i Hi Hi8.
    rewrite IPv4_testbit by lia. bit_cases. f_equal. lia.
  - apply Hbyte; [lia | | exact Hc]. intros i Hi Hi8.
    rewrite IPv4_testbit by lia. bit_cases. f_equal. lia.
  - apply Hbyte; [lia | | exact Hd]. intros i Hi Hi8.
    rewrite IPv4_testbit by lia. bit_cases. f_equal. lia.
  - apply Z.bits_inj'. intros i Hi.
    rewrite SwapBytesUint32_testbit by lia.
    rewrite (IPv4_testbit d c b a) by lia.
    destruct (Z.ltb_spec i 8); [| destruct (Z.ltb_spec i 16);
      [| destruct (Z.ltb_spec i 24); [| destruct (Z.ltb_spec i 32)]]];
      try (rewrite IPv4_testbit by lia; bit_cases; f_equal; lia).
    symmetry. apply byte_testbit_high; lia.
Qed.

Lemma IPv4_packs_bytes_witness :
  (0 <= 192 < 256 /\ 0 <= 168 < 256 /\ 0 <= 1 < 256 /\ 0 <= 7 < 256) /\
  is_uint 32 (IPv4 192 168 1 7) /\
  byteOf (IPv4 192 168 1 7) 0 = 192 /\ byteOf (IPv4 192 168 1 7) 8 = 168 /\
  byteOf (IPv4 192 168 1 7) 16 = 1 /\ byteOf (IPv4 192 168 1 7) 24 = 7 /\
  SwapBytesUint32 (IPv4 192 168 1 7) = IPv4 7 1 168 192.
Proof.
  split; [lia |]. apply (IPv4_packs_bytes 192 168 1 7); lia.
Defined.

End Addresses.

(** ** Adding and removing bytes *)

Section Capsules.

Lemma load8_idem mem a : wrap8 (load8 mem a) = load8 mem a.
Proof. apply (wrap_small 8). apply load8_range. Qed.

Lemma load8_store8_eq mem a v : load8 (store8 mem a v) a = wrap8 v.
Proof. rewrite load8_store8. now rewrite Z.eqb_refl. Qed.

Lemma load8_store8_ne mem a v x :
  0 <= a < 2 ^ 64 -> 0 <= x < 2 ^ 64 -> x <> a -> load8 (store8 mem a v) x = load8 mem x.
Proof.
  intros Ha Hx Hne. rewrite load8_store8, !wrap64_small by lia.
  destruct (Z.eqb_spec x a); [lia | reflexivity].
Qed.

Lemma wrapInt_small x : - 2 ^ 63 <= x < 2 ^ 63 -> Flow.wrapInt x = x.
Proof.
  intros Hx. unfold Flow.wrapInt. rewrite Z.mod_small by lia. lia.
Qed.

Lemma copyUp_spec n : forall mem base L i0 a,
  0 <= base -> 0 <= i0 -> 0 <= L -> base + i0 + Z.of_nat n + L < 2 ^ 64 ->
  0 <= a < 2 ^ 64 ->
  load8 (copyUp mem base L n i0) a =
  if (base + i0 <=? a) && (a <? base + i0 + Z.of_nat n)
  then load8 mem (a + L) else load8 mem a.
Proof.
  induction n as [| n IH]; intros mem base L i0 a Hb Hi HL Hfit Ha.
  - cbn [copyUp]. destruct (Z.leb_spec (base + i0) a), (Z.ltb_spec a (base + i0 + Z.of_nat 0));
      cbn [andb]; try reflexivity; lia.
  - cbn [copyUp]. rewrite !wrap64_small by lia. rewrite IH by lia.
    destruct (Z.leb_spec (base + (i0 + 1)) a), (Z.ltb_spec a (base + (i0 + 1) + Z.of_nat n)),
      (Z.leb_spec (base + i0) a), (Z.ltb_spec a (base + i0 + Z.of_nat (S n)));
      cbn [andb]; try lia; try (apply load8_store8_ne; lia).
    assert (a = base + i0) as -> by lia.
    rewrite load8_store8_eq, load8_idem. f_equal. lia.
Qed.

Lemma copyDown_spec n : forall mem base L top a,
  0 <= base -> 0 <= L -> Z.of_nat n <= top + 1 -> top + L < 2 ^ 63 ->
  base + top + 1 + L <= 2 ^ 64 -> 0 <= a < 2 ^ 64 ->
  load8 (copyDown mem base L n top) a =
  if (base + (top - Z.of_nat n + 1) + L <=? a) && (a <? base + top + 1 + L)
  then load8 mem (a - L) else load8 mem a.
Proof.
  induction n as [| n IH]; intros mem base L top a Hb HL Hn Htop Hfit Ha.
  - cbn [copyDown].
    destruct (Z.leb_spec (base + (top - Z.of_nat 0 + 1) + L) a), (Z.ltb_spec a (base + top + 1 + L));
      cbn [andb]; try reflexivity; lia.
  - cbn [copyDown]. rewrite (wrapInt_small L) by lia.
    rewrite (wrapInt_small (top + L)) by lia. rewrite !wrap64_small by lia.
    rewrite IH by lia.
    destruct (Z.leb_spec (base + (top - 1 - Z.of_nat n + 1) + L) a),
      (Z.ltb_spec a (base + (top - 1) + 1 + L)),
      (Z.leb_spec (base + (top - Z.of_nat (S n) + 1) + L) a),
      (Z.ltb_spec a (base + top + 1 + L)); cbn [andb]; try lia;
      try (apply load8_store8_ne; lia).
    assert (a = base + (top + L)) as -> by lia.
    rewrite load8_store8_eq, load8_idem. f_equal. lia.
Qed.

Lemma int_of_pred start :
  0 <= start <= 2 ^ 63 -> Flow.wrapInt (wrap64 (start - 1)) = start - 1.
Proof.
  intros Hs. destruct (Z.eq_dec start 0) as [-> | Hne]; [reflexivity |].
  rewrite wrap64_small by lia. apply wrapInt_small. lia.
Qed.

Lemma copyTail_spec k : forall fuel mem base L bound,
  (k <= fuel)%nat -> 0 <= base -> 0 <= L <= bound -> bound + Z.of_nat k < 2 ^ 63 ->
  base + bound + Z.of_nat k <= 2 ^ 64 ->
  exists mem',
    copyTail fuel mem base L bound (wrap64 (bound + Z.of_nat k - 1)) = Some mem' /\
    forall a, 0 <= a < 2 ^ 64 ->
      load8 mem' a =
      if (base + bound <=? a) && (a <? base + bound + Z.of_nat k)
      then load8 mem (a - L) else load8 mem a.
Proof.
  induction k as [| k IH]; intros fuel mem base L bound Hfuel Hb HL Hk Hfit.
  - exists mem. split.
    + assert (Hlt : Flow.wrapInt (wrap64 (bound + Z.of_nat 0 - 1)) < bound).
      { replace (bound + Z.of_nat 0 - 1) with (bound - 1) by lia.
        rewrite int_of_pred by lia. lia. }
      destruct fuel; cbn [copyTail];
        destruct (Z.leb_spec bound (Flow.wrapInt (wrap64 (bound + Z.of_nat 0 - 1))));
        (lia || reflexivity).
    + intros a Ha.
      destruct (Z.leb_spec (base + bound) a), (Z.ltb_spec a (base + bound + Z.of_nat 0));
        cbn [andb]; try reflexivity; lia.
  - destruct fuel as [| fuel]; [lia |].
    replace (bound + Z.of_nat (S k) - 1) with (bound + Z.of_nat k) by lia.
    cbn [copyTail]. rewrite (wrap64_small (bound + Z.of_nat k)) by lia.
    rewrite (wrapInt_small (bound + Z.of_nat k)) by lia.
    destruct (Z.leb_spec bound (bound + Z.of_nat k)); [| lia].
    rewrite (wrap64_small (bound + Z.of_nat k - L)) by lia.
    destruct (IH fuel
                (store8 mem (base + (bound + Z.of_nat k))
                   (load8 mem (base + (bound + Z.of_nat k - L))))
                base L bound ltac:(lia) Hb HL ltac:(lia) ltac:(lia))
      as (mem' & Hrun & Hspec).
    exists mem'. split; [exact Hrun |].
    intros a Ha. rewrite Hspec by exact Ha.
    destruct (Z.leb_spec (base + bound) a), (Z.ltb_spec a (base + bound + Z.of_nat k)),
      (Z.ltb_spec a (base + bound + Z.of_nat (S k))); cbn [andb]; try lia;
      try (apply load8_store8_ne; lia).
    assert (a = base + (bound + Z.of_nat k)) as -> by lia.
    rewrite load8_store8_eq, load8_idem. f_equal. lia.
Qed.

(** X6. [EncapsulateHead] makes room for [length] bytes after the first
    [start] bytes of a packet: the packet starts [length] bytes earlier,
    its first [start] bytes are the first [start] bytes it had, and no
    other byte of memory changes, so that the rest of the packet follows
    the gap; when the mbuf cannot be extended nothing changes. *)
Theorem EncapsulateHead_moves_head (mem : Bytes) (p : Packet) (start length : Z) :
  0 <= start -> 0 <= length <= Ether p -> Ether p + start < 2 ^ 64 ->
  let r := EncapsulateHead true mem p start length in
  fst (fst r) = true /\
  Start (snd (fst r)) = Start p - length /\
  (forall i, 0 <= i < start ->
     load8 (snd r) (Start p - length + i) = load8 mem (Start p + i)) /\
  (forall a, 0 <= a < 2 ^ 64 -> ~ (Start p - length <= a < Start p - length + start) ->
     load8 (snd r) a = load8 mem a) /\
  EncapsulateHead false mem p start length = (false, p, mem).
Proof.
  intros Hs HL Hfit r. unfold r, EncapsulateHead, Start. cbn [fst snd set_Ether Ether].
  rewrite (wrap64_small (Ether p - length)) by lia.
  split; [reflexivity |]. split; [reflexivity |]. split; [| split; [| reflexivity]].
  - intros i Hi. rewrite copyUp_spec by lia.
    destruct (Z.leb_spec (Ether p - length + 0) (Ether p - length + i)); [| lia].
    destruct (Z.ltb_spec (Ether p - length + i)
                (Ether p - length + 0 + Z.of_nat (Z.to_nat start))); [| lia].
    cbn [andb]. f_equal. lia.
  - intros a Ha Hout. rewrite copyUp_spec by lia.
    destruct (Z.leb_spec (Ether p - length + 0) a),
      (Z.ltb_spec a (Ether p - length + 0 + Z.of_nat (Z.to_nat start)));
      cbn [andb]; try reflexivity; lia.
Qed.

Lemma EncapsulateHead_moves_head_witness :
  let mem := fun a : Z => a in
  let p := mkPacket 0 0 0 100 0 in
  let r := EncapsulateHead true mem p 14 4 in
  Start (snd (fst r)) = 96 /\ load8 (snd r) 96 = 100 /\ load8 (snd r) 109 = 113 /\
  load8 (snd r) 110 = 110.
Proof.
  intros mem p r.
  pose proof (EncapsulateHead_moves_head mem p 14 4) as H.
  cbn [Ether p] in H. specialize (H ltac:(lia) ltac:(lia) ltac:(lia)).
  destruct H as (_ & H1 & H2 & H3 & _).
  split; [exact H1 |]. split; [exact (H2 0 ltac:(lia)) |].
  split; [exact (H2 13 ltac:(lia)) |]. apply (H3 110); [lia |]. unfold Start. cbn. lia.
Defined.

(** X7. [DecapsulateHead] removes the [length] bytes that follow the first
    [start] bytes of a packet: the packet starts [length] bytes later, its
    first [start] bytes are the first [start] bytes it had, and no other
    byte of memory changes (none is copied when [start] is zero). *)
Theorem DecapsulateHead_removes_bytes (mem : Bytes) (p : Packet) (start length : Z) :
  0 <= start -> 0 <= length -> start + length <= 2 ^ 63 ->
  0 <= Ether p -> Ether p + start + length < 2 ^ 64 ->
  let r := DecapsulateHead true mem p start length in
  fst (fst r) = true /\
  Start (snd (fst r)) = Start p + length /\
  (forall i, 0 <= i < start ->
     load8 (snd r) (Start p + length + i) = load8 mem (Start p + i)) /\
  (forall a, 0 <= a < 2 ^ 64 -> ~ (Start p + length <= a < Start p + length + start) ->
     load8 (snd r) a = load8 mem a) /\
  DecapsulateHead false mem p start length = (false, p, mem).
Proof.
  intros Hs HL Hint Hb Hfit r. unfold r, DecapsulateHead, Start.
  cbn [fst snd set_Ether Ether].
  rewrite int_of_pred by lia. rewrite (wrap64_small (Ether p + length)) by lia.
  replace (start - 1 + 1) with start by lia.
  split; [reflexivity |]. split; [reflexivity |]. split; [| split; [| reflexivity]].
  - intros i Hi. rewrite copyDown_spec by lia.
    destruct (Z.leb_spec (Ether p + (start - 1 - Z.of_nat (Z.to_nat start) + 1) + length)
                (Ether p + length + i)); [| lia].
    destruct (Z.ltb_spec (Ether p + length + i) (Ether p + (start - 1) + 1 + length)); [| lia].
    cbn [andb]. f_equal. lia.
  - intros a Ha Hout. rewrite copyDown_spec by lia.
    destruct (Z.leb_spec (Ether p + (start - 1 - Z.of_nat (Z.to_nat start) + 1) + length) a),
      (Z.ltb_spec a (Ether p + (start - 1) + 1 + length));
      cbn [andb]; try reflexivity; lia.
Qed.

Lemma DecapsulateHead_removes_bytes_witness :
  let mem := fun a : Z => a in
  let p := mkPacket 0 0 0 100 0 in
  let r := DecapsulateHead true mem p 14 4 in
  Start (snd (fst r)) = 104 /\ load8 (snd r) 104 = 100 /\ load8 (snd r) 117 = 113 /\
  load8 (snd r) 118 = 118.
Proof.
  intros mem p r.
  pose proof (DecapsulateHead_removes_bytes mem p 14 4) as H.
  cbn [Ether p] in H.
  specialize (H ltac:(lia) ltac:(lia) ltac:(lia) ltac:(lia) ltac:(lia)).
  destruct H as (_ & H1 & H2 & H3 & _).
  split; [exact H1 |]. split; [exact (H2 0 ltac:(lia)) |].
  split; [exact (H2 13 ltac:(lia)) |]. apply (H3 118); [lia |]. unfold Start. cbn. lia.
Defined.

(** X8. Removing with [DecapsulateHead] the bytes that [EncapsulateHead]
    added gives the packet back: the packet structure is the one before
    the two calls, and every byte of memory from the start of the packet
    on is as it was. *)
Theorem DecapsulateHead_undoes_EncapsulateHead (mem : Bytes) (p : Packet) (start length : Z) :
  0 <= start -> 0 <= length <= Ether p -> start + length <= 2 ^ 63 ->
  Ether p + start < 2 ^ 64 ->
  let r1 := EncapsulateHead true mem p start length in
  let r2 := DecapsulateHead true (snd r1) (snd (fst r1)) start length in
  fst (fst r2) = true /\ snd (fst r2) = p /\
  forall a, Start p <= a < 2 ^ 64 -> load8 (snd r2) a = load8 mem a.
Proof.
  intros Hs HL Hint Hfit r1 r2.
  unfold r2, r1, DecapsulateHead, EncapsulateHead, Start.
  cbn [fst snd set_Ether Ether L3 L4 Data CMbuf].
  rewrite int_of_pred by lia. rewrite (wrap64_small (Ether p - length)) by lia.
  replace (Ether p - length + length) with (Ether p) by lia.
  rewrite (wrap64_small (Ether p)) by lia.
  replace (start - 1 + 1) with start by lia.
  split; [reflexivity |]. split; [now destruct p |].
  intros a Ha. rewrite copyDown_spec by lia.
  destruct (Z.leb_spec
              (Ether p - length + (start - 1 - Z.of_nat (Z.to_nat start) + 1) + length) a),
    (Z.ltb_spec a (Ether p - length + (start - 1) + 1 + length)); cbn [andb]; try lia.
  - rewrite copyUp_spec by lia.
    destruct (Z.leb_spec (Ether p - length + 0) (a - length)); [| lia].
    destruct (Z.ltb_spec (a - length) (Ether p - length + 0 + Z.of_nat (Z.to_nat start)));
      [| lia].
    cbn [andb]. f_equal. lia.
  - rewrite copyUp_spec by lia.
    destruct (Z.leb_spec (Ether p - length + 0) a),
      (Z.ltb_spec a (Ether p - length + 0 + Z.of_nat (Z.to_nat start)));
      cbn [andb]; try reflexivity; lia.
Qed.

Lemma DecapsulateHead_undoes_EncapsulateHead_witness :
  let mem := fun a : Z => a in
  let p := mkPacket 0 0 0 100 0 in
  let r1 := EncapsulateHead true mem p 14 4 in
  let r2 := DecapsulateHead true (snd r1) (snd (fst r1)) 14 4 in
  snd (fst r2) = p /\ load8 (snd r2) 100 = 100 /\ load8 (snd r1) 100 = 104.
Proof.
  intros mem p r1 r2.
  pose proof (DecapsulateHead_undoes_EncapsulateHead mem p 14 4) as H.
  cbn [Ether p] in H. specialize (H ltac:(lia) ltac:(lia) ltac:(lia) ltac:(lia)).
  destruct H as (_ & H1 & H2).
  split; [exact H1 |]. split; [apply (H2 100); unfold Start; cbn; lia | reflexivity].
Defined.

(** X9. [EncapsulateTail] makes room for [length] bytes at offset [start]
    of a packet whose length, the bytes appended included, is
    [packetLength]: its loop ends, the bytes from [start + length] on are
    the bytes that were [length] places earlier, and no other byte of
    memory changes. *)
Theorem EncapsulateTail_moves_tail (fuel : nat) (mem : Bytes) (p : Packet)
  (start length packetLength : Z) :
  0 <= start -> 0 <= length -> start + length <= packetLength < 2 ^ 63 ->
  0 <= Ether p -> Ether p + packetLength <= 2 ^ 64 ->
  (Z.to_nat (packetLength - (start + length)) <= fuel)%nat ->
  exists mem',
    EncapsulateTail fuel true packetLength mem p start length = Some (true, mem') /\
    (forall i, start + length <= i < packetLength ->
       load8 mem' (Start p + i) = load8 mem (Start p + (i - length))) /\
    (forall a, 0 <= a < 2 ^ 64 ->
       ~ (Start p + (start + length) <= a < Start p + packetLength) ->
       load8 mem' a = load8 mem a).
Proof.
  intros Hs HL Hlen Hb Hfit Hfuel. unfold EncapsulateTail, Start.
  rewrite (wrap64_small (start + length)) by lia.
  rewrite (wrapInt_small (start + length)) by lia.
  destruct (copyTail_spec (Z.to_nat (packetLength - (start + length))) fuel mem (Ether p)
              length (start + length) Hfuel Hb ltac:(lia) ltac:(lia) ltac:(lia))
    as (mem' & Hrun & Hspec).
  replace (start + length + Z.of_nat (Z.to_nat (packetLength - (start + length))) - 1)
    with (packetLength - 1) in Hrun by lia.
  exists mem'. split; [now rewrite Hrun |]. split.
  - intros i Hi. rewrite Hspec by lia.
    destruct (Z.leb_spec (Ether p + (start + length)) (Ether p + i)); [| lia].
    destruct (Z.ltb_spec (Ether p + i)
                (Ether p + (start + length) +
                 Z.of_nat (Z.to_nat (packetLength - (start + length))))); [| lia].
    cbn [andb]. f_equal. lia.
  - intros a Ha Hout. rewrite Hspec by lia.
    destruct (Z.leb_spec (Ether p + (start + length)) a),
      (Z.ltb_spec a (Ether p + (start + length) +
                     Z.of_nat (Z.to_nat (packetLength - (start + length)))));
      cbn [andb]; try reflexivity; lia.
Qed.

Lemma EncapsulateTail_moves_tail_witness :
  let mem := fun a : Z => a in
  let p := mkPacket 0 0 0 100 0 in
  exists mem',
    EncapsulateTail 10 true 20 mem p 14 4 = Some (true, mem') /\
    load8 mem' 119 = 115 /\ load8 mem' 117 = 117.
Proof.
  intros mem p.
  destruct (EncapsulateTail_moves_tail 10 mem p 14 4 20) as (mem' & H1 & H2 & H3);
    [lia | lia | lia | cbn; lia | cbn; lia | cbn; lia |].
  exists mem'. split; [exact H1 |].
  split; [exact (H2 19 ltac:(lia)) | apply (H3 117); [lia |]; unfold Start; cbn; lia].
Defined.

(** X10. Removing with [DecapsulateTail] the bytes that [EncapsulateTail]
    added gives the packet back: the bytes of the packet, which is
    [packetLength - length] bytes long again, are the bytes it had. *)
Theorem DecapsulateTail_undoes_EncapsulateTail (fuel : nat) (mem : Bytes) (p : Packet)
  (start length packetLength : Z) :
  0 <= start -> 0 <= length -> start + length <= packetLength < 2 ^ 63 ->
  0 <= Ether p -> Ether p + packetLength + length < 2 ^ 64 ->
  (Z.to_nat (packetLength - (start + length)) <= fuel)%nat ->
  exists mem1,
    EncapsulateTail fuel true packetLength mem p start length = Some (true, mem1) /\
    let r2 := DecapsulateTail true packetLength mem1 p start length in
    fst r2 = true /\
    forall i, 0 <= i < packetLength - length ->
      load8 (snd r2) (Start p + i) = load8 mem (Start p + i).
Proof.
  intros Hs HL Hlen Hb Hfit Hfuel. unfold EncapsulateTail, DecapsulateTail, Start.
  rewrite (wrap64_small (start + length)) by lia.
  rewrite (wrapInt_small (start + length)) by lia.
  destruct (copyTail_spec (Z.to_nat (packetLength - (start + length))) fuel mem (Ether p)
              length (start + length) Hfuel Hb ltac:(lia) ltac:(lia) ltac:(lia))
    as (mem1 & Hrun & Hspec).
  replace (start + length + Z.of_nat (Z.to_nat (packetLength - (start + length))) - 1)
    with (packetLength - 1) in Hrun by lia.
  exists mem1. split; [now rewrite Hrun |]. cbn [fst snd]. split; [reflexivity |].
  intros i Hi. rewrite copyUp_spec by lia.
  destruct (Z.leb_spec (Ether p + start) (Ether p + i)),
    (Z.ltb_spec (Ether p + i) (Ether p + start + Z.of_nat (Z.to_nat (packetLength - start))));
    cbn [andb]; try lia.
  - rewrite Hspec by lia.
    destruct (Z.leb_spec (Ether p + (start + length)) (Ether p + i + length)); [| lia].
    destruct (Z.ltb_spec (Ether p + i + length)
                (Ether p + (start + length) +
                 Z.of_nat (Z.to_nat (packetLength - (start + length))))); [| lia].
    cbn [andb]. f_equal. lia.
  - rewrite Hspec by lia.
    destruct (Z.leb_spec (Ether p + (start + length)) (Ether p + i)),
      (Z.ltb_spec (Ether p + i)
         (Ether p + (start + length) +
          Z.of_nat (Z.to_nat (packetLength - (start + length)))));
      cbn [andb]; try reflexivity; lia.
Qed.

Lemma DecapsulateTail_undoes_EncapsulateTail_witness :
  let mem := fun a : Z => a in
  let p := mkPacket 0 0 0 100 0 in
  exists mem1,
    EncapsulateTail 10 true 20 mem p 14 4 = Some (true, mem1) /\
    let r2 := DecapsulateTail true 20 mem1 p 14 4 in
    fst r2 = true /\
    forall i, 0 <= i < 20 - 4 -> load8 (snd r2) (Start p + i) = load8 mem (Start p + i).
Proof.
  intros mem p.
  apply (DecapsulateTail_undoes_EncapsulateTail 10 mem p 14 4 20); cbn; lia.
Defined.

Lemma writeBytes_spec bytes : forall mem base start i a,
  0 <= base -> 0 <= start -> 0 <= i ->
  base + start + i + Z.of_nat (length bytes) <= 2 ^ 64 -> 0 <= a < 2 ^ 64 ->
  load8 (writeBytes mem base start bytes i) a =
  match bytes !! Z.to_nat (a - (base + start + i)) with
  | Some b => if base + start + i <=? a then wrap8 b else load8 mem a
  | None => load8 mem a
  end.
Proof.
  induction bytes as [| b rest IH]; intros mem base start i a Hb Hs Hi Hfit Ha.
  - reflexivity.
  - cbn [writeBytes]. cbn [length] in Hfit.
    rewrite (wrap64_small (start + i)) by lia. rewrite IH by lia.
    destruct (Z.leb_spec (base + start + (i + 1)) a) as [Hlater | Hnot].
    + replace (Z.to_nat (a - (base + start + i)))
        with (S (Z.to_nat (a - (base + start + (i + 1))))) by lia.
      cbn [lookup list_lookup].
      destruct (rest !! Z.to_nat (a - (base + start + (i + 1)))) as [x |] eqn:Hx.
      * destruct (Z.leb_spec (base + start + i) a); [reflexivity | lia].
      * apply load8_store8_ne; lia.
    + assert (Hsame : forall M : Bytes,
                match rest !! Z.to_nat (a - (base + start + (i + 1))) with
                | Some _ | _ => load8 M a
                end = load8 M a) by (intros M; now destruct (rest !! _)).
      rewrite Hsame.
      destruct (Z.eq_dec a (base + start + i)) as [-> | Hne].
      * replace (Z.to_nat (base + start + i - (base + start + i))) with 0%nat by lia.
        cbn [lookup list_lookup].
        destruct (Z.leb_spec (base + start + i) (base + start + i)); [| lia].
        replace (base + start + i) with (base + (start + i)) by lia.
        apply load8_store8_eq.
      * replace (Z.to_nat (a - (base + start + i))) with 0%nat by lia.
        cbn [lookup list_lookup].
        destruct (Z.leb_spec (base + start + i) a); [lia |].
        apply load8_store8_ne; lia.
Qed.

(** X11. [PacketBytesChange] refuses a change that does not fit the
    packet and then changes nothing; a change that fits is made: the bytes
    given are read back from offset [start] of the packet and no other
    byte of memory changes. *)
Theorem PacketBytesChange_writes (mem : Bytes) (p : Packet) (start packetLength : Z)
  (bytes : list Z) :
  0 <= start -> 0 <= Ether p -> packetLength < 2 ^ 64 ->
  Ether p + start + Z.of_nat (length bytes) < 2 ^ 64 ->
  let r := PacketBytesChange packetLength mem p start bytes in
  (packetLength < start + Z.of_nat (length bytes) -> r = (false, mem)) /\
  (start + Z.of_nat (length bytes) <= packetLength ->
   fst r = true /\
   (forall (i : nat) (b : Z), bytes !! i = Some b ->
      load8 (snd r) (Start p + start + Z.of_nat i) = wrap8 b) /\
   (forall a, 0 <= a < 2 ^ 64 ->
      ~ (Start p + start <= a < Start p + start + Z.of_nat (length bytes)) ->
      load8 (snd r) a = load8 mem a)).
Proof.
  intros Hs Hb Hlen Hfit r. unfold r, PacketBytesChange, Start.
  rewrite (wrap64_small (Z.of_nat (length bytes))) by lia.
  split.
  - intros Hbig. rewrite (wrap64_small (start + Z.of_nat (length bytes))) by lia.
    destruct (Z.ltb_spec packetLength (start + Z.of_nat (length bytes))); [reflexivity | lia].
  - intros Hfits. rewrite (wrap64_small (start + Z.of_nat (length bytes))) by lia.
    destruct (Z.ltb_spec packetLength (start + Z.of_nat (length bytes))); [lia |].
    cbn [fst snd]. split; [reflexivity |]. split.
    + intros i b Hi. pose proof (lookup_lt_Some _ _ _ Hi) as Hlt.
      rewrite writeBytes_spec by lia.
      replace (Z.to_nat (Ether p + start + Z.of_nat i - (Ether p + start + 0))) with i by lia.
      rewrite Hi.
      destruct (Z.leb_spec (Ether p + start + 0) (Ether p + start + Z.of_nat i));
        [reflexivity | lia].
    + intros a Ha Hout. rewrite writeBytes_spec by lia.
      destruct (bytes !! Z.to_nat (a - (Ether p + start + 0))) as [b |] eqn:Hlook;
        [| reflexivity].
      pose proof (lookup_lt_Some _ _ _ Hlook) as Hlt.
      destruct (Z.leb_spec (Ether p + start + 0) a); [lia | reflexivity].
Qed.

Lemma PacketBytesChange_writes_witness :
  let mem := fun a : Z => a in
  let p := mkPacket 0 0 0 100 0 in
  PacketBytesChange 20 mem p 18 [1; 2; 3] = (false, mem) /\
  load8 (snd (PacketBytesChange 20 mem p 17 [1; 2; 3])) 118 = 2.
Proof.
  intros mem p. split.
  - pose proof (PacketBytesChange_writes mem p 18 20 [1; 2; 3]) as H.
    cbn [Ether p length] in H.
    specialize (H ltac:(lia) ltac:(lia) ltac:(lia) ltac:(lia)).
    destruct H as [H _]. apply H. lia.
  - pose proof (PacketBytesChange_writes mem p 17 20 [1; 2; 3]) as H.
    cbn [Ether p length] in H.
    specialize (H ltac:(lia) ltac:(lia) ltac:(lia) ltac:(lia)).
    destruct H as [_ H]. destruct (H ltac:(lia)) as (_ & H2 & _).
    exact (H2 1%nat 2 eq_refl).
Defined.

End Capsules.

(** ** A partitioner whose first constant is zero *)

Section PartitionZero.

Variable M : Z.




End PartitionZero.



(** ** Handle *)

Section Handle.

Lemma handleScalarLoop_folds f size bufs (xs : list Z) :
  forall (i : nat) (x : Z) (rest : list Z) (mem : Memory),
    drop i bufs = x :: xs ++ rest ->
    exists addr mem',
      handleScalarLoop f size (length xs) i (Packet.ExtractPacketAddr size x) bufs mem =
        Some (addr, mem') /\
      f addr mem' =
        fold_left (fun m y => f (Packet.ExtractPacketAddr size y) m) (x :: xs) mem.
Proof.
  induction xs as [| y ys IH]; intros i x rest mem Hdrop.
  - eexists _, _. split; reflexivity.
  - apply drop_head in Hdrop as [_ Hdrop]. cbn [app] in Hdrop.
    pose proof Hdrop as Hnext. apply drop_head in Hnext as [Hy _].
    cbn [length handleScalarLoop]. rewrite Hy. cbn [mbind option_bind].
    destruct (IH (S i) y rest (f (Packet.ExtractPacketAddr size x) mem) Hdrop)
      as (addr & mem' & Hrun & Hlast).
    exists addr, mem'. split; [exact Hrun |]. rewrite Hlast. reflexivity.
Qed.

Lemma handleWork_scalar f size (burst rest : list Z) tmp mem :
  burst <> [] ->
  handleWork (Some f) None size (length burst) (mkHandleBuffers (burst ++ rest) tmp) mem =
  Some (mkHandleBuffers (burst ++ rest) tmp,
        fold_left (fun m y => f (Packet.ExtractPacketAddr size y) m) burst mem).
Proof.
  intros Hne. destruct burst as [| x xs]; [congruence |].
  unfold handleWork. cbn [h_bufs h_tempPackets mbind option_bind app lookup list_lookup].
  cbn [length]. replace (S (length xs) - 1)%nat with (length xs) by lia.
  destruct (handleScalarLoop_folds f size (x :: xs ++ rest) xs 0 x rest mem eq_refl)
    as (addr & mem' & Hrun & Hlast).
  rewrite Hrun. cbn [mbind option_bind fst snd]. now rewrite Hlast.
Qed.

Lemma Queue_DequeueBurst_Ok s q r buffer count :
  rings s !! q = Some r ->
  Queue_DequeueBurst q buffer count s =
  Ok (((DequeueBurst r buffer count).1.2, (DequeueBurst r buffer count).2),
      set_rings (<[q:=(DequeueBurst r buffer count).1.1]> (rings s)) s).
Proof.
  intros Hq. unfold Queue_DequeueBurst, getRing, setRing.
  unfold bind, gets, lift_opt, modify, ret. now rewrite Hq.
Qed.

(** With room in the ring for the whole burst, [safeEnqueue] is the
    enqueue. *)
Lemma safeEnqueue_room s place r data number :
  rings s !! place = Some r ->
  (number <= length data)%nat -> (number <= capacity r - length (items r))%nat ->
  safeEnqueue place data number s =
  Ok (tt, set_rings (<[place:=pushed (take number data) r]> (rings s)) s).
Proof.
  intros Hplace Hdata Hroom. unfold safeEnqueue.
  rewrite decide_True by exact Hdata.
  rewrite (bind_Ok _ _ s tt s) by reflexivity.
  rewrite (bind_Ok _ _ _ _ _ (Queue_EnqueueBurst_Ok s place r data number Hplace)).
  unfold EnqueueBurst. cbn [fst snd].
  rewrite Nat.min_l by exact Hroom.
  rewrite decide_False by lia. reflexivity.
Qed.

(** X13. A work turn of [handle] with a scalar function, when the output
    ring has room: the burst taken from the input ring, as many handles as
    the ring holds up to [burstSize], is appended in its order to the
    output ring; the function has been called once on the packet of each
    handle, in that order; the speed counter goes up by the size of the
    burst, and nothing is dropped. *)
Theorem handle_moves_burst (s : State) (IN OUT : Queue) (f : HandleFunction)
  (r : replica handleBuffers) (rin rout : Ring) :
  rings s !! IN = Some rin -> rings s !! OUT = Some rout -> IN <> OUT ->
  items rin <> [] -> (0 < Z.to_nat (burstSize s))%nat ->
  length (h_bufs (buffers r)) = Z.to_nat (burstSize s) ->
  let n := Nat.min (Z.to_nat (burstSize s)) (length (items rin)) in
  let burst := take n (items rin) in
  (n <= capacity rout - length (items rout))%nat ->
  exists (r' : replica handleBuffers) (s' : State),
    handleDefault IN OUT (Some f) None r s = Ok ((r', []), s') /\
    rings s' =
      <[OUT:=pushed burst rout]>
        (<[IN:=mkRing (name rin) (capacity rin) (drop n (items rin))]> (rings s)) /\
    memory s' =
      fold_left (fun m y => f (Packet.ExtractPacketAddr (mbufStructSize (dpdk s)) y) m)
        burst (memory s) /\
    currentSpeed r' = wrap64 (currentSpeed r + Z.of_nat n) /\ pause r' = pause r /\
    schedState s' = schedState s /\ directStopped s' = directStopped s.
Proof.
  intros Hin Hout Hne Hitems Hburst Hbufs n burst Hroom.
  assert (Hn : n <> 0%nat).
  { unfold n. destruct (items rin); [congruence |]. cbn [length]. lia. }
  assert (Hlen : length burst = n).
  { unfold burst. rewrite length_take. unfold n. lia. }
  unfold handleDefault.
  rewrite (bind_Ok _ _ s (burstSize s) s) by reflexivity.
  rewrite (bind_Ok _ _ _ _ _ (Queue_DequeueBurst_Ok s IN rin _ _ Hin)).
  unfold DequeueBurst. cbn [fst snd]. fold n. fold burst.
  rewrite decide_False by exact Hn.
  set (s1 := set_rings _ s).
  rewrite (bind_Ok _ _ s1 (mbufStructSize (dpdk s)) s1) by reflexivity.
  rewrite (bind_Ok _ _ s1 (memory s) s1) by reflexivity.
  assert (Hnonempty : burst <> [])
    by (intros Hnil; rewrite Hnil in Hlen; cbn in Hlen; lia).
  pose proof (handleWork_scalar f (mbufStructSize (dpdk s)) burst
                (drop n (h_bufs (buffers r))) (h_tempPackets (buffers r)) (memory s)
                Hnonempty) as Hwork.
  rewrite Hlen in Hwork. rewrite Hwork.
  cbn [lift_opt]. rewrite (bind_Ok _ _ s1 _ s1) by reflexivity.
  cbn [fst snd h_bufs].
  set (mem' := fold_left _ burst (memory s)).
  rewrite (bind_Ok _ _ s1 tt (set_memory mem' s1)) by reflexivity.
  assert (Hout1 : rings (set_memory mem' s1) !! OUT = Some rout).
  { unfold s1. cbn [rings set_memory set_rings].
    rewrite list_lookup_insert_ne by congruence. exact Hout. }
  rewrite (bind_Ok _ _ _ _ _
             (safeEnqueue_room _ OUT rout (burst ++ drop n (h_bufs (buffers r))) n Hout1
                ltac:(rewrite length_app, length_drop; lia) Hroom)).
  eexists _, _. split; [reflexivity |].
  unfold s1. cbn [rings memory schedState directStopped set_rings set_memory
                    addSpeed currentSpeed pause].
  replace (take n (burst ++ drop n (h_bufs (buffers r)))) with burst
    by (rewrite <- Hlen at 1; now rewrite take_app_length).
  repeat split; reflexivity.
Qed.

Lemma handle_moves_burst_witness :
  let s := set_rings [mkRing 1 4 []; mkRing 2 4 [4096; 8192]; mkRing 3 4 [7]] started in
  exists (r' : replica handleBuffers) (s' : State),
    handleDefault 1%nat 2%nat (Some untouched) None (handleStart 32) s = Ok ((r', []), s') /\
    rings s' = [mkRing 1 4 []; mkRing 2 4 []; mkRing 3 4 [7; 4096; 8192]] /\
    currentSpeed r' = 2.
Proof.
  intros s.
  destruct (handle_moves_burst s 1%nat 2%nat untouched (handleStart 32)
              (mkRing 2 4 [4096; 8192]) (mkRing 3 4 [7]))
    as (r' & s' & Hrun & Hrings & _ & Hspeed & _).
  - reflexivity.
  - reflexivity.
  - lia.
  - discriminate.
  - vm_compute. lia.
  - vm_compute. reflexivity.
  - vm_compute. lia.
  - exists r', s'. split; [exact Hrun |]. split; [exact Hrings | exact Hspeed].
Defined.

End Handle.

(** ** The builder keeps the rings wired *)

Section WiringProofs.

Lemma wrapInt_add_l a b : wrapInt (wrapInt a + b) = wrapInt (a + b).
Proof.
  unfold wrapInt. f_equal.
  replace ((a + 2 ^ 63) mod 2 ^ 64 - 2 ^ 63 + b + 2 ^ 63)
    with ((a + 2 ^ 63) mod 2 ^ 64 + b) by lia.
  rewrite Zplus_mod_idemp_l. f_equal. lia.
Qed.

Lemma ringsOk_snoc rs next count :
  ringsOk rs next (Z.to_nat count) ->
  ringsOk (rs ++ [CreateQueue next count]) (wrapInt (next + 1)) (Z.to_nat count).
Proof.
  intros (Hn & Hnext & Hcap & Hlen). unfold ringsOk.
  rewrite length_app. cbn [length]. repeat split.
  - rewrite map_app, seq_app, map_app, Hn. cbn [map seq CreateQueue name]. now rewrite Hnext.
  - rewrite Hnext, wrapInt_add_l. f_equal. lia.
  - apply Forall_app. split; [exact Hcap |]. now constructor.
  - lia.
Qed.

Lemma kinds_snoc l ff :
  Forall unclonableOk l -> unclonableOk ff -> Forall unclonableOk (l ++ [ff]).
Proof. intros Hl Hff. apply Forall_app. split; [exact Hl | now constructor]. Qed.

Lemma refsBelow_mono n m l : refsBelow n l -> (n <= m)%nat -> refsBelow m l.
Proof.
  unfold refsBelow. intros Hl Hnm. eapply Forall_impl; [exact Hl |].
  intros ff Hff. eapply Forall_impl; [exact Hff |]. cbv beta. lia.
Qed.

Lemma refsBelow_snoc n m l ff :
  refsBelow n l -> (n <= m)%nat ->
  Forall (fun q : Queue => (q < m)%nat) (inputs (Parameters ff) ++ outputs (Parameters ff)) ->
  refsBelow m (l ++ [ff]).
Proof.
  intros Hl Hnm Hff. apply Forall_app. split; [now apply (refsBelow_mono n) |].
  now constructor.
Qed.

Lemma openBelow_mono n m fs : openBelow n fs -> (n <= m)%nat -> openBelow m fs.
Proof.
  unfold openBelow. intros Hl Hnm. eapply Forall_impl; [exact Hl |].
  intros [q |]; [lia | trivial].
Qed.

Lemma openBelow_insert n fs i c :
  openBelow n fs -> match c with Some q => (q < n)%nat | None => True end ->
  openBelow n (<[i:=c]> fs).
Proof. intros Hfs Hc. now apply Forall_insert. Qed.

Lemma openBelow_snoc n fs : openBelow n fs -> openBelow n (fs ++ [None]).
Proof. intros Hfs. apply Forall_app. split; [exact Hfs | now constructor]. Qed.

Lemma openBelow_lookup n fs i q : openBelow n fs -> fs !! i = Some (Some q) -> (q < n)%nat.
Proof. intros Hfs Hi. exact (Forall_lookup_1 _ _ _ _ Hfs Hi). Qed.

Lemma kinds_merge from to l :
  Forall unclonableOk l -> Forall unclonableOk (map (mergeUnClonable from to) l).
Proof.
  intros Hl. apply Forall_map. eapply Forall_impl; [exact Hl |].
  intros [nm id body par chk]. unfold unclonableOk, mergeUnClonable.
  cbn [Parameters]. destruct par; cbn [Parameters set_Parameters]; trivial.
Qed.

Lemma retarget_below n from to q : (q < n)%nat -> (to < n)%nat -> (retarget from to q < n)%nat.
Proof. intros Hq Ht. unfold retarget. now destruct (decide (q = from)). Qed.

Lemma retargetOuts_lookup from to steps :
  forall j outs outs',
    retargetOuts from to steps j outs = Some outs' ->
    forall k, outs' !! k =
              if decide (j <= k < j + steps)%nat then retarget from to <$> outs !! k
              else outs !! k.
Proof.
  induction steps as [| steps IH]; intros j outs outs' H k; cbn [retargetOuts] in H.
  - injection H as <-. destruct (decide (j <= k < j + 0)%nat); [lia | reflexivity].
  - destruct (outs !! j) as [q |] eqn:Hq; [| discriminate].
    rewrite (IH _ _ _ H k).
    destruct (decide (S j <= k < S j + steps)%nat) as [Hin | Hout];
      destruct (decide (j <= k < j + S steps)%nat) as [Hin' | Hout']; try lia.
    + destruct (decide (q = from)); [| reflexivity].
      rewrite list_lookup_insert_ne by lia. reflexivity.
    + assert (k = j) as -> by lia. rewrite Hq. cbn [fmap option_fmap option_map].
      unfold retarget. destruct (decide (q = from)); [| exact Hq].
      apply list_lookup_insert_eq. eapply lookup_lt_Some; eauto.
    + destruct (decide (q = from)); [| reflexivity].
      now rewrite list_lookup_insert_ne by lia.
Qed.

Lemma retargetOuts_below n from to steps outs outs' m :
  retargetOuts from to steps 0 outs = Some outs' ->
  Forall (fun q : Queue => (q < n)%nat) (take m outs) -> (to < n)%nat ->
  Forall (fun q : Queue => (q < n)%nat) (take m outs').
Proof.
  intros H Hall Ht. apply Forall_lookup. intros k x Hk.
  apply lookup_take_Some in Hk as [Hk Hkm].
  rewrite (retargetOuts_lookup _ _ _ _ _ _ H k) in Hk.
  assert (Hy : forall y, outs !! k = Some y -> (y < n)%nat).
  { intros y Hy. apply (Forall_lookup_1 _ _ k y Hall). now apply lookup_take_Some. }
  destruct (decide (0 <= k < 0 + steps)%nat).
  - destruct (outs !! k) as [y |]; [| discriminate]. injection Hk as <-.
    apply retarget_below; auto.
  - auto.
Qed.

Lemma refsBelow_mergeUnClonable n from to l :
  refsBelow n l -> (to < n)%nat -> refsBelow n (map (mergeUnClonable from to) l).
Proof.
  intros Hl Ht. apply Forall_map. eapply Forall_impl; [exact Hl |].
  intros [nm id body par chk]. unfold mergeUnClonable. cbn [Parameters].
  destruct par; cbn [Parameters set_Parameters inputs outputs app]; trivial; intros Hff.
  - inversion Hff; subst. repeat constructor. now apply retarget_below.
  - inversion Hff; subst. repeat constructor. now apply retarget_below.
  - inversion Hff as [| ? ? Hi Hrest]; subst. inversion Hrest as [| ? ? H1 Hrest2]; subst.
    inversion Hrest2; subst.
    repeat constructor; try assumption; now apply retarget_below.
Qed.

Lemma mergeClonable_below n from to ff ff' :
  mergeClonable from to ff = Some ff' -> (to < n)%nat ->
  Forall (fun q : Queue => (q < n)%nat) (inputs (Parameters ff) ++ outputs (Parameters ff)) ->
  Forall (fun q : Queue => (q < n)%nat) (inputs (Parameters ff') ++ outputs (Parameters ff')).
Proof.
  destruct ff as [nm id body par chk]. unfold mergeClonable. cbn [Parameters].
  intros H Ht Hff.
  destruct par; cbn [Parameters set_Parameters inputs outputs app] in *;
    try (injection H as <-; cbn [Parameters set_Parameters inputs outputs app];
         repeat match goal with
                | Hx : Forall _ (_ :: _) |- _ => inversion Hx; subst; clear Hx
                end;
         repeat constructor; try assumption; now apply retarget_below).
  destruct (retargetOuts from to flowNumber 0 outs) as [outs' |] eqn:E;
    cbn [mbind option_bind] in H; [| discriminate].
  injection H as <-. cbn [Parameters set_Parameters inputs outputs app].
  inversion Hff; subst. constructor; [assumption |].
  eapply retargetOuts_below; eauto.
Qed.

Lemma refsBelow_mergeClonable n from to l l' :
  mapM (mergeClonable from to) l = Some l' -> refsBelow n l -> (to < n)%nat ->
  refsBelow n l'.
Proof.
  intros H Hl Ht. apply mapM_Some_1 in H. unfold refsBelow in *.
  induction H as [| x y l l' Hxy _ IH]; [constructor |].
  inversion Hl; subst. constructor; [| now apply IH].
  eapply mergeClonable_below; eauto.
Qed.

Lemma lookup_snoc_open (fs : list (option Queue)) i q :
  (fs ++ [None]) !! i = Some (Some q) -> fs !! i = Some (Some q).
Proof.
  intros H. apply lookup_app_Some in H as [H | [_ H]]; [exact H |].
  apply list_lookup_singleton_Some in H as [_ H]. discriminate.
Qed.

(** The facts about the rings of the open flows a proof refers to, and the
    steps that settle what a builder call leaves to prove. *)
Ltac open_facts Hf :=
  repeat match goal with
         | H : (_ ++ [None]) !! _ = Some (Some _) |- _ => apply lookup_snoc_open in H
         end;
  repeat match goal with
         | H : flows _ !! _ = Some (Some ?q) |- _ =>
             lazymatch goal with
             | _ : (q < _)%nat |- _ => fail
             | _ => pose proof (openBelow_lookup _ _ _ _ Hf H)
             end
         end.

Ltac len_lia := rewrite ?length_app, ?length_insert; cbn [length]; lia.

Ltac refs_here :=
  cbn [inputs outputs Parameters NewUnclonableFlowFunction NewClonableFlowFunction app];
  repeat (constructor; try len_lia).

Ltac wired_step :=
  first
    [ assumption
    | exact I
    | apply ringsOk_snoc
    | apply kinds_snoc
    | apply openBelow_insert
    | apply openBelow_snoc
    | apply kinds_merge
    | apply refsBelow_mergeUnClonable
    | eapply refsBelow_mergeClonable; [eassumption | |]
    | eapply refsBelow_snoc; [eassumption | len_lia | refs_here]
    | eapply refsBelow_mono; [eassumption | len_lia]
    | eapply openBelow_mono; [eassumption | len_lia]
    | len_lia ].

Ltac wired_auto Hf := open_facts Hf; constructor; state_simpl; repeat wired_step.

Lemma SetWriter_wired IN filename s :
  wired s -> wp (SetWriter IN filename) (fun _ s' => wired s') s.
Proof.
  intros [Hk Hr Hs Hu Hc Hf Ht]. unfold SetWriter. wp_run. subst. wired_auto Hf.
Qed.

Lemma SetReader_wired filename repcount s :
  wired s -> wp (SetReader filename repcount) (fun _ s' => wired s') s.
Proof.
  intros [Hk Hr Hs Hu Hc Hf Ht]. unfold SetReader. wp_run; subst. wired_auto Hf.
Qed.

Lemma SetReceiver_wired port s :
  wired s -> wp (SetReceiver port) (fun _ s' => wired s') s.
Proof.
  intros [Hk Hr Hs Hu Hc Hf Ht]. unfold SetReceiver. wp_run; subst. wired_auto Hf.
Qed.

Lemma SetGenerator_wired f speed s :
  wired s -> wp (SetGenerator f speed) (fun _ s' => wired s') s.
Proof.
  intros [Hk Hr Hs Hu Hc Hf Ht]. unfold SetGenerator. wp_run; subst.
  all: wired_auto Hf.
Qed.

Lemma SetSender_wired IN port s :
  wired s -> wp (SetSender IN port) (fun _ s' => wired s') s.
Proof.
  intros [Hk Hr Hs Hu Hc Hf Ht]. unfold SetSender. wp_run; subst. wired_auto Hf.
Qed.

Lemma SetPartitioner_wired IN N M s :
  wired s -> wp (SetPartitioner IN N M) (fun _ s' => wired s') s.
Proof.
  intros [Hk Hr Hs Hu Hc Hf Ht]. unfold SetPartitioner. wp_run; subst.
  all: wired_auto Hf.
Qed.

Lemma SetSeparator_wired IN f s :
  wired s -> wp (SetSeparator IN f) (fun _ s' => wired s') s.
Proof.
  intros [Hk Hr Hs Hu Hc Hf Ht]. unfold SetSeparator. wp_run; subst.
  all: wired_auto Hf.
Qed.

Lemma SetHandler_wired IN f s :
  wired s -> wp (SetHandler IN f) (fun _ s' => wired s') s.
Proof.
  intros [Hk Hr Hs Hu Hc Hf Ht]. unfold SetHandler. wp_run; subst.
  all: wired_auto Hf.
Qed.

Lemma SetStopper_wired IN s :
  wired s -> wp (SetStopper IN) (fun _ s' => wired s') s.
Proof.
  intros [Hk Hr Hs Hu Hc Hf Ht]. unfold SetStopper. wp_run; subst.
  pose proof Hr as (_ & _ & _ & Hsome). rewrite Hs in *.
  wired_auto Hf.
Qed.

Lemma SetMerger_wired InArray s :
  wired s -> wp (SetMerger InArray) (fun _ s' => wired s') s.
Proof.
  intros [Hk Hr Hs Hu Hc Hf Ht]. unfold SetMerger. wp_run.
  eapply wp_mono.
  - apply (wp_forEach _ (fun s0 => wired s0 /\ (length (rings s) < length (rings s0))%nat)).
    + intros f s0 _ [[Hk0 Hr0 Hs0 Hu0 Hc0 Hf0 Ht0] Hlen]. wp_run; subst.
      split; [| exact Hlen]. wired_auto Hf0.
    + split; [| state_simpl; len_lia]. wired_auto Hf.
  - cbv beta. intros _ s1 [[Hk1 Hr1 Hs1 Hu1 Hc1 Hf1 Ht1] Hlen]. wp_run; subst.
    wired_auto Hf1.
Qed.

Lemma splitterOutputs_wired n s :
  wired s ->
  wp (splitterOutputs n)
     (fun r s' =>
        wired s' /\ Forall (fun q : Queue => (q < length (rings s'))%nat) (snd r) /\
        (length (rings s) <= length (rings s'))%nat) s.
Proof.
  revert s. induction n as [| n IH]; intros s Hw; cbn [splitterOutputs].
  - wp_run. split; [exact Hw | split; [constructor | lia]].
  - destruct Hw as [Hk Hr Hs Hu Hc Hf Ht]. wp_run.
    eapply wp_mono.
    + apply IH. wired_auto Hf.
    + cbv beta. intros [fs qs] s1 (Hw1 & Hall & Hlen). wp_run.
      revert Hlen. rewrite length_app. cbn [length]. intros Hlen.
      split; [exact Hw1 | split; [| lia]].
      constructor; [lia | exact Hall].
Qed.

Lemma SetSplitter_wired IN f flowNumber s :
  wired s -> wp (SetSplitter IN f flowNumber) (fun _ s' => wired s') s.
Proof.
  intros Hw. unfold SetSplitter. wp_run; subst.
  eapply wp_mono; [now apply splitterOutputs_wired |]. cbv beta.
  intros [fs qs] s1 ([Hk Hr Hs Hu Hc Hf Ht] & Hall & Hlen). wp_run; subst.
  open_facts Hf. constructor; state_simpl; repeat wired_step.
  now apply Forall_take.
Qed.

Lemma call_wired c s : wired s -> wp (call c) (fun _ s' => wired s') s.
Proof.
  intros Hs. destruct c; cbn [call].
  - now apply SetWriter_wired.
  - apply wp_bind. eapply wp_mono; [now apply SetReader_wired | auto].
  - apply wp_bind. eapply wp_mono; [now apply SetReceiver_wired | auto].
  - apply wp_bind. eapply wp_mono; [now apply SetGenerator_wired | auto].
  - now apply SetSender_wired.
  - apply wp_bind. eapply wp_mono; [now apply SetPartitioner_wired | auto].
  - apply wp_bind. eapply wp_mono; [now apply SetSeparator_wired | auto].
  - apply wp_bind. eapply wp_mono; [now apply SetSplitter_wired | auto].
  - now apply SetStopper_wired.
  - now apply SetHandler_wired.
  - apply wp_bind. eapply wp_mono; [now apply SetMerger_wired | auto].
Qed.

Lemma SystemInit_wired d mem args : wired (SystemInit d mem args).
Proof.
  constructor; cbn [SystemInit schedState UnClonable Clonable StopRing rings ringName
                      burstSize sizeMultiplier flows length maxPacketsToClone].
  - constructor.
  - unfold ringsOk. cbn [map seq length CreateQueue name capacity].
    repeat split; [| lia]. now constructor.
  - reflexivity.
  - constructor.
  - constructor.
  - constructor.
  - reflexivity.
Qed.

Lemma reachable_wired s : reachable s -> wired s.
Proof.
  intros (d & mem & args & calls & Hb).
  apply (wp_Ok (build calls) (fun _ s1 => wired s1) (SystemInit d mem args) tt s);
    [| exact Hb].
  apply wp_forEach; [| apply SystemInit_wired].
  intros c s0 _ Hs0. now apply call_wired.
Qed.


End WiringProofs.

(** ** What holds of every graph that was built *)

Section Reachable.







Lemma built_reachable : reachable built.
Proof. exists twoPorts, zeroMemory, defaultConfig, smallGraph. vm_compute. reflexivity. Qed.


Lemma ringsOk_lookup rs next cap i r :
  ringsOk rs next cap -> rs !! i = Some r ->
  name r = wrapInt (Z.of_nat i + 1) /\ capacity r = cap.
Proof.
  intros (Hn & _ & Hcap & _) Hi. split.
  - assert (Hm : map name rs !! i = Some (name r)) by (now rewrite list_lookup_fmap, Hi).
    rewrite Hn, list_lookup_fmap in Hm.
    rewrite lookup_seq_lt in Hm by (eapply lookup_lt_Some; eauto).
    cbn in Hm. now injection Hm as <-.
  - exact (Forall_lookup_1 _ _ _ _ Hcap Hi).
Qed.

(** X15. In every graph the builder has made, the rings are named in the
    order of their creation, the ring at index [i] having the name
    [i + 1], so that no two rings share a name, and every ring has the
    capacity [burstSize * sizeMultiplier]; the stop ring is the first. *)
Theorem rings_are_named_in_order (s : State) :
  reachable s -> Z.of_nat (length (rings s)) < 2 ^ 63 ->
  (forall i r, rings s !! i = Some r ->
     name r = Z.of_nat i + 1 /\
     capacity r = Z.to_nat (wrap64 (burstSize s * sizeMultiplier s))) /\
  NoDup (map name (rings s)) /\
  StopRing (schedState s) = 0%nat /\ is_Some (rings s !! 0%nat).
Proof.
  intros Hreach Hlen.
  pose proof (reachable_wired s Hreach) as [_ Hr Hs _ _ _ _].
  assert (Hall : forall i r, rings s !! i = Some r ->
            name r = Z.of_nat i + 1 /\
            capacity r = Z.to_nat (wrap64 (burstSize s * sizeMultiplier s))).
  { intros i r Hi. destruct (ringsOk_lookup _ _ _ _ _ Hr Hi) as [Hn Hc].
    pose proof (lookup_lt_Some _ _ _ Hi). split; [| exact Hc].
    rewrite Hn. apply wrapInt_small. lia. }
  split; [exact Hall |]. split; [| split; [exact Hs |]].
  - apply NoDup_alt. intros i j x Hi Hj.
    rewrite list_lookup_fmap in Hi, Hj.
    destruct (rings s !! i) as [ri |] eqn:Eri; [| discriminate].
    destruct (rings s !! j) as [rj |] eqn:Erj; [| discriminate].
    cbn in Hi, Hj. injection Hi as Hi. injection Hj as Hj.
    destruct (Hall _ _ Eri) as [Hni _]. destruct (Hall _ _ Erj) as [Hnj _]. lia.
  - apply lookup_lt_is_Some_2. now destruct Hr as (_ & _ & _ & Hpos).
Qed.

Lemma rings_are_named_in_order_witness :
  (reachable built /\ Z.of_nat (length (rings built)) < 2 ^ 63) /\
  map name (rings built) = [1; 2; 3; 4; 5] /\ NoDup (map name (rings built)).
Proof.
  assert (Hlen : Z.of_nat (length (rings built)) < 2 ^ 63) by (vm_compute; reflexivity).
  split; [split; [exact built_reachable | exact Hlen] |].
  split; [vm_compute; reflexivity |].
  now destruct (rings_are_named_in_order built built_reachable Hlen) as (_ & H & _).
Defined.

(** X16. In every graph the builder has made, the clone threshold is at
    most the capacity of every ring, and below it for a ring that can hold
    a packet: the occupancy of a ring can exceed the threshold. *)
Theorem clone_threshold_below_capacity (s : State) (i : nat) (r : Ring) :
  reachable s -> rings s !! i = Some r ->
  0 <= maxPacketsToClone s <= Z.of_nat (capacity r) /\
  ((0 < capacity r)%nat -> maxPacketsToClone s < Z.of_nat (capacity r)).
Proof.
  intros Hreach Hi.
  pose proof (reachable_wired s Hreach) as [_ Hr _ _ _ _ Ht].
  destruct (ringsOk_lookup _ _ _ _ _ Hr Hi) as [_ Hc].
  rewrite Hc, Ht. rewrite (Z.mul_comm (sizeMultiplier s) (burstSize s)).
  set (c := wrap64 (burstSize s * sizeMultiplier s)).
  assert (Hc0 : 0 <= c < 2 ^ 64) by (apply (wrap_range 64); lia).
  assert (Hq : 0 <= c / 5 * 4 <= c).
  { pose proof (Z.div_mod c 5 ltac:(lia)). pose proof (Z.mod_pos_bound c 5 ltac:(lia)). lia. }
  assert (Hq' : 0 < c -> c / 5 * 4 < c).
  { pose proof (Z.div_mod c 5 ltac:(lia)). pose proof (Z.mod_pos_bound c 5 ltac:(lia)). lia. }
  change (wrap64 (c / 5 * 4)) with (wrap 64 (c / 5 * 4)).
  rewrite (wrap_small 64 (c / 5 * 4)) by lia.
  assert (Hw : 0 <= wrap32 (c / 5 * 4) <= c / 5 * 4).
  { unfold wrap32, wrap. pose proof (Z.mod_pos_bound (c / 5 * 4) (2 ^ 32) ltac:(lia)).
    pose proof (Z.mod_le (c / 5 * 4) (2 ^ 32) ltac:(lia) ltac:(lia)). lia. }
  rewrite Z2Nat.id by lia. split; [lia |]. intros Hpos. lia.
Qed.

Lemma clone_threshold_below_capacity_witness :
  (reachable built /\ is_Some (rings built !! 1%nat)) /\
  maxPacketsToClone built = 6552 /\
  forall r, rings built !! 1%nat = Some r ->
            Z.of_nat (capacity r) = 8192 /\ maxPacketsToClone built < Z.of_nat (capacity r).
Proof.
  split; [split; [exact built_reachable | vm_compute; eauto] |].
  split; [vm_compute; reflexivity |].
  intros r Hr.
  pose proof (clone_threshold_below_capacity built 1 r built_reachable Hr) as [_ H].
  assert (Hcap : Z.of_nat (capacity r) = 8192).
  { vm_compute in Hr. injection Hr as <-. vm_compute. reflexivity. }
  split; [exact Hcap |]. apply H. lia.
Defined.

(** X17. In every graph the builder has made, every ring that a flow
    function reads or writes, and the ring of every open flow, is a ring
    that was created: no stage starts with a missing ring. *)
Theorem stages_name_existing_rings (s : State) :
  reachable s ->
  (forall ff q,
     ff ∈ UnClonable (schedState s) ++ Clonable (schedState s) ->
     q ∈ inputs (Parameters ff) ++ outputs (Parameters ff) ->
     is_Some (rings s !! q)) /\
  (forall f q, flows s !! f = Some (Some q) -> is_Some (rings s !! q)).
Proof.
  intros Hreach.
  pose proof (reachable_wired s Hreach) as [_ _ _ Hu Hc Hf _]. split.
  - intros ff q Hff Hq. apply lookup_lt_is_Some_2.
    unfold refsBelow in *. rewrite Forall_forall in Hu, Hc.
    apply elem_of_app in Hff as [Hff | Hff];
      [specialize (Hu _ Hff) | specialize (Hc _ Hff)].
    + rewrite Forall_forall in Hu. now apply Hu.
    + rewrite Forall_forall in Hc. now apply Hc.
  - intros f q Hfq. apply lookup_lt_is_Some_2. exact (openBelow_lookup _ _ _ _ Hf Hfq).
Qed.

Lemma stages_name_existing_rings_witness :
  reachable built /\
  forall ff q,
    ff ∈ UnClonable (schedState built) ++ Clonable (schedState built) ->
    q ∈ inputs (Parameters ff) ++ outputs (Parameters ff) ->
    is_Some (rings built !! q).
Proof.
  split; [exact built_reachable |].
  now destruct (stages_name_existing_rings built built_reachable) as [H _].
Defined.

End Reachable.
